(** * Resume interactivity: a shallow embedding of the page script and its
      properties

    Each of the two source files wires six independent modules to the
    document; they share the first three modules and the accordion, and
    differ in the skill filter and in the sixth module (contact form or
    copy-email).  The embedding keeps the shape of the source: element
    objects live in a heap and are touched through references, the document
    tree gives the order in which [querySelector] scans, every function of
    the script is a computation in a state-and-exception monad over that
    world, and closures become explicit arguments (the captured element
    references). *)

From stdpp Require Import base option list strings gmap sets.
From Stdlib Require Import QArith Lia.

Set Warnings "-clear-no-such-hyp".

Close Scope Q_scope.
Open Scope string_scope.
Open Scope list_scope.

(** ** JavaScript strings as sequences of UTF-16 code units *)

Module JsString.

Definition t := list N.

(** An ASCII literal of the source, as code units. *)
Definition lit (s : string) : t :=
  map Ascii.N_of_ascii (String.list_ascii_of_string s).

(** WhiteSpace and LineTerminator of ECMAScript: what [trim] strips and
    what the regular-expression class [\s] contains. *)
Definition isWhiteSpace (c : N) : bool :=
  ((c =? 0x09) || (c =? 0x0A) || (c =? 0x0B) || (c =? 0x0C) || (c =? 0x0D)
   || (c =? 0x20) || (c =? 0xA0) || (c =? 0x1680)
   || ((0x2000 <=? c) && (c <=? 0x200A))
   || (c =? 0x2028) || (c =? 0x2029) || (c =? 0x202F) || (c =? 0x205F)
   || (c =? 0x3000) || (c =? 0xFEFF))%N.

Fixpoint trimStart (s : t) : t :=
  match s with
  | [] => []
  | c :: r => if isWhiteSpace c then trimStart r else s
  end.

Definition trimEnd (s : t) : t := rev (trimStart (rev s)).

Definition trim (s : t) : t := trimEnd (trimStart s).

(** [!s] on a string: the empty string is the only falsy one. *)
Definition isEmpty (s : t) : bool :=
  match s with [] => true | _ => false end.

End JsString.

Abbreviation jsstring := JsString.t.

(** ** The regular expression of the email rule

    [/^[^\s@]+@[^\s@]+\.[^\s@]+$/] as a backtracking matcher in
    continuation-passing style: each piece consumes a prefix and hands the
    rest to the continuation; [plus] is greedy and backtracks. *)

Module Regex.

Definition cont := jsstring -> bool.

(** [[^\s@]] *)
Definition notSpaceAt (c : N) : bool :=
  negb (JsString.isWhiteSpace c) && negb (c =? 0x40)%N.

(** [cls+] followed by [k] *)
Fixpoint plus (cls : N -> bool) (k : cont) (s : jsstring) : bool :=
  match s with
  | [] => false
  | c :: r => cls c && (plus cls k r || k r)
  end.

(** a literal character followed by [k] *)
Definition char (x : N) (k : cont) (s : jsstring) : bool :=
  match s with
  | [] => false
  | c :: r => (c =? x)%N && k r
  end.

(** [$] without the multiline flag: end of input *)
Definition eoi (s : jsstring) : bool := JsString.isEmpty s.

(** [^] anchors the only attempt at index 0. *)
Definition email_test (s : jsstring) : bool :=
  plus notSpaceAt
    (char 0x40 (plus notSpaceAt (char 0x2E (plus notSpaceAt eoi)))) s.

End Regex.

(** ** Validation rules (the [validate] members of [validators]) *)

Definition validate_name (val : jsstring) : option string :=
  if JsString.isEmpty (JsString.trim val) then Some "Name is required."
  else if (length (JsString.trim val) <? 2)%nat
       then Some "Name must be at least 2 characters."
  else None.

Definition validate_email (val : jsstring) : option string :=
  if JsString.isEmpty (JsString.trim val) then Some "Email address is required."
  else if negb (Regex.email_test (JsString.trim val))
       then Some "Please enter a valid email address."
  else None.

Definition validate_message (val : jsstring) : option string :=
  if JsString.isEmpty (JsString.trim val) then Some "A message is required."
  else if (length (JsString.trim val) <? 10)%nat
       then Some "Message must be at least 10 characters."
  else None.

Arguments validate_name : simpl never.
Arguments validate_email : simpl never.
Arguments validate_message : simpl never.

(** ** The document *)

(** An element object.  Boolean properties that reflect content attributes
    ([hidden], [disabled], [open]) are read and written through [attrs]. *)
Record element := Element {
  tagName : string;
  attrs : gmap string string;
  classList : gset string;
  textContent : string;
  value : jsstring;
  style_display : string;
  offsetHeight : N;
}.

Abbreviation ref := nat.

(** Selectors: a comma-separated list of compound selectors. *)
Inductive simple_selector :=
| SelTag (t : string)
| SelId (i : string)
| SelClass (c : string)
| SelAttr (a : string)
| SelAttrEq (a v : string)
| SelAttrPrefix (a v : string).

Definition compound_selector := list simple_selector.
Definition selector := list compound_selector.

Definition simple_matches (s : simple_selector) (e : element) : bool :=
  match s with
  | SelTag t => bool_decide (tagName e = t)
  | SelId i => bool_decide (attrs e !! "id" = Some i)
  | SelClass c => bool_decide (c ∈ classList e)
  | SelAttr a => bool_decide (is_Some (attrs e !! a))
  | SelAttrEq a v => bool_decide (attrs e !! a = Some v)
  | SelAttrPrefix a v =>
      match attrs e !! a with
      | Some x => String.prefix v x
      | None => false
      end
  end.

Definition el_matches (sel : selector) (e : element) : bool :=
  existsb (fun c => forallb (fun s => simple_matches s e) c) sel.

(** The fields of the contact form: selectors of the three elements of a
    field and its rule. *)
Record field_config := FieldConfig {
  el : string;
  errorEl : string;
  groupEl : string;
  validate : jsstring -> option string;
}.

(** Event handlers are closures in the source; here each is named by a
    constructor that carries what the closure captured. *)
Inductive handler :=
| SmoothScrollClick
| NavResize (sections : list ref)
| MobileToggleClick (toggle nav : ref)
| MobileLinkClick (toggle nav : ref)
| MobileOutsideClick (toggle nav : ref)
| MobileEscape (toggle nav : ref)
| FilterClick (btn : ref) (filterBtns skillItems : list ref) (emptyState : option ref)
| FilterClickAlt (btn : ref) (filterBtns skillItems : list ref) (emptyState : option ref)
| FilterKeydown (filterBtns : list ref)
| ExperienceToggle (details : ref) (detailsEls : list ref)
| SummaryKeydown (summary details : ref) (detailsEls : list ref)
| SyncAria (summary details : ref)
| FieldBlur (config : field_config)
| FieldInput (config : field_config) (input : ref)
| FormSubmit (form submitBtn successEl : ref)
| RemoveTabindexOnce (target : ref)
| CopyClick (btn confirm : ref)
| CopyKeydown (btn confirm : ref).

Inductive target := Document | Window | Node (n : ref).

Record listener := Listener {
  l_target : target;
  l_event : string;
  l_handler : handler;
}.

(** The world a handler runs in.  [tree] lists the attached elements in
    document order, each with its depth, so the descendants of an element
    are the run of deeper entries that follows it. *)
Record world := World {
  heap : gmap nat element;
  tree : list (ref * nat);
  activeElement : option ref;
  listeners : list listener;
  timers : list N;
  observed : list ref;
  defaultPrevented : bool;
  scrollTarget : option ref;
}.

Definition set_heap (f : gmap nat element -> gmap nat element) (w : world) : world :=
  World (f (heap w)) (tree w) (activeElement w) (listeners w) (timers w)
        (observed w) (defaultPrevented w) (scrollTarget w).

Definition set_tree (f : list (ref * nat) -> list (ref * nat)) (w : world) : world :=
  World (heap w) (f (tree w)) (activeElement w) (listeners w) (timers w)
        (observed w) (defaultPrevented w) (scrollTarget w).

Definition set_activeElement (a : option ref) (w : world) : world :=
  World (heap w) (tree w) a (listeners w) (timers w) (observed w)
        (defaultPrevented w) (scrollTarget w).

Definition set_listeners (f : list listener -> list listener) (w : world) : world :=
  World (heap w) (tree w) (activeElement w) (f (listeners w)) (timers w)
        (observed w) (defaultPrevented w) (scrollTarget w).

Definition set_timers (f : list N -> list N) (w : world) : world :=
  World (heap w) (tree w) (activeElement w) (listeners w) (f (timers w))
        (observed w) (defaultPrevented w) (scrollTarget w).

Definition set_observed (f : list ref -> list ref) (w : world) : world :=
  World (heap w) (tree w) (activeElement w) (listeners w) (timers w)
        (f (observed w)) (defaultPrevented w) (scrollTarget w).

Definition set_defaultPrevented (b : bool) (w : world) : world :=
  World (heap w) (tree w) (activeElement w) (listeners w) (timers w)
        (observed w) b (scrollTarget w).

Definition set_scrollTarget (t : option ref) (w : world) : world :=
  World (heap w) (tree w) (activeElement w) (listeners w) (timers w)
        (observed w) (defaultPrevented w) t.

(** *** Tree walks *)

Fixpoint deeper_run (d : nat) (t : list (ref * nat)) : list (ref * nat) :=
  match t with
  | [] => []
  | (n, d') :: r => if (d <? d')%nat then (n, d') :: deeper_run d r else []
  end.

Fixpoint after_run (d : nat) (t : list (ref * nat)) : list (ref * nat) :=
  match t with
  | [] => []
  | (n, d') :: r => if (d <? d')%nat then after_run d r else t
  end.

(** The descendants of [r], in document order. *)
Fixpoint descendants (r : ref) (t : list (ref * nat)) : list ref :=
  match t with
  | [] => []
  | (n, d) :: rest =>
      if bool_decide (n = r) then (deeper_run d rest).*1 else descendants r rest
  end.

(** The tree without the descendants of [r]. *)
Fixpoint remove_descendants (r : ref) (t : list (ref * nat)) : list (ref * nat) :=
  match t with
  | [] => []
  | (n, d) :: rest =>
      if bool_decide (n = r) then (n, d) :: after_run d rest
      else (n, d) :: remove_descendants r rest
  end.

(** The tree with [new] as the next sibling of [r]. *)
Fixpoint insert_after (r new : ref) (t : list (ref * nat)) : list (ref * nat) :=
  match t with
  | [] => []
  | (n, d) :: rest =>
      if bool_decide (n = r)
      then (n, d) :: deeper_run d rest ++ (new, d) :: after_run d rest
      else (n, d) :: insert_after r new rest
  end.

(** Where a query looks: the whole document, or below a root element. *)
Definition scope (root : option ref) (t : list (ref * nat)) : list ref :=
  match root with
  | None => t.*1
  | Some r => descendants r t
  end.

Definition ref_matches (sel : selector) (h : gmap nat element) (n : ref) : bool :=
  match h !! n with
  | Some e => el_matches sel e
  | None => false
  end.

Definition select (sel : selector) (root : option ref) (w : world) : list ref :=
  List.filter (ref_matches sel (heap w)) (scope root (tree w)).

(** Reading the state of an element (pure observations). *)
Definition attr (w : world) (n : ref) (a : string) : option string :=
  heap w !! n ≫= fun e => attrs e !! a.

Definition has_class (w : world) (n : ref) (c : string) : bool :=
  match heap w !! n with
  | Some e => bool_decide (c ∈ classList e)
  | None => false
  end.

Definition text_of (w : world) (n : ref) : option string :=
  textContent <$> heap w !! n.

Definition value_of (w : world) (n : ref) : jsstring :=
  match heap w !! n with
  | Some e => value e
  | None => []
  end.

Definition display_of (w : world) (n : ref) : option string :=
  style_display <$> heap w !! n.

(** ** The monad of handlers: state and exceptions *)

Inductive exn := TypeError | SyntaxError | Rejection.

Inductive result (A : Type) :=
| Ok (a : A) (w : world)
| Throw (e : exn) (w : world).
Arguments Ok {A} a w.
Arguments Throw {A} e w.

Definition M (A : Type) : Type := world -> result A.

Definition ret {A} (a : A) : M A := fun w => Ok a w.

Definition bind {A B} (m : M A) (k : A -> M B) : M B :=
  fun w =>
    match m w with
    | Ok a w' => k a w'
    | Throw e w' => Throw e w'
    end.

Definition throw {A} (e : exn) : M A := fun w => Throw e w.

Definition try_catch {A} (m : M A) (h : exn -> M A) : M A :=
  fun w =>
    match m w with
    | Ok a w' => Ok a w'
    | Throw e w' => h e w'
    end.

Declare Scope js_scope.
Delimit Scope js_scope with js.
Notation "'let*' x := m 'in' k" := (bind m (fun x => k))
  (at level 10, x name, m at level 100, k at level 200) : js_scope.
Notation "m ;;; k" := (bind m (fun _ => k))
  (at level 100, k at level 200, right associativity) : js_scope.
Open Scope js_scope.

Fixpoint forEach {A} (l : list A) (f : A -> M unit) : M unit :=
  match l with
  | [] => ret tt
  | x :: r => f x ;;; forEach r f
  end.

(** [arr.map(f)] with an effectful callback. *)
Fixpoint mapM {A B} (f : A -> M B) (l : list A) : M (list B) :=
  match l with
  | [] => ret []
  | x :: r => let* y := f x in let* ys := mapM f r in ret (y :: ys)
  end.

(** *** DOM primitives *)

(** Using a value that may be [null] as an object. *)
Definition deref (r : option ref) : M ref :=
  match r with
  | Some n => ret n
  | None => throw TypeError
  end.

Definition qs (sel : selector) (root : option ref) : M (option ref) :=
  fun w => Ok (head (select sel root w)) w.

Definition qsa (sel : selector) (root : option ref) : M (list ref) :=
  fun w => Ok (select sel root w) w.

(** The effect of changing the element object behind a reference. *)
Definition update (n : ref) (f : element -> element) (w : world) : world :=
  set_heap (alter f n) w.

Definition modify (n : ref) (f : element -> element) : M unit :=
  fun w => Ok tt (update n f w).

Definition with_attrs (f : gmap string string -> gmap string string) (e : element) : element :=
  Element (tagName e) (f (attrs e)) (classList e) (textContent e) (value e)
          (style_display e) (offsetHeight e).

Definition with_classList (f : gset string -> gset string) (e : element) : element :=
  Element (tagName e) (attrs e) (f (classList e)) (textContent e) (value e)
          (style_display e) (offsetHeight e).

Definition with_textContent (s : string) (e : element) : element :=
  Element (tagName e) (attrs e) (classList e) s (value e)
          (style_display e) (offsetHeight e).

Definition with_display (s : string) (e : element) : element :=
  Element (tagName e) (attrs e) (classList e) (textContent e) (value e)
          s (offsetHeight e).

Definition with_value (s : jsstring) (e : element) : element :=
  Element (tagName e) (attrs e) (classList e) (textContent e) s
          (style_display e) (offsetHeight e).

Definition getAttribute (n : ref) (a : string) : M (option string) :=
  fun w => Ok (attr w n a) w.

Definition hasAttribute (n : ref) (a : string) : M bool :=
  fun w => Ok (bool_decide (is_Some (attr w n a))) w.

Definition setAttribute (n : ref) (a v : string) : M unit :=
  modify n (with_attrs (insert a v)).

Definition removeAttribute (n : ref) (a : string) : M unit :=
  modify n (with_attrs (delete a)).

(** A reflected boolean property: [el.hidden = b], [el.disabled = b]. *)
Definition set_flag (n : ref) (a : string) (b : bool) : M unit :=
  if b then setAttribute n a "" else removeAttribute n a.

Definition get_flag (n : ref) (a : string) : M bool := hasAttribute n a.

Definition classList_add (n : ref) (c : string) : M unit :=
  modify n (with_classList (fun s => {[c]} ∪ s)).

Definition classList_remove (n : ref) (c : string) : M unit :=
  modify n (with_classList (fun s => s ∖ {[c]})).

Definition classList_toggle (n : ref) (c : string) (force : bool) : M unit :=
  if force then classList_add n c else classList_remove n c.

Definition classList_contains (n : ref) (c : string) : M bool :=
  fun w => Ok (has_class w n c) w.

(** [el.textContent = s]: the children are replaced by the text. *)
Definition set_textContent (n : ref) (s : string) : M unit :=
  fun w => Ok tt (set_tree (remove_descendants n)
                           (update n (with_textContent s) w)).

Definition get_value (n : ref) : M jsstring :=
  fun w => Ok (value_of w n) w.

Definition set_display (n : ref) (s : string) : M unit :=
  modify n (with_display s).

(** [el.focus()] makes the element the active one.  Whether the browser
    accepts the request (a [tabindex], a rendered element) is a matter of
    the page's markup; the script only ever asks.  Where the
    script asks for an element that is no control, button or link and gives
    it no [tabindex] itself (the success element of the contact form), the
    statement about it also says that the element is rendered and focusable
    when the request is made. *)
Definition focus (n : ref) : M unit :=
  fun w => Ok tt (set_activeElement (Some n) w).

Definition addEventListener (t : target) (ev : string) (h : handler) : M unit :=
  fun w => Ok tt (set_listeners (fun l => l ++ [Listener t ev h]) w).

Definition preventDefault : M unit :=
  fun w => Ok tt (set_defaultPrevented true w).

Definition setTimeout (delay : N) : M unit :=
  fun w => Ok tt (set_timers (fun l => l ++ [delay]) w).

(** [document.createElement]: a fresh, detached element object. *)
Definition empty_element (tag : string) : element :=
  Element tag ∅ ∅ "" [] "" 0.

Definition createElement (tag : string) : M ref :=
  fun w =>
    let n := fresh (dom (heap w)) in
    Ok n (set_heap (insert n (empty_element tag)) w).

(** [r.after(new)] *)
Definition after (r new : ref) : M unit :=
  fun w => Ok tt (set_tree (insert_after r new) w).

(** [String(b)] *)
Definition string_of_bool (b : bool) : string := if b then "true" else "false".

(** Truthiness of a string-or-null value. *)
Definition truthy (o : option string) : bool :=
  match o with
  | Some s => negb (bool_decide (s = ""))
  | None => false
  end.

Definition is_null {A} (o : option A) : bool :=
  match o with None => true | Some _ => false end.

(** [!arr.length] *)
Definition is_empty_list {A} (l : list A) : bool :=
  match l with [] => true | _ => false end.

Definition sel_id (i : string) : selector := [[SelId i]].
Definition sel_class (c : string) : selector := [[SelClass c]].

(** ** 6. Contact form *)

Module ContactForm.

Definition name_config : field_config :=
  FieldConfig "field-name" "error-name" "group-name" validate_name.
Definition email_config : field_config :=
  FieldConfig "field-email" "error-email" "group-email" validate_email.
Definition message_config : field_config :=
  FieldConfig "field-message" "error-message" "group-message" validate_message.

(** [Object.values(validators)]: insertion order of the keys. *)
Definition validators : list field_config :=
  [name_config; email_config; message_config].

(** The thunks [config.el()], [config.errorEl()], [config.groupEl()]. *)
Definition config_el (config : field_config) : M (option ref) :=
  qs (sel_id (el config)) None.
Definition config_errorEl (config : field_config) : M (option ref) :=
  qs (sel_id (errorEl config)) None.
Definition config_groupEl (config : field_config) : M (option ref) :=
  qs (sel_id (groupEl config)) None.

Definition showError (config : field_config) (message : string) : M unit :=
  let* input := config_el config in
  let* errorEl := config_errorEl config in
  let* groupEl := config_groupEl config in
  match input, errorEl, groupEl with
  | Some input, Some errorEl, Some groupEl =>
      setAttribute input "aria-invalid" "true" ;;;
      set_textContent errorEl message ;;;
      classList_add groupEl "form-group--error"
  | _, _, _ => ret tt
  end.

Definition clearError (config : field_config) : M unit :=
  let* input := config_el config in
  let* errorEl := config_errorEl config in
  let* groupEl := config_groupEl config in
  match input, errorEl, groupEl with
  | Some input, Some errorEl, Some groupEl =>
      removeAttribute input "aria-invalid" ;;;
      set_textContent errorEl "" ;;;
      classList_remove groupEl "form-group--error"
  | _, _, _ => ret tt
  end.

Definition validateField (config : field_config) : M (option string) :=
  let* input := config_el config in
  match input with
  | None => ret None
  | Some input =>
      let* v := get_value input in
      let error := validate config v in
      (if truthy error
       then showError config (default "" error)
       else clearError config) ;;;
      ret error
  end.

Definition validateAll : M bool :=
  let* errors := mapM validateField validators in
  ret (forallb is_null errors).

(** The [blur] and [input] listeners of a field. *)
Definition on_blur (config : field_config) : M unit :=
  validateField config ;;; ret tt.

Definition on_input (config : field_config) (input : ref) : M unit :=
  let* a := getAttribute input "aria-invalid" in
  if bool_decide (a = Some "true") then clearError config else ret tt.

Definition setSubmitLoading (submitBtn : ref) (isLoading : bool) : M unit :=
  setAttribute submitBtn "data-loading" (string_of_bool isLoading) ;;;
  set_flag submitBtn "disabled" isLoading ;;;
  set_textContent submitBtn (if isLoading then "Sending…" else "Send Message").

Definition showSuccess (form successEl : ref) : M unit :=
  let* controls := qsa [[SelClass "form-group"]; [SelClass "form-actions"]] (Some form) in
  forEach controls (fun el => set_flag el "hidden" true) ;;;
  set_flag successEl "hidden" false ;;;
  focus successEl.

Definition showSubmitError (form : ref) (message : string) : M unit :=
  let* found := qs (sel_id "submit-error") (Some form) in
  let* errEl :=
    match found with
    | Some errEl => ret errEl
    | None =>
        let* errEl := createElement "p" in
        setAttribute errEl "id" "submit-error" ;;;
        setAttribute errEl "role" "alert" ;;;
        setAttribute errEl "aria-live" "assertive" ;;;
        classList_add errEl "form-error" ;;;
        let* actions := qs (sel_class "form-actions") (Some form) in
        let* actions := deref actions in
        after actions errEl ;;;
        ret errEl
    end in
  set_textContent errEl message.

(** [new Promise(resolve => setTimeout(resolve, 1000))]: the promise is
    settled by its timer and the executor never rejects. *)
Definition simulateSend : M unit := setTimeout 1000.

(** The submit handler is an [async] function: it runs up to its [await]
    and is resumed when the promise settles. *)
Inductive progress := Returned | AwaitingSend.
Inductive settled := Fulfilled | Rejected.

Definition on_submit (form submitBtn successEl : ref) : M progress :=
  preventDefault ;;;
  let* isValid := validateAll in
  if negb isValid then
    let* firstInvalid := qs [[SelAttrEq "aria-invalid" "true"]] (Some form) in
    match firstInvalid with
    | Some f => focus f
    | None => ret tt
    end ;;;
    ret Returned
  else
    setSubmitLoading submitBtn true ;;;
    simulateSend ;;;
    ret AwaitingSend.

Definition submit_error_message : string :=
  "Something went wrong. Please try again or email me directly.".

Definition on_send_settled (form submitBtn successEl : ref) (r : settled) : M unit :=
  try_catch
    (match r with
     | Fulfilled => showSuccess form successEl
     | Rejected => throw Rejection
     end)
    (fun _ =>
       showSubmitError form submit_error_message ;;;
       setSubmitLoading submitBtn false).

(** The timer of [simulateSend] fires: its promise is fulfilled. *)
Definition timer_fires : M settled :=
  fun w => Ok Fulfilled (set_timers (drop 1) w).

(** A whole submission: the handler, and when it awaits, the timer and the
    rest of the handler. *)
Definition submission (form submitBtn successEl : ref) : M unit :=
  let* p := on_submit form submitBtn successEl in
  match p with
  | Returned => ret tt
  | AwaitingSend =>
      let* r := timer_fires in
      on_send_settled form submitBtn successEl r
  end.

Definition initContactForm : M unit :=
  let* form := qs (sel_id "contact-form") None in
  let* submitBtn := qs (sel_id "submit-btn") form in
  let* successEl := qs (sel_id "form-success") None in
  match form, submitBtn, successEl with
  | Some form, Some submitBtn, Some successEl =>
      forEach validators (fun config =>
        let* input := config_el config in
        match input with
        | None => ret tt
        | Some input =>
            addEventListener (Node input) "blur" (FieldBlur config) ;;;
            addEventListener (Node input) "input" (FieldInput config input)
        end) ;;;
      addEventListener (Node form) "submit" (FormSubmit form submitBtn successEl)
  | _, _, _ => ret tt
  end.

End ContactForm.

(** ** 2. Nav highlight *)

Module NavHighlight.

(** A JavaScript [Map] keeps its keys in insertion order; [set] on a key
    that is present replaces the value in place. *)
Definition ratio_map := list (string * Q).

Fixpoint map_set (k : string) (v : Q) (m : ratio_map) : ratio_map :=
  match m with
  | [] => [(k, v)]
  | (k', v') :: r =>
      if bool_decide (k' = k) then (k, v) :: r else (k', v') :: map_set k v r
  end.

(** [a > b] on ratios. *)
Definition Qgtb (a b : Q) : bool := negb (Qle_bool a b).

(** The variables the callbacks close over. *)
Record closure := Closure {
  activeId : option string;
  ratioMap : ratio_map;
}.

(** [el.id]: the value of the id attribute, or the empty string. *)
Definition get_id (n : ref) : M string :=
  let* a := getAttribute n "id" in ret (default "" a).

Definition setActive (navLinks : list ref) (id : string) (c : closure) : M closure :=
  if bool_decide (Some id = activeId c) then ret c
  else
    forEach navLinks (fun link =>
      let* section := getAttribute link "data-section" in
      let isActive := bool_decide (section = Some id) in
      classList_toggle link "is-active" isActive ;;;
      setAttribute link "aria-current" (if isActive then "true" else "false")) ;;;
    ret (Closure (Some id) (ratioMap c)).

(** [entries.forEach(entry => ratioMap.set(entry.target.id, entry.intersectionRatio))] *)
Fixpoint record_entries (entries : list (ref * Q)) (m : ratio_map) : M ratio_map :=
  match entries with
  | [] => ret m
  | (t, ratio) :: rest =>
      let* id := get_id t in
      record_entries rest (map_set id ratio m)
  end.

(** The scan for the highest ratio: [topId], [topRatio] over [ratioMap.forEach]. *)
Definition scan_step (top : option string * Q) (kv : string * Q) : option string * Q :=
  if Qgtb kv.2 top.2 then (Some kv.1, kv.2) else top.

Definition scan (m : ratio_map) : option string * Q :=
  fold_left scan_step m (None, 0%Q).

Definition observer_callback (navLinks : list ref) (entries : list (ref * Q))
    (c : closure) : M closure :=
  let* m := record_entries entries (ratioMap c) in
  let c := Closure (activeId c) m in
  let topId := (scan m).1 in
  if truthy topId then setActive navLinks (default "" topId) c else ret c.

Definition getHeaderHeight : M N :=
  let* header := qs (sel_class "site-header") None in
  match header with
  | Some h => fun w => Ok (match heap w !! h with Some e => offsetHeight e | None => 0%N end) w
  | None => ret 0%N
  end.

Definition observe (n : ref) : M unit :=
  fun w => Ok tt (set_observed (fun l => l ++ [n]) w).

Definition disconnect : M unit :=
  fun w => Ok tt (set_observed (fun _ => []) w).

(** The debounced resize callback. *)
Definition on_resize (sections : list ref) : M unit :=
  disconnect ;;; forEach sections observe.

(** Returns the initial closure when the module wires itself.  [linkMap]
    is built by the source and never read; it is left out. *)
Definition initNavHighlight : M (option closure) :=
  let* navLinks := qsa [[SelClass "nav-link"; SelAttr "data-section"]] None in
  let* sections := qsa [[SelTag "section"; SelAttr "id"]] None in
  if is_empty_list navLinks || is_empty_list sections then ret None
  else
    let* ids := mapM get_id sections in
    let ratioMap := fold_left (fun m id => map_set id 0%Q m) ids [] in
    let* rootMargin := getHeaderHeight in
    forEach sections observe ;;;
    addEventListener Window "resize" (NavResize sections) ;;;
    ret (Some (Closure None ratioMap)).

End NavHighlight.

(** ** 3. Mobile nav *)

Module MobileNav.

Definition openNav (toggle nav : ref) : M unit :=
  classList_add nav "is-open" ;;;
  setAttribute toggle "aria-expanded" "true" ;;;
  setAttribute toggle "aria-label" "Close navigation menu".

Definition closeNav (toggle nav : ref) : M unit :=
  classList_remove nav "is-open" ;;;
  setAttribute toggle "aria-expanded" "false" ;;;
  setAttribute toggle "aria-label" "Open navigation menu".

Definition isOpen (nav : ref) : M bool := classList_contains nav "is-open".

Definition on_toggle_click (toggle nav : ref) : M unit :=
  let* o := isOpen nav in
  if o then closeNav toggle nav else openNav toggle nav.

(** [a.contains(b)]: [b] is [a] or one of its descendants. *)
Definition contains (a b : ref) : M bool :=
  fun w => Ok (bool_decide (a = b) || bool_decide (b ∈ descendants a (tree w))) w.

Definition on_outside_click (toggle nav : ref) (target : ref) : M unit :=
  let* o := isOpen nav in
  let* inNav := contains nav target in
  let* inToggle := contains toggle target in
  if o && negb inNav && negb inToggle then closeNav toggle nav else ret tt.

Definition on_keydown (toggle nav : ref) (key : string) : M unit :=
  let* o := isOpen nav in
  if bool_decide (key = "Escape") && o
  then closeNav toggle nav ;;; focus toggle
  else ret tt.

Definition initMobileNav : M unit :=
  let* toggle := qs (sel_class "nav-toggle") None in
  let* nav := qs (sel_id "primary-nav") None in
  match toggle, nav with
  | Some toggle, Some nav =>
      addEventListener (Node toggle) "click" (MobileToggleClick toggle nav) ;;;
      let* links := qsa (sel_class "nav-link") (Some nav) in
      forEach links (fun link =>
        addEventListener (Node link) "click" (MobileLinkClick toggle nav)) ;;;
      addEventListener Document "click" (MobileOutsideClick toggle nav) ;;;
      addEventListener Document "keydown" (MobileEscape toggle nav)
  | _, _ => ret tt
  end.

End MobileNav.

(** ** 4. Skill filter (script.js) *)

Module SkillFilter.

(** The loop of [applyFilter], with its counter. *)
Fixpoint filter_items (skillItems : list ref) (activeFilter : option string)
    (visibleCount : nat) : M nat :=
  match skillItems with
  | [] => ret visibleCount
  | item :: rest =>
      let* category := getAttribute item "data-category" in
      let matches :=
        bool_decide (activeFilter = Some "all") || bool_decide (category = activeFilter) in
      if matches then
        removeAttribute item "data-hidden" ;;;
        filter_items rest activeFilter (S visibleCount)
      else
        setAttribute item "data-hidden" "true" ;;;
        filter_items rest activeFilter visibleCount
  end.

Definition applyFilter (skillItems : list ref) (emptyState : option ref)
    (activeFilter : option string) : M unit :=
  let* visibleCount := filter_items skillItems activeFilter 0 in
  match emptyState with
  | Some e => set_flag e "hidden" (0 <? visibleCount)%nat
  | None => ret tt
  end.

Definition setActiveBtn (filterBtns : list ref) (activeBtn : ref) : M unit :=
  forEach filterBtns (fun btn =>
    let isActive := bool_decide (btn = activeBtn) in
    setAttribute btn "aria-pressed" (string_of_bool isActive) ;;;
    classList_toggle btn "filter-btn--active" isActive).

Definition on_click (btn : ref) (filterBtns skillItems : list ref)
    (emptyState : option ref) : M unit :=
  let* filter := getAttribute btn "data-filter" in
  setActiveBtn filterBtns btn ;;;
  applyFilter skillItems emptyState filter.

(** [arr.indexOf(x)] for an [x] that is in [arr]. *)
Fixpoint indexOf (x : ref) (l : list ref) : nat :=
  match l with
  | [] => 0
  | y :: r => if bool_decide (y = x) then 0 else S (indexOf x r)
  end.

Definition focus_nth (filterBtns : list ref) (i : nat) : M unit :=
  let* b := deref (filterBtns !! i) in focus b.

(** [(idx - 1 + len) % len]: [idx - 1] is negative for the first button, so
    the sum is taken on integers; [%] is the remainder of the truncated
    division. *)
Definition prev_index (idx len : nat) : nat :=
  Z.to_nat (Z.rem (Z.of_nat idx - 1 + Z.of_nat len) (Z.of_nat len)).

Definition on_keydown (filterBtns : list ref) (key : string) : M unit :=
  fun w =>
    match activeElement w with
    | None => Ok tt w
    | Some focusedBtn =>
        if negb (bool_decide (focusedBtn ∈ filterBtns)) then Ok tt w
        else
          let idx := indexOf focusedBtn filterBtns in
          let len := length filterBtns in
          ((if bool_decide (key = "ArrowRight") || bool_decide (key = "ArrowDown")
            then preventDefault ;;; focus_nth filterBtns ((idx + 1) mod len)
            else ret tt) ;;;
           (if bool_decide (key = "ArrowLeft") || bool_decide (key = "ArrowUp")
            then preventDefault ;;; focus_nth filterBtns (prev_index idx len)
            else ret tt) ;;;
           (if bool_decide (key = "Home")
            then preventDefault ;;; focus_nth filterBtns 0
            else ret tt) ;;;
           (if bool_decide (key = "End")
            then preventDefault ;;; focus_nth filterBtns (len - 1)
            else ret tt)) w
    end.

Definition initSkillFilter : M unit :=
  let* filterGroup := qs (sel_class "skills-filters") None in
  let* filterBtns := qsa (sel_class "filter-btn") filterGroup in
  let* skillItems := qsa (sel_class "skill-item") None in
  let* emptyState := qs (sel_id "skills-empty") None in
  if is_empty_list filterBtns || is_empty_list skillItems then ret tt
  else
    forEach filterBtns (fun btn =>
      addEventListener (Node btn) "click"
        (FilterClick btn filterBtns skillItems emptyState)) ;;;
    match filterGroup with
    | Some g => addEventListener (Node g) "keydown" (FilterKeydown filterBtns)
    | None => ret tt
    end.

End SkillFilter.

(** ** 4'. Skill filter (the second source file) *)

Module SkillFilterAlt.

Fixpoint filter_items (skillItems : list ref) (value : option string)
    (visible : nat) : M nat :=
  match skillItems with
  | [] => ret visible
  | item :: rest =>
      let* category := getAttribute item "data-category" in
      let match_ :=
        bool_decide (value = Some "all") || bool_decide (category = value) in
      if match_ then
        set_display item "" ;;;
        filter_items rest value (S visible)
      else
        set_display item "none" ;;;
        filter_items rest value visible
  end.

Definition applyFilter (skillItems : list ref) (emptyState : option ref)
    (value : option string) : M unit :=
  let* visible := filter_items skillItems value 0 in
  match emptyState with
  | Some e => set_flag e "hidden" (0 <? visible)%nat
  | None => ret tt
  end.

Definition setActive (filterBtns : list ref) (activeBtn : ref) : M unit :=
  forEach filterBtns (fun btn =>
    let active := bool_decide (btn = activeBtn) in
    setAttribute btn "aria-pressed" (if active then "true" else "false") ;;;
    if active then classList_add btn "filter-btn--active"
    else classList_remove btn "filter-btn--active").

Definition on_click (this : ref) (filterBtns skillItems : list ref)
    (emptyState : option ref) : M unit :=
  let* value := getAttribute this "data-filter" in
  setActive filterBtns this ;;;
  applyFilter skillItems emptyState value.

Definition initSkillFilter : M unit :=
  let* filterGroup := qs (sel_class "skills-filters") None in
  let* skillsList := qs (sel_id "skills-list") None in
  let* emptyState := qs (sel_id "skills-empty") None in
  match filterGroup, skillsList with
  | Some filterGroup, Some skillsList =>
      let* filterBtns := qsa [[SelAttr "data-filter"]] (Some filterGroup) in
      let* skillItems := qsa [[SelAttr "data-category"]] (Some skillsList) in
      if is_empty_list filterBtns || is_empty_list skillItems then ret tt
      else
        forEach filterBtns (fun btn =>
          addEventListener (Node btn) "click"
            (FilterClickAlt btn filterBtns skillItems emptyState))
  | _, _ => ret tt
  end.

End SkillFilterAlt.

(** ** 5. Experience accordion (the same in both source files) *)

Module Experience.

(** [details.open] *)
Definition is_open (n : ref) : M bool := get_flag n "open".

Definition on_toggle (details : ref) (detailsEls : list ref) : M unit :=
  let* o := is_open details in
  if o then
    forEach detailsEls (fun other =>
      let* oo := is_open other in
      if negb (bool_decide (other = details)) && oo
      then removeAttribute other "open"
      else ret tt)
  else ret tt.

Definition syncAria (summary details : ref) : M unit :=
  let* o := is_open details in
  setAttribute summary "aria-expanded" (string_of_bool o).

(** What the browser does when the summary of [details] is activated: the
    [open] flag flips. *)
Definition browser_toggle (details : ref) : M unit :=
  let* o := is_open details in
  set_flag details "open" (negb o).

(** The listeners of the [toggle] event of [details], in the order they
    were added. *)
Definition dispatch_toggle (details : ref) (detailsEls : list ref) : M unit :=
  on_toggle details detailsEls ;;;
  let* summary := qs [[SelTag "summary"]] (Some details) in
  match summary with
  | Some summary => syncAria summary details
  | None => ret tt
  end.

(** A user toggles [details]: the flag flips, its [toggle] event is
    dispatched, and then the [toggle] events of the entries the handler
    closed. *)
Definition user_toggle (details : ref) (detailsEls : list ref) : M unit :=
  browser_toggle details ;;;
  let* before := mapM is_open detailsEls in
  dispatch_toggle details detailsEls ;;;
  let* after := mapM is_open detailsEls in
  let closed :=
    (fun x => x.1.1) <$>
      List.filter (fun x => x.1.2 && negb x.2) (zip (zip detailsEls before) after) in
  forEach closed (fun other => dispatch_toggle other detailsEls).

(** [Space] on a summary: [preventDefault] and [summary.click()], which
    the browser answers by toggling the entry. *)
Definition on_summary_keydown (details : ref) (detailsEls : list ref)
    (key : string) : M unit :=
  if bool_decide (key = " ")
  then preventDefault ;;; user_toggle details detailsEls
  else ret tt.

Definition initExperience : M unit :=
  let* detailsEls := qsa (sel_class "experience-details") None in
  if is_empty_list detailsEls then ret tt
  else
    forEach detailsEls (fun details =>
      addEventListener (Node details) "toggle" (ExperienceToggle details detailsEls)) ;;;
    forEach detailsEls (fun details =>
      let* summary := qs [[SelTag "summary"]] (Some details) in
      match summary with
      | None => ret tt
      | Some summary =>
          addEventListener (Node summary) "keydown"
            (SummaryKeydown summary details detailsEls) ;;;
          addEventListener (Node details) "toggle" (SyncAria summary details) ;;;
          syncAria summary details
      end).

End Experience.

(** ** 1. Smooth scroll *)

Module SmoothScroll.

(** The chain from [r] up to the root: [r] first, then its ancestors. *)
Fixpoint ancestors_from (d : nat) (before : list (ref * nat)) : list ref :=
  match before with
  | [] => []
  | (n, d') :: r =>
      if (d' <? d)%nat then n :: ancestors_from d' r else ancestors_from d r
  end.

Fixpoint path_to (r : ref) (seen t : list (ref * nat)) : list ref :=
  match t with
  | [] => []
  | (n, d) :: rest =>
      if bool_decide (n = r) then n :: ancestors_from d seen
      else path_to r ((n, d) :: seen) rest
  end.

(** [el.closest(sel)] *)
Definition closest (sel : selector) (n : ref) : M (option ref) :=
  fun w => Ok (List.find (ref_matches sel (heap w)) (path_to n [] (tree w))) w.

(** [el.matches(sel)] *)
Definition matches (sel : selector) (n : ref) : M bool :=
  fun w => Ok (ref_matches sel (heap w) n) w.

Definition scrollIntoView (n : ref) : M unit :=
  fun w => Ok tt (set_scrollTarget (Some n) w).

Definition naturally_focusable : selector :=
  [[SelTag "a"]; [SelTag "button"]; [SelTag "input"]; [SelTag "textarea"];
   [SelTag "select"]; [SelAttr "tabindex"]].

Section Handler.

(** How the browser reads the text of a selector; [None] when the text is
    not a selector, which [querySelector] answers with a [SyntaxError]. *)
Variable parse_selector : string -> option selector.

Definition on_click (target : ref) : M unit :=
  let* link := closest [[SelTag "a"; SelAttrPrefix "href" "#"]] target in
  match link with
  | None => ret tt
  | Some link =>
      let* href := getAttribute link "href" in
      let targetId := default "" href in
      if bool_decide (targetId = "#") then ret tt
      else
        match parse_selector targetId with
        | None => throw SyntaxError
        | Some sel =>
            let* target := qs sel None in
            match target with
            | None => ret tt
            | Some target =>
                preventDefault ;;;
                scrollIntoView target ;;;
                let* focusable := matches naturally_focusable target in
                if negb focusable then
                  setAttribute target "tabindex" "-1" ;;;
                  focus target ;;;
                  addEventListener (Node target) "blur" (RemoveTabindexOnce target)
                else ret tt
            end
        end
  end.

End Handler.

(** The [blur] listener of a scroll target.  It is added with [once]: the
    browser takes it off the target when it runs. *)
Definition is_blur_once (target : ref) (l : listener) : bool :=
  match l with
  | Listener (Node n) ev (RemoveTabindexOnce t) =>
      bool_decide (n = target) && bool_decide (ev = "blur") && bool_decide (t = target)
  | _ => false
  end.

Fixpoint remove_once (target : ref) (ls : list listener) : list listener :=
  match ls with
  | [] => []
  | l :: r => if is_blur_once target l then r else l :: remove_once target r
  end.

Definition on_target_blur (target : ref) : M unit :=
  (fun w => Ok tt (set_listeners (remove_once target) w)) ;;;
  removeAttribute target "tabindex".

Definition initSmoothScroll : M unit :=
  addEventListener Document "click" SmoothScrollClick.

End SmoothScroll.

(** ** Timers

    [setTimeout] and [clearTimeout] with the ids they exchange.  The table
    holds the timers of one closure; [A] is what a timer carries to its
    callback. *)

Module Timers.

Section Table.

Context {A : Type}.

Record timer := Timer {
  t_id : nat;
  t_due : N;
  t_callback : A;
}.

Record table := Table {
  clock : N;
  next_id : nat;
  pending : list timer;
}.

Definition setTimeout (callback : A) (delay : N) (t : table) : nat * table :=
  (next_id t,
   Table (clock t) (S (next_id t))
         (pending t ++ [Timer (next_id t) (clock t + delay) callback])).

(** [clearTimeout(id)]: an id that is [undefined], [null] or not pending
    clears nothing. *)
Definition clearTimeout (id : option nat) (t : table) : table :=
  match id with
  | None => t
  | Some i =>
      Table (clock t) (next_id t)
            (List.filter (fun x => negb (bool_decide (t_id x = i))) (pending t))
  end.

(** Timers fire in the order of their due times, the older one first among
    equals. *)
Fixpoint insert_due (x : timer) (l : list timer) : list timer :=
  match l with
  | [] => [x]
  | y :: r => if (t_due x <=? t_due y)%N then x :: l else y :: insert_due x r
  end.

Definition firing_order (l : list timer) : list timer := foldr insert_due [] l.

Definition is_due (now : N) (x : timer) : bool := (t_due x <=? now)%N.

(** Time passes until [t]: the timers that are due leave the table, and
    their callbacks are handed over in firing order. *)
Definition advance (t : N) (tb : table) : list A * table :=
  let now := N.max (clock tb) t in
  (t_callback <$> firing_order (List.filter (is_due now) (pending tb)),
   Table now (next_id tb) (List.filter (fun x => negb (is_due now x)) (pending tb))).

End Table.

Arguments timer : clear implicits.
Arguments table : clear implicits.

End Timers.

(** ** The debounce utility *)

Module Debounce.

Section Debounced.

Context {A S : Type}.

(** [fn.apply(this, args)] as a change of the page, and the delay. *)
Variable fn : A -> S -> S.
Variable wait : N.

(** The variable [timer] of the closure, the timers it has set, and the
    page. *)
Record state := State {
  timer : option nat;
  timers : Timers.table A;
  page : S;
}.

(** The function [debounce] returns. *)
Definition debounced (args : A) (st : state) : state :=
  let tb := Timers.clearTimeout (timer st) (timers st) in
  let '(id, tb) := Timers.setTimeout args wait tb in
  State (Some id) tb (page st).

(** Time passes until [t]; the timers that fire call [fn]. *)
Definition elapse (t : N) (st : state) : state :=
  let '(fired, tb) := Timers.advance t (timers st) in
  State (timer st) tb (fold_left (fun s args => fn args s) fired (page st)).

(** Calls of the returned function, each at its time and each in a task of
    its own, as the calls from an event listener are: the timers that are
    due when a call comes fire before it.  (Two calls within one task, with
    no room for a timer between them, are [debounced] twice in a row.) *)
Definition run (calls : list (N * A)) (st : state) : state :=
  fold_left (fun st c => debounced c.2 (elapse c.1 st)) calls st.

End Debounced.

Arguments state : clear implicits.

End Debounce.

(** ** 6'. Copy email (the second source file) *)

Module CopyEmail.

(** The closure of the module: the page, the variable [resetTimer] and the
    timers it has set. *)
Record state := State {
  page : world;
  resetTimer : option nat;
  timers : Timers.table unit;
}.

(** A stretch of DOM calls on the page of the closure; the calls made here
    (on a class list and on [hidden]) cannot throw. *)
Definition on_page (m : M unit) (st : state) : state :=
  match m (page st) with
  | Ok _ w | Throw _ w => State w (resetTimer st) (timers st)
  end.

(** The callback of the reset timer. *)
Definition reset (btn confirm : ref) : M unit :=
  classList_remove btn "is-copied" ;;;
  set_flag confirm "hidden" true.

Definition showConfirm (btn confirm : ref) (st : state) : state :=
  let st :=
    on_page (classList_add btn "is-copied" ;;; set_flag confirm "hidden" false) st in
  let tb := Timers.clearTimeout (resetTimer st) (timers st) in
  let '(id, tb) := Timers.setTimeout tt 2000 tb in
  State (page st) (Some id) tb.

(** Time passes until [t]; the reset timers that fire run [reset]. *)
Definition elapse (btn confirm : ref) (t : N) (st : state) : state :=
  let '(fired, tb) := Timers.advance t (timers st) in
  fold_left (fun st _ => on_page (reset btn confirm) st) fired
            (State (page st) (resetTimer st) tb).

(** The listeners of the module; the clipboard is outside this model. *)
Definition initCopyEmail : M unit :=
  let* btn := qs (sel_id "copy-email-btn") None in
  let* confirm := qs (sel_id "copy-confirm") None in
  match btn, confirm with
  | Some btn, Some confirm =>
      addEventListener (Node btn) "click" (CopyClick btn confirm) ;;;
      addEventListener (Node btn) "keydown" (CopyKeydown btn confirm)
  | _, _ => ret tt
  end.

End CopyEmail.

(** ** INIT: the [DOMContentLoaded] listener of each source file *)

Definition init_script : M unit :=
  SmoothScroll.initSmoothScroll ;;;
  NavHighlight.initNavHighlight ;;;
  MobileNav.initMobileNav ;;;
  SkillFilter.initSkillFilter ;;;
  Experience.initExperience ;;;
  ContactForm.initContactForm.

Definition init_alt : M unit :=
  SmoothScroll.initSmoothScroll ;;;
  NavHighlight.initNavHighlight ;;;
  MobileNav.initMobileNav ;;;
  SkillFilterAlt.initSkillFilter ;;;
  Experience.initExperience ;;;
  CopyEmail.initCopyEmail.

(** ** A sample page

    The markup the script is written against, as far as the script looks at
    it; the concrete instances below run on it. *)

Module Sample.

Definition mk (tag : string) (attributes : list (string * string))
    (classes : list string) : element :=
  Element tag (list_to_map attributes) (list_to_set classes) "" [] "" 0.

Definition page_of (nodes : list (ref * nat * element)) : world :=
  World (list_to_map ((fun x => (x.1.1, x.2)) <$> nodes))
        ((fun x => x.1) <$> nodes) None [] [] [] false None.

Definition input_with (v : jsstring) (e : element) : element := with_value v e.

(** The contact section of the page, with the three values typed in. *)
Definition contact_nodes (name email message : jsstring) : list (ref * nat * element) :=
  [ (0, 0, mk "body" [] []);
    (1, 1, mk "form" [("id", "contact-form")] []);
    (2, 2, mk "div" [("id", "group-name")] ["form-group"]);
    (3, 3, input_with name (mk "input" [("id", "field-name")] []));
    (4, 3, mk "span" [("id", "error-name")] ["form-error"]);
    (5, 2, mk "div" [("id", "group-email")] ["form-group"]);
    (6, 3, input_with email (mk "input" [("id", "field-email")] []));
    (7, 3, mk "span" [("id", "error-email")] ["form-error"]);
    (8, 2, mk "div" [("id", "group-message")] ["form-group"]);
    (9, 3, input_with message (mk "textarea" [("id", "field-message")] []));
    (10, 3, mk "span" [("id", "error-message")] ["form-error"]);
    (11, 2, mk "div" [] ["form-actions"]);
    (12, 3, mk "button" [("id", "submit-btn")] []);
    (13, 2, mk "div" [("id", "form-success"); ("hidden", ""); ("tabindex", "-1")] []) ]%nat.

Definition contact_page (name email message : jsstring) : world :=
  page_of (contact_nodes name email message).

(** The header with the navigation, and two sections. *)
Definition nav_nodes : list (ref * nat * element) :=
  [ (20, 1, mk "header" [] ["site-header"]);
    (21, 2, mk "button" [("aria-expanded", "false")] ["nav-toggle"]);
    (22, 2, mk "nav" [("id", "primary-nav")] []);
    (23, 3, mk "a" [("href", "#about"); ("data-section", "about")] ["nav-link"]);
    (24, 3, mk "a" [("href", "#skills"); ("data-section", "skills")] ["nav-link"]);
    (25, 1, mk "section" [("id", "about")] []);
    (26, 1, mk "section" [("id", "skills")] []) ]%nat.

(** The skills list with its filter buttons; no item is in category "ops". *)
Definition skills_nodes : list (ref * nat * element) :=
  [ (30, 2, mk "div" [] ["skills-filters"]);
    (31, 3, mk "button" [("data-filter", "all")] ["filter-btn"]);
    (32, 3, mk "button" [("data-filter", "design")] ["filter-btn"]);
    (33, 3, mk "button" [("data-filter", "ops")] ["filter-btn"]);
    (34, 2, mk "ul" [("id", "skills-list")] []);
    (35, 3, mk "li" [("data-category", "design")] ["skill-item"]);
    (36, 3, mk "li" [("data-category", "code")] ["skill-item"]);
    (37, 3, mk "li" [("data-category", "design")] ["skill-item"]);
    (38, 2, mk "p" [("id", "skills-empty"); ("hidden", "")] []) ]%nat.

(** Three experience entries, the first one open. *)
Definition experience_nodes : list (ref * nat * element) :=
  [ (40, 1, mk "section" [("id", "experience")] []);
    (41, 2, mk "details" [("open", "")] ["experience-details"]);
    (42, 3, mk "summary" [] []);
    (43, 3, mk "div" [] ["experience-body"]);
    (44, 2, mk "details" [] ["experience-details"]);
    (45, 3, mk "summary" [] []);
    (46, 3, mk "div" [] ["experience-body"]);
    (47, 2, mk "details" [] ["experience-details"]);
    (48, 3, mk "summary" [] []);
    (49, 3, mk "div" [] ["experience-body"]) ]%nat.

Definition body_node : ref * nat * element := (0, 0, mk "body" [] [])%nat.

Definition nav_page : world := page_of (body_node :: nav_nodes).
Definition skills_page : world := page_of (body_node :: skills_nodes).
Definition experience_page : world := page_of (body_node :: experience_nodes).

Definition skill_items : list ref := [35; 36; 37]%nat.
Definition skills_empty : ref := 38%nat.
Definition entries : list ref := [41; 44; 47]%nat.

(** The whole page. *)
Definition resume_page : world :=
  page_of (body_node :: nav_nodes ++ skills_nodes ++ experience_nodes
           ++ tail (contact_nodes [] [] [])).

(** A page with nothing on it. *)
Definition empty_page : world := page_of [body_node].

(** A page whose form has lost its three fields. *)
Definition bare_form : world :=
  page_of
    [ (0, 0, mk "body" [] []);
      (1, 1, mk "form" [("id", "contact-form")] []);
      (11, 2, mk "div" [] ["form-actions"]);
      (12, 3, mk "button" [("id", "submit-btn")] []);
      (13, 2, mk "div" [("id", "form-success"); ("hidden", ""); ("tabindex", "-1")] []) ]%nat.

(** A page whose form has no [.form-actions] element. *)
Definition form_without_actions : world :=
  page_of
    [ (0, 0, mk "body" [] []);
      (1, 1, mk "form" [("id", "contact-form")] []);
      (12, 2, mk "button" [("id", "submit-btn")] []);
      (13, 2, mk "div" [("id", "form-success"); ("hidden", ""); ("tabindex", "-1")] []) ]%nat.

Definition form_ref : ref := 1%nat.
Definition submit_ref : ref := 12%nat.
Definition success_ref : ref := 13%nat.

End Sample.

(** * Vocabulary of the statements *)

(** [hidden], [disabled] and [open] as observations. *)
Definition flag (w : world) (n : ref) (a : string) : bool :=
  bool_decide (is_Some (attr w n a)).

(** A function on elements that no match of the selector can see. *)
Definition stable (sel : selector) (f : element -> element) : Prop :=
  forall e, el_matches sel (f e) = el_matches sel e.

(** Whether a selector looks at an attribute, or at a class. *)
Definition simple_reads_attr (a : string) (s : simple_selector) : bool :=
  match s with
  | SelTag _ | SelClass _ => false
  | SelId _ => bool_decide (a = "id")
  | SelAttr b | SelAttrEq b _ | SelAttrPrefix b _ => bool_decide (a = b)
  end.

Definition reads_attr (a : string) (sel : selector) : bool :=
  existsb (existsb (simple_reads_attr a)) sel.

Definition simple_reads_class (c : string) (s : simple_selector) : bool :=
  match s with
  | SelClass d => bool_decide (c = d)
  | _ => false
  end.

Definition reads_class (c : string) (sel : selector) : bool :=
  existsb (existsb (simple_reads_class c)) sel.

(** The element found by an id, as [qs('#id')] finds it. *)
Definition by_id (w : world) (i : string) : option ref :=
  head (select (sel_id i) None w).

(** An element that holds no other element. *)
Definition leaf (w : world) (n : ref) : Prop :=
  descendants n (tree w) = [].

(** The three elements of a field are on the page, and the error element
    holds text only. *)
Record field_at (w : world) (config : field_config) (i e g : ref) : Prop := FieldAt {
  fa_el : by_id w (el config) = Some i;
  fa_errorEl : by_id w (errorEl config) = Some e;
  fa_groupEl : by_id w (groupEl config) = Some g;
  fa_leaf : leaf w e;
}.

(** What a field shows. *)
Definition in_error (w : world) (i e g : ref) (message : string) : Prop :=
  attr w i "aria-invalid" = Some "true" /\
  text_of w e = Some message /\
  has_class w g "form-group--error" = true.

Definition error_cleared (w : world) (i e g : ref) : Prop :=
  attr w i "aria-invalid" = None /\
  text_of w e = Some "" /\
  has_class w g "form-group--error" = false.

(** The world after [validateField] has shown or cleared the error of a field. *)
Definition marked (i e g : ref) (error : option string) (w : world) : world :=
  if truthy error then
    update g (with_classList (fun s => {["form-group--error"]} ∪ s))
      (update e (with_textContent (default "" error))
        (update i (with_attrs (insert "aria-invalid" "true")) w))
  else
    update g (with_classList (fun s => s ∖ {["form-group--error"]}))
      (update e (with_textContent "")
        (update i (with_attrs (delete "aria-invalid")) w)).

(** The references to the three elements of a field. *)
Record field_refs := FieldRefs {
  r_input : ref;
  r_error : ref;
  r_group : ref;
}.

Definition field_on (w : world) (config : field_config) (r : field_refs) : Prop :=
  field_at w config (r_input r) (r_error r) (r_group r).

Definition shows_error (w : world) (r : field_refs) (message : string) : Prop :=
  in_error w (r_input r) (r_error r) (r_group r) message.

Definition shows_no_error (w : world) (r : field_refs) : Prop :=
  error_cleared w (r_input r) (r_error r) (r_group r).

Definition mark (r : field_refs) (error : option string) (w : world) : world :=
  marked (r_input r) (r_error r) (r_group r) error w.

(** A field of the form: its three elements, or [None] when its input is
    not on the page. *)
Definition field_slot (w : world) (config : field_config) (r : option field_refs) : Prop :=
  match r with
  | Some r => field_on w config r
  | None => by_id w (el config) = None
  end.

Record form_slots (w : world) (name email message : option field_refs) : Prop := FormSlots {
  fs_name : field_slot w ContactForm.name_config name;
  fs_email : field_slot w ContactForm.email_config email;
  fs_message : field_slot w ContactForm.message_config message;
}.

(** The page has the three fields of the form. *)
Definition form_fields (w : world) (name email message : field_refs) : Prop :=
  form_slots w (Some name) (Some email) (Some message).

(** The verdict of a rule on what its field holds; a field that is not on
    the page has none. *)
Definition verdict (w : world) (config : field_config) (r : option field_refs) : option string :=
  match r with
  | Some r => validate config (value_of w (r_input r))
  | None => None
  end.

Definition name_error (w : world) (r : field_refs) : option string :=
  validate_name (value_of w (r_input r)).
Definition email_error (w : world) (r : field_refs) : option string :=
  validate_email (value_of w (r_input r)).
Definition message_error (w : world) (r : field_refs) : option string :=
  validate_message (value_of w (r_input r)).

Definition mark_slot (r : option field_refs) (error : option string) (w : world) : world :=
  match r with
  | Some r => mark r error w
  | None => w
  end.

(** The world after [validateAll], and its answer. *)
Definition validated_slots (name email message : option field_refs) (w : world) : world :=
  mark_slot message (verdict w ContactForm.message_config message)
    (mark_slot email (verdict w ContactForm.email_config email)
      (mark_slot name (verdict w ContactForm.name_config name) w)).

Definition all_valid_slots (w : world) (name email message : option field_refs) : bool :=
  is_null (verdict w ContactForm.name_config name)
  && is_null (verdict w ContactForm.email_config email)
  && is_null (verdict w ContactForm.message_config message).

Definition validated (name email message : field_refs) (w : world) : world :=
  mark message (message_error w message)
    (mark email (email_error w email)
      (mark name (name_error w name) w)).

Definition all_valid (w : world) (name email message : field_refs) : bool :=
  is_null (name_error w name) && is_null (email_error w email)
  && is_null (message_error w message).

(** A field shows the verdict of its rule. *)
Definition verdict_shown (w : world) (r : field_refs) (error : option string) : Prop :=
  match error with
  | Some message => shows_error w r message
  | None => shows_no_error w r
  end.

(** The fields of the sample page. *)
Definition sample_name : field_refs := FieldRefs 3 4 2.
Definition sample_email : field_refs := FieldRefs 6 7 5.
Definition sample_message : field_refs := FieldRefs 9 10 8.

(** The page around the submit handler: the three fields, the submit
    control of the form, the inputs inside the form in the order name,
    email, message, and no other element of the form flagged invalid. *)
Definition inputs (name email message : field_refs) : list ref :=
  [r_input name; r_input email; r_input message].

Record submit_page (w : world) (form submitBtn : ref)
    (name email message : field_refs) : Prop := SubmitPage {
  sp_fields : form_fields w name email message;
  sp_submit : head (select (sel_id "submit-btn") (Some form) w) = Some submitBtn;
  sp_inputs :
    List.filter (fun n => bool_decide (n ∈ inputs name email message))
                (descendants form (tree w)) = inputs name email message;
  sp_flags : forall n,
    n ∈ descendants form (tree w) -> attr w n "aria-invalid" = Some "true" ->
    n ∈ inputs name email message;
}.

(** The inputs whose rule fails, in document order. *)
Definition invalid_inputs (w : world) (name email message : field_refs) : list ref :=
  (if is_null (name_error w name) then [] else [r_input name]) ++
  (if is_null (email_error w email) then [] else [r_input email]) ++
  (if is_null (message_error w message) then [] else [r_input message]).

(** The submit control in its loading or idle state. *)
Definition loading (submitBtn : ref) (isLoading : bool) (w : world) : world :=
  update submitBtn
    (with_textContent (if isLoading then "Sending…" else "Send Message"))
    (update submitBtn
      (with_attrs (if isLoading then insert "disabled" "" else delete "disabled"))
      (update submitBtn
        (with_attrs (insert "data-loading" (string_of_bool isLoading))) w)).

Definition is_loading (w : world) (submitBtn : ref) : Prop :=
  attr w submitBtn "data-loading" = Some "true" /\
  flag w submitBtn "disabled" = true /\
  text_of w submitBtn = Some "Sending…".

Definition is_idle (w : world) (submitBtn : ref) : Prop :=
  attr w submitBtn "data-loading" = Some "false" /\
  flag w submitBtn "disabled" = false /\
  text_of w submitBtn = Some "Send Message".

(** Two worlds with the same document. *)
Definition same_document (w w' : world) : Prop :=
  heap w' = heap w /\ tree w' = tree w.

(** What [showSuccess] hides: [.form-group, .form-actions]. *)
Definition form_controls : selector :=
  [[SelClass "form-group"]; [SelClass "form-actions"]].

Definition hide_all (l : list ref) (w : world) : world :=
  fold_left (fun w c => update c (with_attrs (insert "hidden" "")) w) l w.

(** *** When the browser honours [focus()]

    [focus()] is a request: the browser moves the focus only to an element
    that is rendered and focusable.  As far as the markup decides it (the
    style sheet of the page is outside this model): the element is in the
    document, neither it nor an element around it is hidden, it is not
    disabled, and, for an element that is no link or form control, it
    carries a [tabindex] that is an integer. *)
Definition is_digit (c : Ascii.ascii) : bool :=
  (48 <=? Ascii.N_of_ascii c)%N && (Ascii.N_of_ascii c <=? 57)%N.

Fixpoint all_digits (s : string) : bool :=
  match s with
  | EmptyString => true
  | String c r => is_digit c && all_digits r
  end.

Definition digits (s : string) : bool :=
  negb (bool_decide (s = "")) && all_digits s.

(** An optional minus sign, then digits. *)
Definition is_integer (s : string) : bool :=
  match s with
  | String c r => if (Ascii.N_of_ascii c =? 45)%N then digits r else digits s
  | EmptyString => false
  end.

Definition has_tabindex (w : world) (n : ref) : Prop :=
  exists v, attr w n "tabindex" = Some v /\ is_integer v = true.

(** Neither the element nor an element around it is hidden. *)
Definition rendered (w : world) (n : ref) : Prop :=
  n ∈ (tree w).*1 /\
  flag w n "hidden" = false /\
  forall a, n ∈ descendants a (tree w) -> flag w a "hidden" = false.

Definition takes_focus (w : world) (n : ref) : Prop :=
  rendered w n /\ flag w n "disabled" = false /\ has_tabindex w n.

(** The page around a successful submission: the submit control holds text
    only, the groups of the three fields are controls of the form, the
    submit control sits inside one of the controls, and the success element
    is not one of them.  The success element is the one [#form-success]
    names; it carries a [tabindex] and is not disabled, and no element
    around it is hidden or is one of the controls that get hidden. *)
Record success_page (w : world) (form submitBtn successEl : ref)
    (name email message : field_refs) : Prop := SuccessPage {
  su_page : submit_page w form submitBtn name email message;
  su_leaf : leaf w submitBtn;
  su_groups :
    r_group name ∈ select form_controls (Some form) w /\
    r_group email ∈ select form_controls (Some form) w /\
    r_group message ∈ select form_controls (Some form) w;
  su_actions :
    exists c, c ∈ select form_controls (Some form) w /\
              submitBtn ∈ descendants c (tree w);
  su_success : successEl ∉ select form_controls (Some form) w;
  su_found : by_id w "form-success" = Some successEl;
  su_tabindex : has_tabindex w successEl;
  su_enabled : flag w successEl "disabled" = false;
  su_around : forall a,
    successEl ∈ descendants a (tree w) ->
    flag w a "hidden" = false /\ a ∉ select form_controls (Some form) w;
}.

(** The world when the handler suspends at its [await]. *)
Definition awaiting (submitBtn : ref) (name email message : field_refs) (w : world) : world :=
  set_timers (fun l => l ++ [1000%N])
    (loading submitBtn true
      (validated name email message (set_defaultPrevented true w))).

(** The world after [showSuccess]. *)
Definition succeeded (form successEl : ref) (w : world) : world :=
  set_activeElement (Some successEl)
    (update successEl (with_attrs (delete "hidden"))
      (hide_all (select form_controls (Some form) w) w)).

(** Every entry of a stretch of the tree lies deeper than [d]. *)
Definition all_deeper (d : nat) (l : list (ref * nat)) : Prop :=
  Forall (fun x => (d < x.2)%nat) l.

(** The top-level error element as [showSubmitError] builds it. *)
Definition new_error_element (message : string) : element :=
  with_textContent message
    (with_classList (fun s => {["form-error"]} ∪ s)
      (with_attrs (insert "aria-live" "assertive")
        (with_attrs (insert "role" "alert")
          (with_attrs (insert "id" "submit-error") (empty_element "p"))))).

(** The world after the element [n] was created and placed after [actions]. *)
Definition error_created (actions n : ref) (message : string) (w : world) : world :=
  set_tree (insert_after actions n)
    (set_heap (insert n (new_error_element message)) w).

(** The page around a failed send: every element sits at one place of the
    tree, the form has its [.form-actions] element, the submit control
    holds text only, and no error element is there yet. *)
Record failure_page (w : world) (form submitBtn : ref) : Prop := FailurePage {
  fp_nodup : NoDup (tree w).*1;
  fp_heap : forall n, n ∈ (tree w).*1 -> is_Some (heap w !! n);
  fp_actions : select (sel_class "form-actions") (Some form) w <> [];
  fp_leaf : leaf w submitBtn;
  fp_btn : is_Some (heap w !! submitBtn);
  fp_first : select (sel_id "submit-error") (Some form) w = [];
}.

(** ** Skill filter *)

(** An item matches the selected category. *)
Definition matches_filter (w : world) (filter : option string) (item : ref) : bool :=
  bool_decide (filter = Some "all")
  || bool_decide (attr w item "data-category" = filter).

(** One turn of the loop of [applyFilter], in each source file. *)
Definition filter_step (filter : option string) (w : world) (item : ref) : world :=
  if matches_filter w filter item
  then update item (with_attrs (delete "data-hidden")) w
  else update item (with_attrs (insert "data-hidden" "true")) w.

Definition filter_step_alt (filter : option string) (w : world) (item : ref) : world :=
  if matches_filter w filter item
  then update item (with_display "") w
  else update item (with_display "none") w.

Definition filtered (items : list ref) (filter : option string) (w : world) : world :=
  fold_left (filter_step filter) items w.

Definition filtered_alt (items : list ref) (filter : option string) (w : world) : world :=
  fold_left (filter_step_alt filter) items w.

(** The script hides an item with the [data-hidden] attribute, the second
    file with [display: none]. *)
Definition item_hidden (w : world) (item : ref) : bool := flag w item "data-hidden".

Definition item_hidden_alt (w : world) (item : ref) : Prop :=
  display_of w item = Some "none".

Definition item_shown_alt (w : world) (item : ref) : Prop :=
  display_of w item = Some "".

(** ** Experience accordion *)

Definition at_most_one_open (detailsEls : list ref) (w : world) : Prop :=
  forall a b, a ∈ detailsEls -> b ∈ detailsEls ->
    flag w a "open" = true -> flag w b "open" = true -> a = b.

(** [details] is open and every other entry is closed. *)
Definition only_open (detailsEls : list ref) (details : ref) (w : world) : Prop :=
  flag w details "open" = true /\
  forall other, other ∈ detailsEls -> other <> details -> flag w other "open" = false.

(** Two worlds with the same entries open. *)
Definition same_open (w w' : world) : Prop :=
  forall n, flag w' n "open" = flag w n "open".

(** ** Nav highlight *)

(** The ratio map after the entries of a callback are recorded. *)
Definition recorded (w : world) (entries : list (ref * Q))
    (m : NavHighlight.ratio_map) : NavHighlight.ratio_map :=
  fold_left (fun m e => NavHighlight.map_set (default "" (attr w e.1 "id")) e.2 m)
            entries m.

(** Two different sections report the same non-zero ratio, and no section
    reports more. *)
Definition tied_at_top (m : NavHighlight.ratio_map) : Prop :=
  exists a b ra rb,
    a <> b /\ (a, ra) ∈ m /\ (b, rb) ∈ m /\
    (ra == rb)%Q /\ (0 < ra)%Q /\ forall x, x ∈ m -> (x.2 <= ra)%Q.

(** One section reports strictly more than every other one. *)
Definition strict_top (m : NavHighlight.ratio_map) : Prop :=
  exists k r, (k, r) ∈ m /\ forall x, x ∈ m -> x.1 <> k -> (x.2 < r)%Q.

(** The tie-break as the specification words it: on a tie at the top the
    active section stays, and it only ever changes for a strict top. *)
Definition tie_keeps_previous : Prop :=
  forall navLinks entries c w c' w',
    NavHighlight.observer_callback navLinks entries c w = Ok c' w' ->
    (tied_at_top (NavHighlight.ratioMap c') ->
     NavHighlight.activeId c' = NavHighlight.activeId c) /\
    (NavHighlight.activeId c' <> NavHighlight.activeId c ->
     strict_top (NavHighlight.ratioMap c')).

(** [k] is the first section, in the order of the map, that reports the
    highest ratio [r]. *)
Definition first_top (m : NavHighlight.ratio_map) (k : string) (r : Q) : Prop :=
  exists l1 l2,
    m = l1 ++ (k, r) :: l2 /\
    (forall x, x ∈ l1 -> (x.2 < r)%Q) /\
    (forall x, x ∈ l2 -> (x.2 <= r)%Q).

(** ** Initialisation *)

Definition add_listeners (l : list listener) (w : world) : world :=
  set_listeners (fun ls => ls ++ l) w.

(** The listeners a computation adds when it runs on [w]. *)
Definition wired {A} (m : M A) (w : world) : list listener :=
  match m w with
  | Ok _ w' => drop (length (listeners w)) (listeners w')
  | Throw _ _ => []
  end.

(** Queries that do not look at [aria-expanded] answer the same in both
    worlds. *)
Definition same_queries (w w' : world) : Prop :=
  forall sel root,
    reads_attr "aria-expanded" sel = false ->
    select sel root w' = select sel root w.

(** [m] never throws, adds the listeners [L w] and nothing else to the
    listeners, leaves the queries of the other modules alone, and [L]
    depends on the queries only. *)
Definition wires {A} (m : M A) (L : world -> list listener) : Prop :=
  (forall w w', same_queries w w' -> L w' = L w) /\
  forall w, exists a w',
    m w = Ok a w' /\ listeners w' = listeners w ++ L w /\ same_queries w w'.

Definition well_behaved {A} (m : M A) : Prop := exists L, wires m L.

(** The six modules of script.js. *)
Inductive module :=
| Mod_smooth_scroll
| Mod_nav_highlight
| Mod_mobile_nav
| Mod_skill_filter
| Mod_experience
| Mod_contact_form.

Definition init_of (m : module) : M unit :=
  match m with
  | Mod_smooth_scroll => SmoothScroll.initSmoothScroll
  | Mod_nav_highlight => NavHighlight.initNavHighlight ;;; ret tt
  | Mod_mobile_nav => MobileNav.initMobileNav
  | Mod_skill_filter => SkillFilter.initSkillFilter
  | Mod_experience => Experience.initExperience
  | Mod_contact_form => ContactForm.initContactForm
  end.

Definition internal_link : selector := [[SelTag "a"; SelAttrPrefix "href" "#"]].

(** The page has the elements a module works on: for the five guarded
    modules what their guard asks for, for smooth scroll an in-page link. *)
Definition elements_present (m : module) (w : world) : bool :=
  match m with
  | Mod_smooth_scroll => negb (is_empty_list (select internal_link None w))
  | Mod_nav_highlight =>
      negb (is_empty_list
              (select [[SelClass "nav-link"; SelAttr "data-section"]] None w))
      && negb (is_empty_list (select [[SelTag "section"; SelAttr "id"]] None w))
  | Mod_mobile_nav =>
      negb (is_empty_list (select (sel_class "nav-toggle") None w))
      && negb (is_empty_list (select (sel_id "primary-nav") None w))
  | Mod_skill_filter =>
      negb (is_empty_list
              (select (sel_class "filter-btn")
                 (head (select (sel_class "skills-filters") None w)) w))
      && negb (is_empty_list (select (sel_class "skill-item") None w))
  | Mod_experience =>
      negb (is_empty_list (select (sel_class "experience-details") None w))
  | Mod_contact_form =>
      negb (is_empty_list (select (sel_id "contact-form") None w))
      && negb (is_empty_list
                 (select (sel_id "submit-btn")
                    (head (select (sel_id "contact-form") None w)) w))
      && negb (is_empty_list (select (sel_id "form-success") None w))
  end.

(** The sentence of the specification: every module returns without any
    effect when its elements are not on the page. *)
Definition no_op_without_elements : Prop :=
  forall m w, elements_present m w = false -> init_of m w = Ok tt w.

(** The elements the two other modules of the second source file ask for. *)
Definition alt_filter_present (w : world) : bool :=
  match head (select (sel_class "skills-filters") None w),
        head (select (sel_id "skills-list") None w) with
  | Some g, Some l =>
      negb (is_empty_list (select [[SelAttr "data-filter"]] (Some g) w))
      && negb (is_empty_list (select [[SelAttr "data-category"]] (Some l) w))
  | _, _ => false
  end.

Definition copy_email_present (w : world) : bool :=
  negb (is_empty_list (select (sel_id "copy-email-btn") None w))
  && negb (is_empty_list (select (sel_id "copy-confirm") None w)).

(** * Further vocabulary: the handlers of the modules *)

(** ** Mobile nav *)

(** The events the listeners of the module answer. *)
Inductive nav_event :=
| ToggleClicked
| LinkClicked
| ClickedAt (target : ref)
| KeyPressed (key : string).

Definition nav_handle (toggle nav : ref) (ev : nav_event) : M unit :=
  match ev with
  | ToggleClicked => MobileNav.on_toggle_click toggle nav
  | LinkClicked => MobileNav.closeNav toggle nav
  | ClickedAt target => MobileNav.on_outside_click toggle nav target
  | KeyPressed key => MobileNav.on_keydown toggle nav key
  end.

Definition nav_open (w : world) (nav : ref) : bool := has_class w nav "is-open".

(** What the toggle button announces. *)
Definition toggle_says (w : world) (toggle : ref) (o : bool) : Prop :=
  attr w toggle "aria-expanded" = Some (string_of_bool o) /\
  attr w toggle "aria-label"
    = Some (if o then "Close navigation menu" else "Open navigation menu").

Definition nav_synced (toggle nav : ref) (w : world) : Prop :=
  toggle_says w toggle (nav_open w nav).

(** [target] lies inside [a]: it is [a] or one of its descendants. *)
Definition inside (w : world) (a target : ref) : bool :=
  bool_decide (a = target) || bool_decide (target ∈ descendants a (tree w)).

(** The worlds after [openNav] and [closeNav]. *)
Definition nav_set (toggle nav : ref) (o : bool) (w : world) : world :=
  update toggle
    (with_attrs (insert "aria-label"
       (if o then "Close navigation menu" else "Open navigation menu")))
    (update toggle (with_attrs (insert "aria-expanded" (string_of_bool o)))
      (update nav
         (with_classList (if o then (fun s => {["is-open"]} ∪ s)
                          else (fun s => s ∖ {["is-open"]}))) w)).

(** ** Skill filter: the pressed button *)

Definition btn_pressed (w : world) (b : ref) : Prop :=
  attr w b "aria-pressed" = Some "true" /\
  has_class w b "filter-btn--active" = true.

Definition btn_released (w : world) (b : ref) : Prop :=
  attr w b "aria-pressed" = Some "false" /\
  has_class w b "filter-btn--active" = false.

(** One turn of the loop of [setActiveBtn] (and of [setActive] in the second
    file). *)
Definition press_step (activeBtn : ref) (w : world) (btn : ref) : world :=
  update btn
    (with_classList (if bool_decide (btn = activeBtn)
                     then (fun s => {["filter-btn--active"]} ∪ s)
                     else (fun s => s ∖ {["filter-btn--active"]})))
    (update btn
       (with_attrs (insert "aria-pressed"
                      (string_of_bool (bool_decide (btn = activeBtn))))) w).

Definition pressed (filterBtns : list ref) (activeBtn : ref) (w : world) : world :=
  fold_left (press_step activeBtn) filterBtns w.

(** The reflected flag as an update of the attributes. *)
Definition reflect_flag (a : string) (b : bool) : gmap string string -> gmap string string :=
  if b then insert a "" else delete a.

(** ** Skill filter: the keyboard *)

(** The focus is on one of the buttons of the group. *)
Definition focus_in (l : list ref) (w : world) : Prop :=
  exists b, activeElement w = Some b /\ b ∈ l.

(** The keys the [keydown] listener of the filter group answers. *)
Definition navigation_keys : list string :=
  ["ArrowRight"; "ArrowDown"; "ArrowLeft"; "ArrowUp"; "Home"; "End"].

(** Where the focus is after a key, [None] when the listener throws. *)
Definition focus_after (filterBtns : list ref) (key : string) (w : world) : option ref :=
  match SkillFilter.on_keydown filterBtns key w with
  | Ok _ w' => activeElement w'
  | Throw _ _ => None
  end.

(** The index a key moves the focus to, from the button at [idx] of [len]. *)
Definition key_index (key : string) (idx len : nat) : option nat :=
  if bool_decide (key = "ArrowRight") || bool_decide (key = "ArrowDown")
  then Some ((idx + 1) mod len)
  else if bool_decide (key = "ArrowLeft") || bool_decide (key = "ArrowUp")
  then Some ((idx + len - 1) mod len)
  else if bool_decide (key = "Home") then Some 0
  else if bool_decide (key = "End") then Some (len - 1)
  else None.

Definition focused (b : ref) (w : world) : world :=
  set_activeElement (Some b) (set_defaultPrevented true w).

(** ** Nav highlight: what the links show *)

(** A link is marked as the current one, or as not current. *)
Definition link_marks (w : world) (link : ref) (active : bool) : Prop :=
  has_class w link "is-active" = active /\
  attr w link "aria-current" = Some (string_of_bool active).

(** Exactly the links of section [id] are marked. *)
Definition highlights (navLinks : list ref) (w : world) (id : string) : Prop :=
  forall link, link ∈ navLinks ->
    link_marks w link (bool_decide (attr w link "data-section" = Some id)).

(** One turn of the loop of [setActive]. *)
Definition highlight_step (id : string) (w : world) (link : ref) : world :=
  let isActive := bool_decide (attr w link "data-section" = Some id) in
  update link
    (with_attrs (insert "aria-current" (if isActive then "true" else "false")))
    (update link
       (with_classList (if isActive then (fun s => {["is-active"]} ∪ s)
                        else (fun s => s ∖ {["is-active"]}))) w).

Definition highlighted (navLinks : list ref) (id : string) (w : world) : world :=
  fold_left (highlight_step id) navLinks w.

(** [map.get(k)] *)
Fixpoint map_get (k : string) (m : NavHighlight.ratio_map) : option Q :=
  match m with
  | [] => None
  | (k', v) :: r => if bool_decide (k' = k) then Some v else map_get k r
  end.

(** [el.id] as an observation. *)
Definition id_of (w : world) (n : ref) : string := default "" (attr w n "id").

(** The last ratio the entries of a callback report for section [k]. *)
Definition reported (w : world) (entries : list (ref * Q)) (k : string) : option Q :=
  snd <$> last (List.filter (fun e => bool_decide (id_of w e.1 = k)) entries).

Definition nav_links : selector := [[SelClass "nav-link"; SelAttr "data-section"]].
Definition page_sections : selector := [[SelTag "section"; SelAttr "id"]].

(** ** Experience accordion: the mirrored state *)

(** The summary of an entry, as [qs('summary', details)] finds it. *)
Definition summary_of (w : world) (details : ref) : option ref :=
  head (select [[SelTag "summary"]] (Some details) w).

(** [aria-expanded] of every summary says whether its entry is open. *)
Definition aria_synced (detailsEls : list ref) (w : world) : Prop :=
  forall details summary,
    details ∈ detailsEls -> summary_of w details = Some summary ->
    attr w summary "aria-expanded" = Some (string_of_bool (flag w details "open")).

(** No two entries share their summary. *)
Definition own_summaries (detailsEls : list ref) (w : world) : Prop :=
  forall a b summary,
    a ∈ detailsEls -> b ∈ detailsEls ->
    summary_of w a = Some summary -> summary_of w b = Some summary -> a = b.

(** [w'] differs from [w] at most in the [open] and [aria-expanded]
    attributes of its elements. *)
Definition accordion_frame (w w' : world) : Prop :=
  tree w' = tree w /\
  (forall n, is_Some (heap w' !! n) <-> is_Some (heap w !! n)) /\
  (forall n a, a <> "open" -> a <> "aria-expanded" -> attr w' n a = attr w n a) /\
  (forall n c, has_class w' n c = has_class w n c) /\
  (forall n, value_of w' n = value_of w n) /\
  (forall sel root,
     reads_attr "open" sel = false -> reads_attr "aria-expanded" sel = false ->
     select sel root w' = select sel root w).

(** ** Smooth scroll *)

(** The in-page link a click lands in, as [closest] finds it. *)
Definition clicked_link (w : world) (target : ref) : option ref :=
  List.find (ref_matches internal_link (heap w))
            (SmoothScroll.path_to target [] (tree w)).

(** The world after the handler has scrolled to [dest]. *)
Definition scrolled (dest : ref) (w : world) : world :=
  set_scrollTarget (Some dest) (set_defaultPrevented true w).

Definition blur_once (dest : ref) : listener :=
  Listener (Node dest) "blur" (RemoveTabindexOnce dest).

(** ** Debounce and the reset timer *)

(** Calls that follow one another, the first one not before [t], each less
    than [wait] after the one before. *)
Fixpoint burst {A} (wait t : N) (calls : list (N * A)) : Prop :=
  match calls with
  | [] => True
  | (t', _) :: rest => (t <= t')%N /\ (t' < t + wait)%N /\ burst wait t' rest
  end.

(** The closure right after a call at time [t] with [args]: one timer is
    pending, due [wait] later, and the page is [p]. *)
Definition armed {A S} (wait t : N) (args : A) (p : S)
    (st : Debounce.state A S) : Prop :=
  exists id n,
    st = Debounce.State (Some id)
           (Timers.Table t n [Timers.Timer id (t + wait)%N args]) p.

(** Times that do not go back. *)
Fixpoint ascending (t : N) (times : list N) : Prop :=
  match times with
  | [] => True
  | t' :: rest => (t <= t')%N /\ ascending t' rest
  end.

(** The debounced callback of the [resize] listener, as a change of the
    page. *)
Definition resize_callback (sections : list ref) (_ : unit) (w : world) : world :=
  match NavHighlight.on_resize sections w with
  | Ok _ w' | Throw _ w' => w'
  end.

(** The confirmation of a copy is on show, or taken back. *)
Definition confirm_shown (w : world) (btn confirm : ref) : Prop :=
  has_class w btn "is-copied" = true /\ flag w confirm "hidden" = false.

Definition confirm_hidden (w : world) (btn confirm : ref) : Prop :=
  has_class w btn "is-copied" = false /\ flag w confirm "hidden" = true.

(** Activations of the copy button, each at its time. *)
Definition activations (btn confirm : ref) (times : list N)
    (st : CopyEmail.state) : CopyEmail.state :=
  fold_left (fun st t => CopyEmail.showConfirm btn confirm
                           (CopyEmail.elapse btn confirm t st)) times st.

(** The page after [showConfirm] has shown the confirmation, and after the
    reset timer has taken it back. *)
Definition confirm_on (btn confirm : ref) (w : world) : world :=
  update confirm (with_attrs (delete "hidden"))
    (update btn (with_classList (fun s => {["is-copied"]} ∪ s)) w).

Definition confirm_off (btn confirm : ref) (w : world) : world :=
  update confirm (with_attrs (insert "hidden" ""))
    (update btn (with_classList (fun s => s ∖ {["is-copied"]})) w).

(** The closure right after an activation at time [t]: the confirmation is
    on show and one reset timer is pending, due two seconds later. *)
Definition confirming (btn confirm : ref) (t : N) (st : CopyEmail.state) : Prop :=
  exists id n w,
    st = CopyEmail.State w (Some id)
           (Timers.Table t n [Timers.Timer id (t + 2000)%N tt]) /\
    confirm_shown w btn confirm /\
    is_Some (heap w !! btn) /\ is_Some (heap w !! confirm).

(** ** The rules of the contact form *)

(** A string of white space only. *)
Definition blank (s : jsstring) : bool := forallb JsString.isWhiteSpace s.

(** [local@domain.tld]: three non-empty stretches without white space
    and without [@], an [@] after the first and a dot after the second. *)
Definition address_shaped (s : jsstring) : Prop :=
  exists a b c,
    s = a ++ 0x40%N :: b ++ 0x2E%N :: c /\
    a <> [] /\ b <> [] /\ c <> [] /\
    forallb Regex.notSpaceAt a = true /\
    forallb Regex.notSpaceAt b = true /\
    forallb Regex.notSpaceAt c = true.

(** How often a code unit occurs. *)
Definition occurrences (x : N) (s : jsstring) : nat :=
  length (List.filter (fun c => (c =? x)%N) s).

(** ** What no handler does *)

(** The world a computation ends in, with or without an exception. *)
Definition world_of {A} (r : result A) : world :=
  match r with
  | Ok _ w | Throw _ w => w
  end.

(** [m] leaves the value of every form control as it is. *)
Definition keeps_values {A} (m : M A) : Prop :=
  forall w n, value_of (world_of (m w)) n = value_of w n.

(** [m] runs to its end on every page. *)
Definition never_throws {A} (m : M A) : Prop :=
  forall w, exists a w', m w = Ok a w'.

(** The world after [showSubmitError] has built its element: [n] is new
    and is nowhere in the document. *)
Definition error_element_built (n : ref) (w : world) : world :=
  update n (with_classList (fun s => {["form-error"]} ∪ s))
    (update n (with_attrs (insert "aria-live" "assertive"))
      (update n (with_attrs (insert "role" "alert"))
        (update n (with_attrs (insert "id" "submit-error"))
          (set_heap (insert n (empty_element "p")) w)))).

(** ** Sample pages for the second source file and for in-page links *)

(** A page with the copy button and its confirmation. *)
Definition copy_page : world :=
  Sample.page_of
    [ Sample.body_node;
      (50, 1, Sample.mk "button"
                [("id", "copy-email-btn"); ("data-email", "sam@example.com")] []);
      (51, 1, Sample.mk "span" [("id", "copy-confirm"); ("hidden", "")] []) ]%nat.

(** How the browser reads the [href] of an in-page link, for the texts
    ["#name"] with [name] an identifier: a letter, [_] or a character beyond
    ASCII, or one hyphen before one of these, or two hyphens, and then
    letters, digits, [_], [-] and characters beyond ASCII.  Such a text is
    the selector of the id [name].  A text ["#..."] that goes on otherwise
    (a digit first as in ["#1"], nothing at all, one hyphen and a digit) is
    not a selector.  Texts with an escape, with more than the id, or with a
    combinator are beyond this reader; no statement below asks it about
    one. *)
Definition starts_name (c : Ascii.ascii) : bool :=
  let k := Ascii.N_of_ascii c in
  ((65 <=? k) && (k <=? 90) || (97 <=? k) && (k <=? 122) || (k =? 95)
   || (128 <=? k))%N.

Definition in_name (c : Ascii.ascii) : bool :=
  starts_name c || is_digit c || (Ascii.N_of_ascii c =? 45)%N.

Fixpoint all_in_name (s : string) : bool :=
  match s with
  | EmptyString => true
  | String c r => in_name c && all_in_name r
  end.

Definition is_identifier (s : string) : bool :=
  match s with
  | EmptyString => false
  | String c r =>
      if (Ascii.N_of_ascii c =? 45)%N then
        match r with
        | EmptyString => false
        | String c' r' =>
            (starts_name c' || (Ascii.N_of_ascii c' =? 45)%N) && all_in_name r'
        end
      else starts_name c && all_in_name r
  end.

Definition sample_parse (href : string) : option selector :=
  match href with
  | String c name =>
      if (Ascii.N_of_ascii c =? 35)%N && is_identifier name
      then Some (sel_id name) else None
  | EmptyString => None
  end.

(** The sample accordion after the module has initialised it. *)
Definition initialised_experience_page : world :=
  world_of (Experience.initExperience Sample.experience_page).


(** * Properties *)

(** ** The monad *)

Lemma bind_Ok {A B} (m : M A) (k : A -> M B) w a w' :
  m w = Ok a w' -> bind m k w = k a w'.
Proof. intros H. unfold bind. by rewrite H. Qed.

Lemma bind_Throw {A B} (m : M A) (k : A -> M B) w e w' :
  m w = Throw e w' -> bind m k w = Throw e w'.
Proof. intros H. unfold bind. by rewrite H. Qed.

(** ** Queries and updates *)

Lemma ref_matches_alter sel f n h m :
  stable sel f -> ref_matches sel (alter f n h) m = ref_matches sel h m.
Proof.
  intros Hs. unfold ref_matches.
  destruct (decide (n = m)) as [->|Hne].
  - rewrite lookup_alter_eq. destruct (h !! m); simpl; [apply Hs | done].
  - by rewrite lookup_alter_ne.
Qed.

Lemma select_update sel root n f w :
  stable sel f -> select sel root (update n f w) = select sel root w.
Proof.
  intros Hs. unfold select, update. simpl.
  induction (scope root (tree w)) as [|x l IH]; [done|].
  simpl. rewrite ref_matches_alter by done. by rewrite IH.
Qed.

Lemma tree_update n f w : tree (update n f w) = tree w.
Proof. done. Qed.

Lemma heap_update n f w : heap (update n f w) = alter f n (heap w).
Proof. done. Qed.

Lemma select_in_heap sel root w n :
  n ∈ select sel root w -> exists e, heap w !! n = Some e /\ el_matches sel e = true.
Proof.
  unfold select. rewrite list_elem_of_In, filter_In. intros [_ H].
  unfold ref_matches in H. destruct (heap w !! n); [eauto | done].
Qed.

Lemma by_id_lookup w i n :
  by_id w i = Some n -> exists e, heap w !! n = Some e /\ attrs e !! "id" = Some i.
Proof.
  intros H. apply head_Some_elem_of in H.
  apply select_in_heap in H as (e & He & Hm). exists e. split; [done|].
  unfold sel_id, el_matches in Hm. simpl in Hm.
  rewrite orb_false_r, andb_true_r in Hm. by apply bool_decide_eq_true in Hm.
Qed.

Lemma by_id_inj w i j n m :
  by_id w i = Some n -> by_id w j = Some m -> i <> j -> n <> m.
Proof.
  intros Hi Hj Hne ->.
  apply by_id_lookup in Hi as (e & He & Hi).
  apply by_id_lookup in Hj as (e' & He' & Hj). congruence.
Qed.

(** *** Which updates a selector cannot see *)

Lemma stable_compound (sel : selector) f :
  (forall c s e, c ∈ sel -> s ∈ c -> simple_matches s (f e) = simple_matches s e) ->
  stable sel f.
Proof.
  intros H e. unfold el_matches.
  induction sel as [|c sel IH]; [done|]. simpl. f_equal.
  - assert (Hc : forall s, s ∈ c -> simple_matches s (f e) = simple_matches s e).
    { intros s Hs. apply (H c s e); [left | done]. }
    clear -Hc. induction c as [|s c IH]; [done|]. simpl.
    rewrite Hc by left. f_equal. apply IH. intros s' Hs'. apply Hc. by right.
  - apply IH. intros c' s e' Hc' Hs. apply (H c'); [by right | done].
Qed.

Lemma reads_attr_false a (sel : selector) c s :
  reads_attr a sel = false -> c ∈ sel -> s ∈ c -> simple_reads_attr a s = false.
Proof.
  unfold reads_attr. intros H Hc Hs.
  destruct (simple_reads_attr a s) eqn:E; [|done].
  assert (existsb (existsb (simple_reads_attr a)) sel = true); [|congruence].
  apply existsb_exists. exists c. split; [by apply list_elem_of_In|].
  apply existsb_exists. exists s. split; [by apply list_elem_of_In | done].
Qed.

Lemma reads_class_false k (sel : selector) c s :
  reads_class k sel = false -> c ∈ sel -> s ∈ c -> simple_reads_class k s = false.
Proof.
  unfold reads_class. intros H Hc Hs.
  destruct (simple_reads_class k s) eqn:E; [|done].
  assert (existsb (existsb (simple_reads_class k)) sel = true); [|congruence].
  apply existsb_exists. exists c. split; [by apply list_elem_of_In|].
  apply existsb_exists. exists s. split; [by apply list_elem_of_In | done].
Qed.

Lemma stable_attrs sel a (g : gmap string string -> gmap string string) :
  (forall m b, b <> a -> g m !! b = m !! b) ->
  reads_attr a sel = false -> stable sel (with_attrs g).
Proof.
  intros Hg Hr. apply stable_compound. intros c s e Hc Hs.
  pose proof (reads_attr_false _ _ _ _ Hr Hc Hs) as Hf.
  destruct s; simpl in *; try done;
    apply bool_decide_eq_false in Hf; rewrite Hg by congruence; done.
Qed.

Lemma stable_insert sel a v :
  reads_attr a sel = false -> stable sel (with_attrs (insert a v)).
Proof. apply stable_attrs. intros m b Hb. by rewrite lookup_insert_ne. Qed.

Lemma stable_delete sel a :
  reads_attr a sel = false -> stable sel (with_attrs (delete a)).
Proof. apply stable_attrs. intros m b Hb. by rewrite lookup_delete_ne. Qed.

Lemma stable_classes sel k (g : gset string -> gset string) :
  (forall s c, c <> k -> c ∈ g s <-> c ∈ s) ->
  reads_class k sel = false -> stable sel (with_classList g).
Proof.
  intros Hg Hr. apply stable_compound. intros c s e Hc Hs.
  pose proof (reads_class_false _ _ _ _ Hr Hc Hs) as Hf.
  destruct s; simpl in *; try done.
  apply bool_decide_eq_false in Hf. apply bool_decide_ext, Hg. congruence.
Qed.

Lemma stable_class_add sel k :
  reads_class k sel = false -> stable sel (with_classList (fun s => {[k]} ∪ s)).
Proof. apply stable_classes. intros s c Hc. set_solver. Qed.

Lemma stable_class_remove sel k :
  reads_class k sel = false -> stable sel (with_classList (fun s => s ∖ {[k]})).
Proof. apply stable_classes. intros s c Hc. set_solver. Qed.

Lemma stable_text sel s : stable sel (with_textContent s).
Proof. apply stable_compound. intros c x e _ _. by destruct x. Qed.

Lemma stable_display sel s : stable sel (with_display s).
Proof. apply stable_compound. intros c x e _ _. by destruct x. Qed.

Lemma stable_value sel s : stable sel (with_value s).
Proof. apply stable_compound. intros c x e _ _. by destruct x. Qed.

(** *** Observations after an update *)

Lemma attr_update_ne n f w m a : n <> m -> attr (update n f w) m a = attr w m a.
Proof. intros H. unfold attr, update. simpl. by rewrite lookup_alter_ne. Qed.

Lemma attr_update_keep n f w m a :
  (forall e, attrs (f e) !! a = attrs e !! a) ->
  attr (update n f w) m a = attr w m a.
Proof.
  intros H. destruct (decide (n = m)) as [->|]; [|by apply attr_update_ne].
  unfold attr, update. simpl. rewrite lookup_alter_eq.
  destruct (heap w !! m); simpl; [apply H | done].
Qed.

Lemma attr_update_insert n w a v :
  is_Some (heap w !! n) -> attr (update n (with_attrs (insert a v)) w) n a = Some v.
Proof.
  intros [e He]. unfold attr, update. simpl. rewrite lookup_alter_eq, He. simpl.
  apply lookup_insert_eq.
Qed.

Lemma attr_update_delete n w a : attr (update n (with_attrs (delete a)) w) n a = None.
Proof.
  unfold attr, update. simpl. rewrite lookup_alter_eq.
  destruct (heap w !! n); simpl; [apply lookup_delete_eq | done].
Qed.

Lemma attr_update_other n g w m (b : string) :
  (forall x : gmap string string, g x !! b = x !! b) ->
  attr (update n (with_attrs g) w) m b = attr w m b.
Proof. intros H. apply attr_update_keep. intros e. apply H. Qed.

Lemma has_class_update_ne n f w m c :
  n <> m -> has_class (update n f w) m c = has_class w m c.
Proof. intros H. unfold has_class, update. simpl. by rewrite lookup_alter_ne. Qed.

Lemma has_class_update_keep n f w m c :
  (forall e, classList (f e) = classList e) ->
  has_class (update n f w) m c = has_class w m c.
Proof.
  intros H. destruct (decide (n = m)) as [->|]; [|by apply has_class_update_ne].
  unfold has_class, update. simpl. rewrite lookup_alter_eq.
  destruct (heap w !! m); simpl; [by rewrite H | done].
Qed.

Lemma has_class_update_add n w c :
  is_Some (heap w !! n) ->
  has_class (update n (with_classList (fun s => {[c]} ∪ s)) w) n c = true.
Proof.
  intros [e He]. unfold has_class, update. simpl. rewrite lookup_alter_eq, He. simpl.
  apply bool_decide_eq_true. set_solver.
Qed.

Lemma has_class_update_remove n w c :
  has_class (update n (with_classList (fun s => s ∖ {[c]})) w) n c = false.
Proof.
  unfold has_class, update. simpl. rewrite lookup_alter_eq.
  destruct (heap w !! n); simpl; [|done].
  apply bool_decide_eq_false. set_solver.
Qed.

Lemma has_class_update_classes n (f : gset string -> gset string) w m c :
  m <> n \/ (forall s, c ∈ f s <-> c ∈ s) ->
  has_class (update n (with_classList f) w) m c = has_class w m c.
Proof.
  intros H. destruct (decide (n = m)) as [->|Hne]; [|by apply has_class_update_ne].
  destruct H as [H|H]; [done|].
  unfold has_class, update. simpl. rewrite lookup_alter_eq.
  destruct (heap w !! m); simpl; [|done]. by apply bool_decide_ext.
Qed.

Lemma text_update_ne n f w m : n <> m -> text_of (update n f w) m = text_of w m.
Proof. intros H. unfold text_of, update. simpl. by rewrite lookup_alter_ne. Qed.

Lemma text_update_keep n f w m :
  (forall e, textContent (f e) = textContent e) ->
  text_of (update n f w) m = text_of w m.
Proof.
  intros H. destruct (decide (n = m)) as [->|]; [|by apply text_update_ne].
  unfold text_of, update. simpl. rewrite lookup_alter_eq.
  destruct (heap w !! m); simpl; [by rewrite H | done].
Qed.

Lemma text_update_set n w s :
  is_Some (heap w !! n) -> text_of (update n (with_textContent s) w) n = Some s.
Proof.
  intros [e He]. unfold text_of, update. simpl. by rewrite lookup_alter_eq, He.
Qed.

Lemma value_update_keep n f w m :
  (forall e, value (f e) = value e) -> value_of (update n f w) m = value_of w m.
Proof.
  intros H. unfold value_of, update. simpl.
  destruct (decide (n = m)) as [->|]; [|by rewrite lookup_alter_ne].
  rewrite lookup_alter_eq. destruct (heap w !! m); simpl; [apply H | done].
Qed.

Lemma is_Some_heap_update n f w m :
  is_Some (heap (update n f w) !! m) <-> is_Some (heap w !! m).
Proof. apply lookup_alter_is_Some. Qed.

Lemma dom_heap_update n f w : dom (heap (update n f w)) = dom (heap w).
Proof. unfold update. simpl. apply dom_alter_L. Qed.

(** *** The tree *)

Lemma after_run_no_deeper d t : deeper_run d t = [] -> after_run d t = t.
Proof.
  destruct t as [|[n d'] r]; [done|]. simpl.
  by destruct (d <? d')%nat.
Qed.

Lemma remove_descendants_leaf n t :
  descendants n t = [] -> remove_descendants n t = t.
Proof.
  induction t as [|[m d] r IH]; [done|]. simpl.
  case_bool_decide as Hn.
  - intros Hd. apply fmap_nil_inv in Hd. by rewrite after_run_no_deeper.
  - intros Hd. by rewrite IH.
Qed.

Lemma set_tree_id f w : f (tree w) = tree w -> set_tree f w = w.
Proof. destruct w. unfold set_tree. simpl. by intros ->. Qed.

Lemma set_textContent_leaf n s w :
  leaf w n -> set_textContent n s w = Ok tt (update n (with_textContent s) w).
Proof.
  intros H. unfold set_textContent. f_equal.
  apply set_tree_id. rewrite tree_update. by apply remove_descendants_leaf.
Qed.

Lemma leaf_update n f w m : leaf (update n f w) m <-> leaf w m.
Proof. done. Qed.

(** ** Contact form: what the functions compute *)

Section ContactFormRuns.

Import ContactForm.

Lemma by_id_update w n f i :
  stable (sel_id i) f -> by_id (update n f w) i = by_id w i.
Proof. intros H. unfold by_id. by rewrite select_update. Qed.

Lemma reads_attr_id a i : a <> "id" -> reads_attr a (sel_id i) = false.
Proof. intros H. unfold reads_attr, sel_id. simpl. by rewrite bool_decide_false. Qed.

Lemma by_id_marked i e g err w j :
  by_id (marked i e g err w) j = by_id w j.
Proof.
  unfold marked. destruct (truthy err).
  - rewrite !by_id_update; [done | | |].
    + by apply stable_insert, reads_attr_id.
    + apply stable_text.
    + by apply stable_class_add.
  - rewrite !by_id_update; [done | | |].
    + by apply stable_delete, reads_attr_id.
    + apply stable_text.
    + by apply stable_class_remove.
Qed.

Lemma tree_marked i e g err w : tree (marked i e g err w) = tree w.
Proof. unfold marked. by destruct (truthy err). Qed.

Lemma field_at_marked i e g err w config i' e' g' :
  field_at (marked i e g err w) config i' e' g' <-> field_at w config i' e' g'.
Proof.
  split; intros [H1 H2 H3 H4]; split;
    rewrite ?by_id_marked in *; try done;
    unfold leaf in *; by rewrite tree_marked in *.
Qed.

Lemma value_marked i e g err w n : value_of (marked i e g err w) n = value_of w n.
Proof.
  unfold marked. destruct (truthy err); by rewrite !value_update_keep.
Qed.

Lemma showError_run config message w i e g :
  field_at w config i e g ->
  showError config message w = Ok tt (marked i e g (Some message) w) \/ message = "".
Proof.
  intros [H1 H2 H3 H4].
  destruct (decide (message = "")) as [|Hne]; [by right | left].
  unfold showError, config_el, config_errorEl, config_groupEl, bind, qs.
  unfold by_id in *. rewrite H1, H2, H3.
  unfold setAttribute, modify, classList_add.
  rewrite set_textContent_leaf by done.
  unfold marked. simpl. by rewrite bool_decide_false.
Qed.

Lemma clearError_run config w i e g :
  field_at w config i e g ->
  clearError config w = Ok tt (marked i e g None w).
Proof.
  intros [H1 H2 H3 H4].
  unfold clearError, config_el, config_errorEl, config_groupEl, bind, qs.
  unfold by_id in *. rewrite H1, H2, H3.
  unfold removeAttribute, modify, classList_remove.
  by rewrite set_textContent_leaf.
Qed.

Lemma validateField_run config w i e g :
  field_at w config i e g ->
  validateField config w =
    Ok (validate config (value_of w i))
       (marked i e g (validate config (value_of w i)) w).
Proof.
  intros H. pose proof H as [H1 _ _ _].
  unfold validateField, config_el, bind, qs. unfold by_id in H1. rewrite H1.
  unfold get_value.
  destruct (validate config (value_of w i)) as [msg|] eqn:E; simpl.
  - case_bool_decide as Hm; simpl.
    + rewrite (clearError_run _ _ _ _ _ H). unfold marked. simpl.
      by rewrite bool_decide_true.
    + destruct (showError_run config msg w i e g H) as [->|]; done.
  - by rewrite (clearError_run _ _ _ _ _ H).
Qed.

Lemma validateField_missing config w :
  by_id w (el config) = None -> validateField config w = Ok None w.
Proof.
  intros H. unfold validateField, config_el, bind, qs. unfold by_id in H.
  by rewrite H.
Qed.

End ContactFormRuns.

(** ** Contact form: what a field shows after validation *)

Section FieldViews.

Import ContactForm.

Lemma heap_marked i e g err w n :
  is_Some (heap (marked i e g err w) !! n) <-> is_Some (heap w !! n).
Proof.
  unfold marked. destruct (truthy err); by rewrite !is_Some_heap_update.
Qed.

Lemma attr_marked_other i e g err w n a :
  n <> i \/ a <> "aria-invalid" ->
  attr (marked i e g err w) n a = attr w n a.
Proof.
  intros H. unfold marked. destruct (truthy err).
  - rewrite !attr_update_keep by done.
    destruct H as [H|H]; [by apply attr_update_ne|].
    apply attr_update_keep. intros x. simpl. by rewrite lookup_insert_ne.
  - rewrite !attr_update_keep by done.
    destruct H as [H|H]; [by apply attr_update_ne|].
    apply attr_update_keep. intros x. simpl. by rewrite lookup_delete_ne.
Qed.

Lemma attr_marked i e g err w :
  is_Some (heap w !! i) ->
  attr (marked i e g err w) i "aria-invalid" =
    if truthy err then Some "true" else None.
Proof.
  intros H. unfold marked. destruct (truthy err).
  - rewrite !attr_update_keep by done. by apply attr_update_insert.
  - rewrite !attr_update_keep by done. by apply attr_update_delete.
Qed.

Lemma text_marked_other i e g err w n :
  n <> e -> text_of (marked i e g err w) n = text_of w n.
Proof.
  intros H. unfold marked. destruct (truthy err).
  - rewrite text_update_keep by done. rewrite text_update_ne by done.
    by rewrite text_update_keep.
  - rewrite text_update_keep by done. rewrite text_update_ne by done.
    by rewrite text_update_keep.
Qed.

Lemma text_marked i e g err w :
  is_Some (heap w !! e) ->
  text_of (marked i e g err w) e =
    Some (if truthy err then default "" err else "").
Proof.
  intros H. unfold marked. destruct (truthy err).
  - rewrite text_update_keep by done. apply text_update_set.
    by apply is_Some_heap_update.
  - rewrite text_update_keep by done. apply text_update_set.
    by apply is_Some_heap_update.
Qed.

Lemma has_class_marked_other i e g err w n c :
  n <> g \/ c <> "form-group--error" ->
  has_class (marked i e g err w) n c = has_class w n c.
Proof.
  intros H. unfold marked. destruct (truthy err).
  - rewrite has_class_update_classes; [by rewrite !has_class_update_keep|].
    destruct H as [H|H]; [by left | right]. intros s. set_solver.
  - rewrite has_class_update_classes; [by rewrite !has_class_update_keep|].
    destruct H as [H|H]; [by left | right]. intros s. set_solver.
Qed.

Lemma has_class_marked i e g err w :
  is_Some (heap w !! g) ->
  has_class (marked i e g err w) g "form-group--error" = truthy err.
Proof.
  intros H. unfold marked. destruct (truthy err).
  - apply has_class_update_add. by rewrite !is_Some_heap_update.
  - apply has_class_update_remove.
Qed.

(** A field shows the verdict of its rule once it is marked with it. *)
Lemma marked_shows config w i e g err :
  field_at w config i e g ->
  if truthy err
  then in_error (marked i e g err w) i e g (default "" err)
  else error_cleared (marked i e g err w) i e g.
Proof.
  intros [H1 H2 H3 _].
  apply by_id_lookup in H1 as (x1 & H1 & _).
  apply by_id_lookup in H2 as (x2 & H2 & _).
  apply by_id_lookup in H3 as (x3 & H3 & _).
  pose proof (attr_marked i e g err w (mk_is_Some _ _ H1)) as Ha.
  pose proof (text_marked i e g err w (mk_is_Some _ _ H2)) as Ht.
  pose proof (has_class_marked i e g err w (mk_is_Some _ _ H3)) as Hc.
  destruct (truthy err); by repeat split.
Qed.

(** Marking one field leaves what another field shows. *)
Lemma marked_frame_error i e g err w i' e' g' message :
  i' <> i -> e' <> e -> g' <> g ->
  in_error (marked i e g err w) i' e' g' message <-> in_error w i' e' g' message.
Proof.
  intros Hi He Hg. unfold in_error.
  rewrite attr_marked_other by (by left).
  rewrite text_marked_other by done.
  by rewrite has_class_marked_other by (by left).
Qed.

Lemma marked_frame_cleared i e g err w i' e' g' :
  i' <> i -> e' <> e -> g' <> g ->
  error_cleared (marked i e g err w) i' e' g' <-> error_cleared w i' e' g'.
Proof.
  intros Hi He Hg. unfold error_cleared.
  rewrite attr_marked_other by (by left).
  rewrite text_marked_other by done.
  by rewrite has_class_marked_other by (by left).
Qed.

End FieldViews.

(** ** Contact form: [validateAll] *)

Section ValidateSlots.

Import ContactForm.

Lemma validateField_slot config w r :
  field_slot w config r ->
  validateField config w = Ok (verdict w config r) (mark_slot r (verdict w config r) w).
Proof.
  destruct r as [r|]; simpl.
  - apply validateField_run.
  - apply validateField_missing.
Qed.

Lemma field_slot_mark_slot r err w config r' :
  field_slot (mark_slot r err w) config r' <-> field_slot w config r'.
Proof.
  destruct r as [r|]; [|done]. simpl.
  destruct r' as [r'|]; simpl.
  - apply field_at_marked.
  - unfold mark. by rewrite by_id_marked.
Qed.

Lemma verdict_mark_slot r err w config r' :
  verdict (mark_slot r err w) config r' = verdict w config r'.
Proof.
  destruct r as [r|]; [|done]. destruct r' as [r'|]; [|done]. simpl.
  unfold mark. by rewrite value_marked.
Qed.

Lemma validateAll_slots w name email message :
  form_slots w name email message ->
  validateAll w =
    Ok (all_valid_slots w name email message) (validated_slots name email message w).
Proof.
  intros [HN HE HS].
  unfold validateAll, validators, mapM, bind at 1.
  unfold bind at 1.
  rewrite (validateField_slot name_config w name HN).
  set (w1 := mark_slot name _ w).
  assert (HE1 : field_slot w1 email_config email)
    by (apply field_slot_mark_slot; exact HE).
  assert (HS1 : field_slot w1 message_config message)
    by (apply field_slot_mark_slot; exact HS).
  unfold bind at 1. unfold bind at 1.
  rewrite (validateField_slot email_config w1 email HE1).
  set (w2 := mark_slot email _ w1).
  assert (HS2 : field_slot w2 message_config message)
    by (apply field_slot_mark_slot; exact HS1).
  unfold bind at 1. unfold bind at 1.
  rewrite (validateField_slot message_config w2 message HS2).
  unfold bind, ret. cbn [forallb].
  unfold w2, w1. rewrite !verdict_mark_slot.
  unfold all_valid_slots, validated_slots.
  rewrite andb_true_r, andb_assoc. reflexivity.
Qed.

End ValidateSlots.

Section ValidateAll.

Import ContactForm.

Variables (w : world) (name email message : field_refs).
Hypothesis fields : form_fields w name email message.

Lemma validateAll_run :
  validateAll w =
    Ok (all_valid w name email message) (validated name email message w).
Proof. exact (validateAll_slots w _ _ _ fields). Qed.

(** The nine elements are nine different objects. *)
Lemma fields_distinct :
  NoDup [r_input name; r_error name; r_group name;
         r_input email; r_error email; r_group email;
         r_input message; r_error message; r_group message].
Proof.
  destruct fields as [[N1 N2 N3 _] [E1 E2 E3 _] [S1 S2 S3 _]].
  simpl in *.
  repeat (apply NoDup_cons; split;
    [rewrite ?elem_of_cons, elem_of_nil;
     intros Hin; repeat destruct Hin as [Hin|Hin]; try done;
     revert Hin;
     first [ eapply (by_id_inj w); [eassumption | eassumption | done] ]
    |]).
  apply NoDup_nil_2.
Qed.

End ValidateAll.

(** ** The rules *)

(** What the matcher of the email rule accepts: one "@" with a non-empty
    run before it, and after it two non-empty runs around a ".", none of the
    runs holding whitespace or "@". *)
Lemma plus_spec cls (k : Regex.cont) s :
  Regex.plus cls k s = true <->
  exists p r, s = p ++ r /\ p <> [] /\ forallb cls p = true /\ k r = true.
Proof.
  induction s as [|c s IH]; simpl.
  - split; [done|]. intros (p & r & Hs & Hp & _).
    symmetry in Hs. apply app_eq_nil in Hs as [-> _]. done.
  - rewrite andb_true_iff, orb_true_iff, IH. split.
    + intros [Hc [(p & r & -> & Hp & Hall & Hk)|Hk]].
      * exists (c :: p), r. simpl. by rewrite Hc, Hall.
      * exists [c], s. simpl. by rewrite Hc, Hk.
    + intros (p & r & Hs & Hp & Hall & Hk).
      destruct p as [|c' p]; [done|]. simpl in Hs, Hall.
      injection Hs as <- ->. apply andb_true_iff in Hall as [Hc Hall].
      split; [done|]. destruct p as [|c'' p]; [by right | left].
      by exists (c'' :: p), r.
Qed.

Lemma char_spec x (k : Regex.cont) s :
  Regex.char x k s = true <-> exists r, s = x :: r /\ k r = true.
Proof.
  destruct s as [|c s]; simpl.
  - split; [done | by intros (r & ? & _)].
  - rewrite andb_true_iff, N.eqb_eq. split.
    + intros [-> Hk]. by exists s.
    + intros (r & [= -> ->] & Hk). done.
Qed.

Lemma email_test_spec s :
  Regex.email_test s = true <->
  exists a b c,
    s = a ++ 0x40%N :: b ++ 0x2E%N :: c /\
    a <> [] /\ b <> [] /\ c <> [] /\
    forallb Regex.notSpaceAt a = true /\
    forallb Regex.notSpaceAt b = true /\
    forallb Regex.notSpaceAt c = true.
Proof.
  unfold Regex.email_test. rewrite plus_spec. split.
  - intros (a & r1 & -> & Ha & Hall_a & H1).
    apply char_spec in H1 as (r2 & -> & H2).
    apply plus_spec in H2 as (b & r3 & -> & Hb & Hall_b & H3).
    apply char_spec in H3 as (r4 & -> & H4).
    apply plus_spec in H4 as (c & r5 & -> & Hc & Hall_c & H5).
    destruct r5; [|done]. exists a, b, c. by rewrite app_nil_r.
  - intros (a & b & c & -> & Ha & Hb & Hc & Hall_a & Hall_b & Hall_c).
    exists a, (0x40%N :: b ++ 0x2E%N :: c). split; [done|]. split; [done|].
    split; [done|]. apply char_spec. eexists. split; [done|].
    apply plus_spec. exists b, (0x2E%N :: c). split; [done|]. split; [done|].
    split; [done|]. apply char_spec. eexists. split; [done|].
    apply plus_spec. exists c, []. by rewrite app_nil_r.
Qed.

Lemma validate_name_truthy v : truthy (validate_name v) = negb (is_null (validate_name v)).
Proof.
  unfold validate_name.
  destruct (JsString.isEmpty _); [done|]. by destruct (_ <? _)%nat.
Qed.

Lemma validate_email_truthy v : truthy (validate_email v) = negb (is_null (validate_email v)).
Proof.
  unfold validate_email.
  destruct (JsString.isEmpty _); [done|]. by destruct (negb _).
Qed.

Lemma validate_message_truthy v :
  truthy (validate_message v) = negb (is_null (validate_message v)).
Proof.
  unfold validate_message.
  destruct (JsString.isEmpty _); [done|]. by destruct (_ <? _)%nat.
Qed.

Lemma verdict_of_marked config w r err :
  field_on w config r ->
  truthy err = negb (is_null err) ->
  verdict_shown (mark r err w) r err.
Proof.
  intros H Ht. pose proof (marked_shows config w _ _ _ err H) as Hs.
  rewrite Ht in Hs. unfold verdict_shown, mark. by destruct err.
Qed.

Lemma verdict_frame r err w r' err' :
  r_input r' <> r_input r -> r_error r' <> r_error r -> r_group r' <> r_group r ->
  verdict_shown (mark r err w) r' err' <-> verdict_shown w r' err'.
Proof.
  intros H1 H2 H3. unfold verdict_shown, mark, shows_error, shows_no_error.
  destruct err'; [by apply marked_frame_error | by apply marked_frame_cleared].
Qed.

Section Validated.

Import ContactForm.

Variables (w : world) (name email message : field_refs).
Hypothesis fields : form_fields w name email message.

Ltac other_element :=
  eapply (by_id_inj w); [eassumption | eassumption | simpl; discriminate].

(** After [validateAll] every field shows the verdict of its own rule. *)
Lemma validated_shows :
  let w' := validated name email message w in
  verdict_shown w' name (name_error w name) /\
  verdict_shown w' email (email_error w email) /\
  verdict_shown w' message (message_error w message).
Proof.
  destruct fields as [HN HE HS]. unfold validated.
  pose proof HN as [N1 N2 N3 _]. pose proof HE as [E1 E2 E3 _].
  pose proof HS as [S1 S2 S3 _].
  set (w1 := mark name (name_error w name) w).
  set (w2 := mark email (email_error w email) w1).
  assert (HE1 : field_on w1 email_config email) by (apply field_at_marked; exact HE).
  assert (HS1 : field_on w1 message_config message) by (apply field_at_marked; exact HS).
  assert (HS2 : field_on w2 message_config message) by (apply field_at_marked; exact HS1).
  simpl. split; [|split].
  - unfold w2, w1. rewrite !verdict_frame by other_element.
    apply (verdict_of_marked name_config); [exact HN|]. apply validate_name_truthy.
  - unfold w2. rewrite verdict_frame by other_element.
    apply (verdict_of_marked email_config); [exact HE1|]. apply validate_email_truthy.
  - apply (verdict_of_marked message_config); [exact HS2|].
    apply validate_message_truthy.
Qed.

End Validated.

(** ** C1 *)

(** C1. With name "", email "a@b.c" and message "this is long enough",
    [validateAll()] answers false; afterwards the name field alone is in
    error (aria-invalid set, its message stored, its group marked) and the
    email and message fields have their error state cleared; "a@b.c"
    matches the pattern of the email rule. *)
Theorem C1_only_the_name_field_in_error (w : world) (name email message : field_refs) :
  form_fields w name email message ->
  value_of w (r_input name) = JsString.lit "" ->
  value_of w (r_input email) = JsString.lit "a@b.c" ->
  value_of w (r_input message) = JsString.lit "this is long enough" ->
  Regex.email_test (JsString.lit "a@b.c") = true /\
  exists w',
    ContactForm.validateAll w = Ok false w' /\
    shows_error w' name "Name is required." /\
    shows_no_error w' email /\
    shows_no_error w' message.
Proof.
  intros Hf Hn He Hm. split; [by vm_compute|].
  exists (validated name email message w).
  pose proof (validated_shows w name email message Hf) as Hs.
  rewrite (validateAll_run w name email message Hf).
  unfold all_valid, name_error, email_error, message_error in *.
  rewrite Hn, He, Hm in *.
  change (validate_name (JsString.lit "")) with (Some "Name is required.") in *.
  change (validate_email (JsString.lit "a@b.c")) with (@None string) in *.
  change (validate_message (JsString.lit "this is long enough")) with (@None string) in *.
  done.
Qed.

Lemma sample_form_fields n e m :
  form_fields (Sample.contact_page n e m) sample_name sample_email sample_message.
Proof. split; split; reflexivity. Defined.

Lemma C1_only_the_name_field_in_error_witness :
  Regex.email_test (JsString.lit "a@b.c") = true /\
  exists w',
    ContactForm.validateAll
      (Sample.contact_page (JsString.lit "") (JsString.lit "a@b.c")
                           (JsString.lit "this is long enough")) = Ok false w' /\
    shows_error w' sample_name "Name is required." /\
    shows_no_error w' sample_email /\
    shows_no_error w' sample_message.
Proof.
  apply (C1_only_the_name_field_in_error _ sample_name sample_email sample_message).
  - apply sample_form_fields.
  - reflexivity.
  - reflexivity.
  - reflexivity.
Defined.

(** ** Contact form: the submit handler *)

Section Submit.

Import ContactForm.

Lemma marked_heap_only i e g err w :
  exists F, marked i e g err w = set_heap F w.
Proof.
  unfold marked, update. destruct (truthy err); eexists (fun h => _);
    unfold set_heap; simpl; reflexivity.
Qed.

Lemma validated_heap_only name email message w :
  exists F, validated name email message w = set_heap F w.
Proof.
  unfold validated, mark.
  destruct (marked_heap_only (r_input name) (r_error name) (r_group name)
              (name_error w name) w) as [F1 ->].
  destruct (marked_heap_only (r_input email) (r_error email) (r_group email)
              (email_error w email) (set_heap F1 w)) as [F2 ->].
  destruct (marked_heap_only (r_input message) (r_error message) (r_group message)
              (message_error w message) (set_heap F2 (set_heap F1 w))) as [F3 ->].
  by exists (fun h => F3 (F2 (F1 h))).
Qed.

Lemma ref_matches_attr_eq w a v n :
  ref_matches [[SelAttrEq a v]] (heap w) n = bool_decide (attr w n a = Some v).
Proof.
  unfold ref_matches, attr. destruct (heap w !! n); simpl.
  - by rewrite andb_true_r, orb_false_r.
  - done.
Qed.

Lemma setSubmitLoading_run submitBtn b w :
  leaf w submitBtn ->
  setSubmitLoading submitBtn b w = Ok tt (loading submitBtn b w).
Proof.
  intros H. unfold setSubmitLoading, bind, setAttribute, set_flag, modify.
  destruct b; unfold setAttribute, removeAttribute, modify;
    by rewrite set_textContent_leaf.
Qed.

Lemma loading_is_loading submitBtn w :
  is_Some (heap w !! submitBtn) -> is_loading (loading submitBtn true w) submitBtn.
Proof.
  intros H. unfold is_loading, loading. repeat split.
  - rewrite attr_update_keep by done.
    rewrite attr_update_keep by (intros x; simpl; by rewrite lookup_insert_ne).
    by apply attr_update_insert.
  - unfold flag. rewrite attr_update_keep by done.
    rewrite attr_update_insert; [done|]. by apply is_Some_heap_update.
  - apply text_update_set. by rewrite !is_Some_heap_update.
Qed.

Lemma loading_is_idle submitBtn w :
  is_Some (heap w !! submitBtn) -> is_idle (loading submitBtn false w) submitBtn.
Proof.
  intros H. unfold is_idle, loading. repeat split.
  - rewrite attr_update_keep by done.
    rewrite attr_update_keep by (intros x; simpl; by rewrite lookup_delete_ne).
    by apply attr_update_insert.
  - unfold flag. rewrite attr_update_keep by done.
    by rewrite attr_update_delete.
  - apply text_update_set. by rewrite !is_Some_heap_update.
Qed.

Lemma tree_validated name email message w :
  tree (validated name email message w) = tree w.
Proof. destruct (validated_heap_only name email message w) as [F ->]. done. Qed.

Lemma attr_validated_other name email message w n a :
  n ∉ inputs name email message ->
  attr (validated name email message w) n a = attr w n a.
Proof.
  intros H. unfold inputs in H. unfold validated, mark.
  rewrite !attr_marked_other; [done | left; set_solver..].
Qed.

Lemma invalid_inputs_spec w name email message n :
  n ∈ invalid_inputs w name email message <->
  (n = r_input name /\ is_null (name_error w name) = false) \/
  (n = r_input email /\ is_null (email_error w email) = false) \/
  (n = r_input message /\ is_null (message_error w message) = false).
Proof.
  unfold invalid_inputs.
  destruct (is_null (name_error w name)), (is_null (email_error w email)),
    (is_null (message_error w message)); set_solver.
Qed.

Lemma verdict_shown_flag w r err :
  verdict_shown w r err ->
  attr w (r_input r) "aria-invalid" = if is_null err then None else Some "true".
Proof. destruct err; by intros [H _]. Qed.

Lemma filter_filter_sub {A} (P Q : A -> bool) l :
  (forall x, P x = true -> Q x = true) ->
  List.filter P l = List.filter P (List.filter Q l).
Proof.
  intros H. induction l as [|x l IH]; [done|]. simpl.
  destruct (P x) eqn:E.
  - rewrite (H x E). simpl. by rewrite E, IH.
  - destruct (Q x); simpl; by rewrite ?E, IH.
Qed.

Section InvalidSelect.

Variables (w : world) (form submitBtn : ref) (name email message : field_refs).
Hypothesis page : submit_page w form submitBtn name email message.

Lemma inputs_distinct :
  r_input name <> r_input email /\ r_input name <> r_input message /\
  r_input email <> r_input message.
Proof.
  destruct page as [[[N1 _ _ _] [E1 _ _ _] [S1 _ _ _]] _ _ _].
  repeat split;
    (eapply (by_id_inj w); [eassumption | eassumption | simpl; discriminate]).
Qed.

Lemma flagged_after_validation n :
  n ∈ descendants form (tree w) ->
  bool_decide (attr (validated name email message w) n "aria-invalid" = Some "true")
  = bool_decide (n ∈ invalid_inputs w name email message).
Proof.
  intros Hn. destruct page as [Hf _ _ Hflags].
  destruct (validated_shows w name email message Hf) as (VN & VE & VS).
  apply verdict_shown_flag in VN, VE, VS.
  destruct inputs_distinct as (D1 & D2 & D3).
  apply bool_decide_ext. rewrite invalid_inputs_spec.
  destruct (decide (n = r_input name)) as [->|HnN].
  { rewrite VN. destruct (is_null (name_error w name)); naive_solver. }
  destruct (decide (n = r_input email)) as [->|HnE].
  { rewrite VE. destruct (is_null (email_error w email)); naive_solver. }
  destruct (decide (n = r_input message)) as [->|HnS].
  { rewrite VS. destruct (is_null (message_error w message)); naive_solver. }
  rewrite attr_validated_other by (unfold inputs; set_solver).
  split; [|naive_solver].
  intros Ha. specialize (Hflags n Hn Ha). unfold inputs in Hflags. set_solver.
Qed.

Lemma filter_invalid_inputs :
  List.filter (fun n => bool_decide (n ∈ invalid_inputs w name email message))
    (inputs name email message) = invalid_inputs w name email message.
Proof.
  destruct inputs_distinct as (D1 & D2 & D3).
  unfold invalid_inputs, inputs.
  destruct (is_null (name_error w name)), (is_null (email_error w email)),
    (is_null (message_error w message)); simpl;
    repeat case_bool_decide; try done; set_solver.
Qed.

(** What [qs('[aria-invalid="true"]', form)] scans after [validateAll]. *)
Lemma invalid_select :
  select [[SelAttrEq "aria-invalid" "true"]] (Some form)
         (validated name email message w)
  = invalid_inputs w name email message.
Proof.
  unfold select. rewrite tree_validated. simpl.
  rewrite (filter_ext_in _
    (fun n => bool_decide (n ∈ invalid_inputs w name email message))).
  2: { intros n Hn. rewrite ref_matches_attr_eq.
       apply flagged_after_validation. by apply list_elem_of_In. }
  etrans; [|exact filter_invalid_inputs].
  rewrite <- (sp_inputs _ _ _ _ _ _ page).
  apply filter_filter_sub. intros x Hx.
  apply bool_decide_eq_true. apply bool_decide_eq_true in Hx.
  apply invalid_inputs_spec in Hx. unfold inputs. set_solver.
Qed.

End InvalidSelect.

End Submit.

(** ** Worlds with the same document *)

Section SameDocument.

Variables w w' : world.
Hypothesis same : same_document w w'.

Lemma select_same sel root : select sel root w' = select sel root w.
Proof. destruct same as [Hh Ht]. unfold select. by rewrite Hh, Ht. Qed.

Lemma by_id_same i : by_id w' i = by_id w i.
Proof. unfold by_id. by rewrite select_same. Qed.

Lemma attr_same n a : attr w' n a = attr w n a.
Proof. destruct same as [Hh _]. unfold attr. by rewrite Hh. Qed.

Lemma value_same n : value_of w' n = value_of w n.
Proof. destruct same as [Hh _]. unfold value_of. by rewrite Hh. Qed.

Lemma field_slot_same config r : field_slot w' config r <-> field_slot w config r.
Proof.
  destruct r as [r|]; simpl; [|by rewrite by_id_same].
  destruct same as [_ Ht].
  split; intros [H1 H2 H3 H4]; split; rewrite ?by_id_same in *; try done;
    unfold leaf in *; congruence.
Qed.

Lemma form_slots_same name email message :
  form_slots w' name email message <-> form_slots w name email message.
Proof.
  split; intros [H1 H2 H3]; split; by apply field_slot_same.
Qed.

Lemma submit_page_same form submitBtn name email message :
  submit_page w form submitBtn name email message ->
  submit_page w' form submitBtn name email message.
Proof.
  intros [H1 H2 H3 H4]. destruct same as [Hh Ht]. split.
  - by apply form_slots_same.
  - by rewrite select_same.
  - by rewrite Ht.
  - intros n. rewrite Ht, attr_same. apply H4.
Qed.

Lemma validated_same name email message :
  same_document (validated name email message w)
                (validated name email message w').
Proof.
  destruct same as [Hh Ht].
  unfold validated, mark, name_error, email_error, message_error.
  rewrite !value_same.
  unfold same_document, marked, update.
  destruct (truthy _), (truthy _), (truthy _); simpl; by rewrite Hh, Ht.
Qed.

End SameDocument.

Lemma same_document_prevented b w : same_document w (set_defaultPrevented b w).
Proof. done. Qed.

Lemma same_document_focus a w : same_document w (set_activeElement a w).
Proof. done. Qed.

Lemma same_document_timers f w : same_document w (set_timers f w).
Proof. done. Qed.

Lemma same_document_sym w w' : same_document w w' -> same_document w' w.
Proof. intros [H1 H2]. by split. Qed.

Lemma same_document_trans w1 w2 w3 :
  same_document w1 w2 -> same_document w2 w3 -> same_document w1 w3.
Proof. intros [H1 H2] [H3 H4]. split; congruence. Qed.

(** ** The submit handler up to its branch *)

Lemma verdict_same w w' config r :
  same_document w w' -> verdict w' config r = verdict w config r.
Proof. intros H. destruct r; [|done]. simpl. by rewrite (value_same w w' H). Qed.

Lemma on_submit_validates_slots w form submitBtn successEl name email message :
  form_slots w name email message ->
  ContactForm.on_submit form submitBtn successEl w =
    (if negb (all_valid_slots w name email message) then
       let* firstInvalid := qs [[SelAttrEq "aria-invalid" "true"]] (Some form) in
       match firstInvalid with
       | Some f => focus f
       | None => ret tt
       end ;;;
       ret ContactForm.Returned
     else
       ContactForm.setSubmitLoading submitBtn true ;;;
       ContactForm.simulateSend ;;;
       ret ContactForm.AwaitingSend)
      (validated_slots name email message (set_defaultPrevented true w)).
Proof.
  intros Hf. set (w0 := set_defaultPrevented true w).
  assert (Hs : same_document w w0) by apply same_document_prevented.
  unfold ContactForm.on_submit.
  rewrite (bind_Ok _ _ w tt w0) by reflexivity.
  rewrite (bind_Ok _ _ w0 (all_valid_slots w0 name email message)
             (validated_slots name email message w0)).
  2: { apply validateAll_slots. by apply (form_slots_same w w0 Hs). }
  unfold all_valid_slots. by rewrite !(verdict_same w w0 _ _ Hs).
Qed.

(** ** C2 *)

Section SubmitInvalid.

Import ContactForm.

Variables (w : world) (form submitBtn successEl : ref) (name email message : field_refs).
Hypothesis page : submit_page w form submitBtn name email message.

Let w0 := set_defaultPrevented true w.

Lemma invalid_inputs_same w1 w2 :
  same_document w1 w2 ->
  invalid_inputs w2 name email message = invalid_inputs w1 name email message.
Proof.
  intros H. unfold invalid_inputs, name_error, email_error, message_error.
  by rewrite !(value_same w1 w2 H).
Qed.

Lemma all_valid_same w1 w2 :
  same_document w1 w2 ->
  all_valid w2 name email message = all_valid w1 name email message.
Proof.
  intros H. unfold all_valid, name_error, email_error, message_error.
  by rewrite !(value_same w1 w2 H).
Qed.

Lemma on_submit_validates :
  on_submit form submitBtn successEl w =
    (if negb (all_valid w name email message) then
       let* firstInvalid := qs [[SelAttrEq "aria-invalid" "true"]] (Some form) in
       match firstInvalid with
       | Some f => focus f
       | None => ret tt
       end ;;;
       ret Returned
     else
       setSubmitLoading submitBtn true ;;;
       simulateSend ;;;
       ret AwaitingSend) (validated name email message w0).
Proof.
  apply (on_submit_validates_slots w form submitBtn successEl
           (Some name) (Some email) (Some message)).
  apply page.
Qed.

Lemma on_submit_invalid f :
  head (invalid_inputs w name email message) = Some f ->
  on_submit form submitBtn successEl w =
    Ok Returned (set_activeElement (Some f) (validated name email message w0)).
Proof.
  intros Hf.
  assert (Hs : same_document w w0) by apply same_document_prevented.
  rewrite on_submit_validates.
  assert (all_valid w name email message = false) as ->.
  { unfold all_valid, invalid_inputs in *.
    destruct (is_null (name_error w name)), (is_null (email_error w email)),
      (is_null (message_error w message)); done. }
  cbn [negb]. unfold bind at 1. unfold bind at 1. unfold qs.
  rewrite (invalid_select w0 form submitBtn name email message
             (submit_page_same w w0 Hs _ _ _ _ _ page)).
  rewrite (invalid_inputs_same w w0 Hs), Hf. reflexivity.
Qed.

End SubmitInvalid.

Lemma has_class_same w w' n c :
  same_document w w' -> has_class w' n c = has_class w n c.
Proof. intros [Hh _]. unfold has_class. by rewrite Hh. Qed.

Lemma text_same w w' n : same_document w w' -> text_of w' n = text_of w n.
Proof. intros [Hh _]. unfold text_of. by rewrite Hh. Qed.

Lemma verdict_shown_same w w' r err :
  same_document w w' -> verdict_shown w' r err <-> verdict_shown w r err.
Proof.
  intros H. unfold verdict_shown, shows_error, shows_no_error, in_error, error_cleared.
  destruct err; by rewrite (attr_same w w' H), (text_same w w' _ H), (has_class_same w w' _ _ H).
Qed.

Lemma heap_marked_other i e g err w n :
  n <> i -> n <> e -> n <> g -> heap (marked i e g err w) !! n = heap w !! n.
Proof.
  intros H1 H2 H3. unfold marked, update.
  destruct (truthy err); simpl; by rewrite !lookup_alter_ne.
Qed.

Lemma selected_by_id w root i n :
  n ∈ select (sel_id i) root w ->
  exists e, heap w !! n = Some e /\ attrs e !! "id" = Some i.
Proof.
  intros H. apply select_in_heap in H as (e & He & Hm). exists e. split; [done|].
  unfold sel_id, el_matches in Hm. simpl in Hm.
  rewrite orb_false_r, andb_true_r in Hm. by apply bool_decide_eq_true in Hm.
Qed.

(** An element selected by another id is none of the elements of the fields. *)
Lemma heap_validated_other w name email message root i n :
  form_fields w name email message ->
  n ∈ select (sel_id i) root w ->
  i ∉ ["field-name"; "error-name"; "group-name"; "field-email"; "error-email";
       "group-email"; "field-message"; "error-message"; "group-message"] ->
  heap (validated name email message w) !! n = heap w !! n.
Proof.
  intros [[N1 N2 N3 _] [E1 E2 E3 _] [S1 S2 S3 _]] Hn Hi.
  apply selected_by_id in Hn as (x & Hx & Hid).
  assert (Hne : forall j m, by_id w j = Some m ->
            j ∈ ["field-name"; "error-name"; "group-name"; "field-email";
                 "error-email"; "group-email"; "field-message"; "error-message";
                 "group-message"] -> n <> m).
  { intros j m Hj Hin ->. apply by_id_lookup in Hj as (y & Hy & Hj).
    assert (i = j) by congruence. subst. done. }
  simpl in *.
  unfold validated, mark.
  rewrite !heap_marked_other; first done;
    (eapply Hne; [eassumption | repeat first [apply list_elem_of_here | apply list_elem_of_further]]).
Qed.

(** C2. On submission [validateAll()] runs over the three fields, and when
    a field is invalid the handler returns at once: the default action is
    cancelled, the focus is on the first invalid field in document order
    (the name field whenever the name is invalid, so also when all three
    fail), the submit control is left as it was and no timer is started. *)
Theorem C2_invalid_submission_is_blocked
    (w : world) (form submitBtn successEl : ref) (name email message : field_refs) :
  submit_page w form submitBtn name email message ->
  all_valid w name email message = false ->
  exists w' f,
    ContactForm.on_submit form submitBtn successEl w = Ok ContactForm.Returned w' /\
    (verdict_shown w' name (name_error w name) /\
     verdict_shown w' email (email_error w email) /\
     verdict_shown w' message (message_error w message)) /\
    defaultPrevented w' = true /\
    head (invalid_inputs w name email message) = Some f /\
    activeElement w' = Some f /\
    (is_null (name_error w name) = false -> f = r_input name) /\
    timers w' = timers w /\
    heap w' !! submitBtn = heap w !! submitBtn.
Proof.
  intros page Hinv.
  assert (exists f, head (invalid_inputs w name email message) = Some f) as [f Hf].
  { unfold all_valid, invalid_inputs in *.
    destruct (is_null (name_error w name)), (is_null (email_error w email)),
      (is_null (message_error w message)); try done; simpl; eauto. }
  set (w0 := set_defaultPrevented true w).
  exists (set_activeElement (Some f) (validated name email message w0)), f.
  assert (Hs : same_document w w0) by apply same_document_prevented.
  assert (Hv : same_document (validated name email message w)
                 (set_activeElement (Some f) (validated name email message w0))).
  { eapply same_document_trans; [apply (validated_same w w0 Hs)|].
    apply same_document_focus. }
  pose proof (sp_fields _ _ _ _ _ _ page) as Hfields.
  split; [by apply (on_submit_invalid w form submitBtn successEl name email message page)|].
  split.
  { destruct (validated_shows w name email message Hfields) as (VN & VE & VS).
    by rewrite !(verdict_shown_same _ _ _ _ Hv). }
  split.
  { destruct (validated_heap_only name email message w0) as [F ->]. done. }
  split; [done|]. split; [done|]. split.
  { intros Hn. unfold invalid_inputs in Hf. rewrite Hn in Hf. simpl in Hf. congruence. }
  split.
  { destruct (validated_heap_only name email message w0) as [F ->]. done. }
  destruct Hv as [-> _].
  eapply heap_validated_other; [done | |].
  - eapply head_Some_elem_of, sp_submit, page.
  - set_solver.
Qed.

Lemma sample_submit_page n e m :
  submit_page (Sample.contact_page n e m) Sample.form_ref Sample.submit_ref
    sample_name sample_email sample_message.
Proof.
  split.
  - apply sample_form_fields.
  - reflexivity.
  - reflexivity.
  - intros x Hx Ha.
    change (descendants Sample.form_ref (tree (Sample.contact_page n e m)))
      with [2; 3; 4; 5; 6; 7; 8; 9; 10; 11; 12; 13]%nat in Hx.
    repeat (apply elem_of_cons in Hx as [->|Hx]; [by vm_compute in Ha|]).
    by apply elem_of_nil in Hx.
Defined.

Lemma C2_invalid_submission_is_blocked_witness :
  let w := Sample.contact_page (JsString.lit "") (JsString.lit "not-an-email")
                               (JsString.lit "short") in
  exists w' f,
    ContactForm.on_submit Sample.form_ref Sample.submit_ref Sample.success_ref w
      = Ok ContactForm.Returned w' /\
    (verdict_shown w' sample_name (name_error w sample_name) /\
     verdict_shown w' sample_email (email_error w sample_email) /\
     verdict_shown w' sample_message (message_error w sample_message)) /\
    defaultPrevented w' = true /\
    head (invalid_inputs w sample_name sample_email sample_message) = Some f /\
    activeElement w' = Some f /\
    (is_null (name_error w sample_name) = false -> f = r_input sample_name) /\
    timers w' = timers w /\
    heap w' !! Sample.submit_ref = heap w !! Sample.submit_ref.
Proof.
  apply C2_invalid_submission_is_blocked.
  - apply sample_submit_page.
  - reflexivity.
Defined.

(** The second example of the specification, run on the sample page: the
    trimmed name "Al" has two characters, which the name rule accepts, so
    the email and message fields are the ones in error and the focus is on
    the email field. *)
Remark example_Al_is_a_valid_name :
  let w := Sample.contact_page (JsString.lit "Al") (JsString.lit "not-an-email")
                               (JsString.lit "short") in
  validate_name (JsString.lit "Al") = None /\
  exists w',
    ContactForm.on_submit Sample.form_ref Sample.submit_ref Sample.success_ref w
      = Ok ContactForm.Returned w' /\
    attr w' 3%nat "aria-invalid" = None /\
    attr w' 6%nat "aria-invalid" = Some "true" /\
    attr w' 9%nat "aria-invalid" = Some "true" /\
    activeElement w' = Some 6%nat.
Proof.
  split; [reflexivity|]. eexists. split; [vm_compute; reflexivity|].
  repeat split.
Qed.

(** ** C3 *)

Section SubmitValid.

Import ContactForm.

Lemma select_marked sel root i e g err w :
  reads_attr "aria-invalid" sel = false ->
  reads_class "form-group--error" sel = false ->
  select sel root (marked i e g err w) = select sel root w.
Proof.
  intros Ha Hc. unfold marked. destruct (truthy err).
  - rewrite !select_update; [done | | |].
    + by apply stable_insert.
    + apply stable_text.
    + by apply stable_class_add.
  - rewrite !select_update; [done | | |].
    + by apply stable_delete.
    + apply stable_text.
    + by apply stable_class_remove.
Qed.

Lemma select_validated sel root name email message w :
  reads_attr "aria-invalid" sel = false ->
  reads_class "form-group--error" sel = false ->
  select sel root (validated name email message w) = select sel root w.
Proof.
  intros Ha Hc. unfold validated, mark. by rewrite !select_marked.
Qed.

Lemma select_loading sel root submitBtn b w :
  reads_attr "data-loading" sel = false ->
  reads_attr "disabled" sel = false ->
  select sel root (loading submitBtn b w) = select sel root w.
Proof.
  intros H1 H2. unfold loading.
  rewrite !select_update; [done | | |].
  - by apply stable_insert.
  - destruct b; [by apply stable_insert | by apply stable_delete].
  - apply stable_text.
Qed.

Lemma tree_hide_all l w : tree (hide_all l w) = tree w.
Proof.
  revert w. induction l as [|c l IH]; intros w; [done|].
  simpl. by rewrite IH.
Qed.

Lemma forEach_hide l w :
  forEach l (fun el => set_flag el "hidden" true) w = Ok tt (hide_all l w).
Proof.
  revert w. induction l as [|c l IH]; intros w; [done|].
  simpl. unfold bind. simpl. apply IH.
Qed.

Lemma is_Some_heap_hide_all l w n :
  is_Some (heap (hide_all l w) !! n) <-> is_Some (heap w !! n).
Proof.
  revert w. induction l as [|c l IH]; intros w; [done|].
  simpl. by rewrite IH, is_Some_heap_update.
Qed.

Lemma attr_hide_all_in l w c :
  c ∈ l -> is_Some (heap w !! c) -> attr (hide_all l w) c "hidden" = Some "".
Proof.
  revert w. induction l as [|x l IH]; intros w Hc Hh; [by apply elem_of_nil in Hc|].
  simpl. destruct (decide (c ∈ l)) as [Hl|Hl].
  - apply IH; [done|]. by apply is_Some_heap_update.
  - apply elem_of_cons in Hc as [->|]; [|done].
    assert (Hkeep : forall w', attr (hide_all l w') x "hidden" = attr w' x "hidden").
    { clear -Hl. induction l as [|y l IH]; intros w'; [done|].
      simpl. rewrite IH by set_solver. apply attr_update_ne. set_solver. }
    rewrite Hkeep. by apply attr_update_insert.
Qed.

Lemma attr_hide_all_other l w n a :
  a <> "hidden" \/ n ∉ l -> attr (hide_all l w) n a = attr w n a.
Proof.
  revert w. induction l as [|x l IH]; intros w H; [done|].
  simpl. rewrite IH by set_solver.
  destruct H as [H|H].
  - apply attr_update_keep. intros y. simpl. by rewrite lookup_insert_ne.
  - apply attr_update_ne. set_solver.
Qed.

Lemma showSuccess_run form successEl w :
  showSuccess form successEl w = Ok tt (succeeded form successEl w).
Proof.
  unfold showSuccess, bind, qsa. rewrite forEach_hide. reflexivity.
Qed.

Lemma on_send_fulfilled form submitBtn successEl w :
  on_send_settled form submitBtn successEl Fulfilled w
  = Ok tt (succeeded form successEl w).
Proof. unfold on_send_settled, try_catch. by rewrite showSuccess_run. Qed.

Section Run.

Variables (w : world) (form submitBtn successEl : ref) (name email message : field_refs).
Hypothesis page : success_page w form submitBtn successEl name email message.
Hypothesis valid : all_valid w name email message = true.

Lemma on_submit_valid :
  on_submit form submitBtn successEl w
  = Ok AwaitingSend (awaiting submitBtn name email message w).
Proof.
  rewrite (on_submit_validates w form submitBtn successEl name email message
             (su_page _ _ _ _ _ _ _ page)).
  rewrite valid. cbn [negb].
  rewrite (bind_Ok _ _ _ tt
             (loading submitBtn true
                (validated name email message (set_defaultPrevented true w)))).
  - reflexivity.
  - apply setSubmitLoading_run. unfold leaf. rewrite tree_validated.
    apply page.
Qed.

Lemma controls_awaiting :
  select form_controls (Some form)
    (set_timers (drop 1) (awaiting submitBtn name email message w))
  = select form_controls (Some form) w.
Proof.
  unfold awaiting.
  rewrite (select_same _ _ (same_document_timers _ _)).
  rewrite (select_same _ _ (same_document_timers _ _)).
  rewrite select_loading by done.
  rewrite select_validated by done.
  by rewrite (select_same _ _ (same_document_prevented _ _)).
Qed.

Lemma tree_awaiting :
  tree (set_timers (drop 1) (awaiting submitBtn name email message w)) = tree w.
Proof. unfold awaiting. simpl. by rewrite tree_validated. Qed.

(** The validation writes [aria-invalid], the loading state writes
    [data-loading] and [disabled] on the submit control: every other
    attribute is as it was. *)
Lemma attr_awaiting_keep n a :
  a <> "aria-invalid" ->
  n <> submitBtn \/ (a <> "data-loading" /\ a <> "disabled") ->
  attr (set_timers (drop 1) (awaiting submitBtn name email message w)) n a
  = attr w n a.
Proof.
  intros Ha Hn. unfold awaiting.
  rewrite (attr_same _ _ (same_document_timers _ _)).
  rewrite (attr_same _ _ (same_document_timers _ _)).
  transitivity (attr (validated name email message (set_defaultPrevented true w)) n a).
  - unfold loading. destruct Hn as [Hn|[H1 H2]].
    + by rewrite !attr_update_ne.
    + rewrite !attr_update_keep; [done | | |].
      * intros e. simpl. by rewrite lookup_insert_ne.
      * intros e. simpl. by rewrite lookup_insert_ne.
      * done.
  - unfold validated, mark. rewrite !attr_marked_other by (by right).
    apply (attr_same _ _ (same_document_prevented _ _)).
Qed.

(** Showing the success element writes [hidden] only, on the controls of
    the form and on the success element. *)
Lemma attr_succeeded_keep v n a :
  a <> "hidden" \/ (n <> successEl /\ n ∉ select form_controls (Some form) v) ->
  attr (succeeded form successEl v) n a = attr v n a.
Proof.
  intros H. unfold succeeded.
  rewrite (attr_same _ _ (same_document_focus _ _)).
  destruct H as [H|[H1 H2]].
  - rewrite attr_update_keep.
    + apply attr_hide_all_other. by left.
    + intros e. simpl. by rewrite lookup_delete_ne.
  - rewrite attr_update_ne by done. apply attr_hide_all_other. by right.
Qed.

Lemma success_is_not_submit : successEl <> submitBtn.
Proof.
  intros E.
  pose proof (su_found _ _ _ _ _ _ _ page) as Hs.
  pose proof (sp_submit _ _ _ _ _ _ (su_page _ _ _ _ _ _ _ page)) as Hb.
  apply by_id_lookup in Hs as (e & He & Hi).
  apply head_Some_elem_of, selected_by_id in Hb as (e' & He' & Hi').
  rewrite E in He. congruence.
Qed.

(** When the success element is shown, it is rendered and focusable: the
    request for the focus is one the browser honours. *)
Lemma success_takes_focus :
  takes_focus
    (succeeded form successEl
       (set_timers (drop 1) (awaiting submitBtn name email message w)))
    successEl.
Proof.
  pose proof controls_awaiting as Hctl.
  pose proof tree_awaiting as Htree.
  pose proof success_is_not_submit as Hne.
  set (v := set_timers (drop 1) (awaiting submitBtn name email message w)) in *.
  assert (Ht : tree (succeeded form successEl v) = tree w).
  { unfold succeeded. simpl. by rewrite tree_hide_all. }
  assert (Hown : flag (succeeded form successEl v) successEl "hidden" = false).
  { unfold flag, succeeded. rewrite (attr_same _ _ (same_document_focus _ _)).
    by rewrite attr_update_delete. }
  split; [split; [|split] | split].
  - rewrite Ht.
    pose proof (su_found _ _ _ _ _ _ _ page) as Hs.
    apply head_Some_elem_of in Hs. unfold select in Hs.
    rewrite list_elem_of_In, filter_In in Hs. destruct Hs as [Hs _].
    by apply list_elem_of_In in Hs.
  - exact Hown.
  - intros a Ha. rewrite Ht in Ha.
    destruct (su_around _ _ _ _ _ _ _ page a Ha) as [Hh Hc].
    destruct (decide (a = successEl)) as [->|Hd]; [exact Hown|].
    unfold flag. rewrite attr_succeeded_keep.
    + unfold v. rewrite attr_awaiting_keep; [exact Hh | done | by right].
    + right. split; [done|]. by rewrite Hctl.
  - unfold flag. rewrite attr_succeeded_keep by (by left).
    unfold v. rewrite attr_awaiting_keep; [|done|by left].
    exact (su_enabled _ _ _ _ _ _ _ page).
  - destruct (su_tabindex _ _ _ _ _ _ _ page) as (x & Hx & Hi).
    exists x. split; [|done].
    rewrite attr_succeeded_keep by (by left).
    unfold v. rewrite attr_awaiting_keep; [done | done | by left].
Qed.

End Run.

End SubmitValid.

(** C3. When the three fields satisfy their rules, the submit handler puts
    the submit control in its loading state (busy label, disabled) and
    starts the send; when the timer of the send has fired, every field
    group and form control of the form is hidden, and with them the submit
    control, the success element is no longer hidden and the focus is on
    it.  The success element is then rendered (neither it nor an element
    around it is hidden) and focusable (a [tabindex], not disabled), which
    is what makes the browser honour the request for the focus; the page
    supplies the [tabindex] and puts the success element outside the
    controls that get hidden. *)
Theorem C3_valid_submission_succeeds
    (w : world) (form submitBtn successEl : ref) (name email message : field_refs) :
  success_page w form submitBtn successEl name email message ->
  all_valid w name email message = true ->
  exists w1 w2,
    ContactForm.on_submit form submitBtn successEl w
      = Ok ContactForm.AwaitingSend w1 /\
    is_loading w1 submitBtn /\
    timers w1 = timers w ++ [1000%N] /\
    bind ContactForm.timer_fires
         (ContactForm.on_send_settled form submitBtn successEl) w1 = Ok tt w2 /\
    ContactForm.submission form submitBtn successEl w = Ok tt w2 /\
    (forall c, c ∈ select form_controls (Some form) w -> flag w2 c "hidden" = true) /\
    (flag w2 (r_group name) "hidden" = true /\
     flag w2 (r_group email) "hidden" = true /\
     flag w2 (r_group message) "hidden" = true) /\
    (exists c, submitBtn ∈ descendants c (tree w2) /\ flag w2 c "hidden" = true) /\
    flag w2 successEl "hidden" = false /\
    rendered w2 successEl /\
    takes_focus w2 successEl /\
    activeElement w2 = Some successEl.
Proof.
  intros page valid.
  set (w1 := awaiting submitBtn name email message w).
  set (w1' := set_timers (drop 1) w1).
  exists w1, (succeeded form successEl w1').
  pose proof (on_submit_valid w form submitBtn successEl name email message page valid)
    as Hrun.
  pose proof (controls_awaiting w form submitBtn name email message) as Hctl.
  pose proof (tree_awaiting w submitBtn name email message) as Htree.
  fold w1 in Hrun, Hctl, Htree. fold w1' in Hctl, Htree.
  assert (Hsettle : bind ContactForm.timer_fires
             (ContactForm.on_send_settled form submitBtn successEl) w1
            = Ok tt (succeeded form successEl w1')).
  { unfold bind, ContactForm.timer_fires. apply on_send_fulfilled. }
  assert (Hhidden : forall c, c ∈ select form_controls (Some form) w ->
             flag (succeeded form successEl w1') c "hidden" = true).
  { intros c Hc. unfold flag, succeeded.
    rewrite (attr_same _ _ (same_document_focus _ _)).
    rewrite attr_update_ne.
    2: { intros ->. by apply (su_success _ _ _ _ _ _ _ page). }
    rewrite Hctl. rewrite attr_hide_all_in; [done | done |].
    rewrite <- Hctl in Hc. apply select_in_heap in Hc as (e & -> & _). done. }
  split; [done|]. split.
  { unfold w1, awaiting, is_loading.
    pose proof (loading_is_loading submitBtn
      (validated name email message (set_defaultPrevented true w))) as Hl.
    apply Hl.
    destruct (validated_heap_only name email message (set_defaultPrevented true w))
      as [F HF].
    pose proof (sp_submit _ _ _ _ _ _ (su_page _ _ _ _ _ _ _ page)) as Hb.
    apply head_Some_elem_of, select_in_heap in Hb as (e & He & _).
    unfold validated, mark. rewrite !heap_marked. exact (mk_is_Some _ _ He). }
  split.
  { unfold w1, awaiting. simpl.
    destruct (validated_heap_only name email message (set_defaultPrevented true w))
      as [F ->]. done. }
  split; [done|]. split.
  { unfold ContactForm.submission. rewrite (bind_Ok _ _ _ _ _ Hrun). exact Hsettle. }
  split; [done|]. split.
  { destruct (su_groups _ _ _ _ _ _ _ page) as (G1 & G2 & G3).
    repeat split; by apply Hhidden. }
  split.
  { destruct (su_actions _ _ _ _ _ _ _ page) as (c & Hc & Hin).
    exists c. split; [|by apply Hhidden].
    unfold succeeded. simpl. by rewrite tree_hide_all, Htree. }
  pose proof (success_takes_focus w form submitBtn successEl name email message page)
    as Hfocus.
  fold w1 in Hfocus. fold w1' in Hfocus.
  pose proof Hfocus as [Hrendered _].
  pose proof Hrendered as (_ & Hown & _).
  split; [exact Hown|]. split; [exact Hrendered|]. split; [exact Hfocus | done].
Qed.

Lemma descendants_holder r t n : n ∈ descendants r t -> r ∈ t.*1.
Proof.
  induction t as [|[m d] rest IH]; simpl; [by intros H; apply elem_of_nil in H|].
  destruct (decide (m = r)) as [->|Hne].
  - intros _. apply list_elem_of_here.
  - rewrite bool_decide_eq_false_2 by done. intros H.
    apply list_elem_of_further. by apply IH.
Qed.

Lemma sample_success_page n e m :
  success_page (Sample.contact_page n e m) Sample.form_ref Sample.submit_ref
    Sample.success_ref sample_name sample_email sample_message.
Proof.
  split.
  - apply sample_submit_page.
  - reflexivity.
  - repeat split; apply (bool_decide_unpack _); by vm_compute.
  - exists 11%nat. split; apply (bool_decide_unpack _); by vm_compute.
  - apply (bool_decide_unpack _). by vm_compute.
  - reflexivity.
  - exists "-1". by split.
  - reflexivity.
  - intros a Ha.
    pose proof (descendants_holder _ _ _ Ha) as Hin.
    change (a ∈ [0; 1; 2; 3; 4; 5; 6; 7; 8; 9; 10; 11; 12; 13]%nat) in Hin.
    repeat (apply elem_of_cons in Hin as [->|Hin]);
      try (by apply elem_of_nil in Hin);
      first [ by (apply (bool_decide_pack _) in Ha; vm_compute in Ha)
            | split; [reflexivity | apply (bool_decide_unpack _); by vm_compute] ].
Defined.

Lemma C3_valid_submission_succeeds_witness :
  let w := Sample.contact_page (JsString.lit "Al") (JsString.lit "a@b.c")
                               (JsString.lit "this is long enough") in
  exists w1 w2,
    ContactForm.on_submit Sample.form_ref Sample.submit_ref Sample.success_ref w
      = Ok ContactForm.AwaitingSend w1 /\
    is_loading w1 Sample.submit_ref /\
    timers w1 = timers w ++ [1000%N] /\
    bind ContactForm.timer_fires
         (ContactForm.on_send_settled Sample.form_ref Sample.submit_ref
            Sample.success_ref) w1 = Ok tt w2 /\
    ContactForm.submission Sample.form_ref Sample.submit_ref Sample.success_ref w
      = Ok tt w2 /\
    (forall c, c ∈ select form_controls (Some Sample.form_ref) w ->
               flag w2 c "hidden" = true) /\
    (flag w2 (r_group sample_name) "hidden" = true /\
     flag w2 (r_group sample_email) "hidden" = true /\
     flag w2 (r_group sample_message) "hidden" = true) /\
    (exists c, Sample.submit_ref ∈ descendants c (tree w2) /\
               flag w2 c "hidden" = true) /\
    flag w2 Sample.success_ref "hidden" = false /\
    rendered w2 Sample.success_ref /\
    takes_focus w2 Sample.success_ref /\
    activeElement w2 = Some Sample.success_ref.
Proof.
  apply C3_valid_submission_succeeds.
  - apply sample_success_page.
  - reflexivity.
Defined.

(** ** C10 *)

Lemma setSubmitLoading_run_any submitBtn b w :
  ContactForm.setSubmitLoading submitBtn b w
  = Ok tt (set_tree (remove_descendants submitBtn) (loading submitBtn b w)).
Proof.
  unfold ContactForm.setSubmitLoading, bind, setAttribute, set_flag, modify.
  destruct b; reflexivity.
Qed.

(** C10. When the input of a field is not in the document, [validateField]
    answers null and leaves the document as it was; [validateAll] therefore
    answers true as soon as the fields that are present pass, and the
    submit handler goes on to the send. *)
Theorem C10_missing_field_counts_as_valid :
  (forall w config,
     by_id w (el config) = None ->
     ContactForm.validateField config w = Ok None w) /\
  (forall w form submitBtn successEl name email message,
     form_slots w name email message ->
     verdict w ContactForm.name_config name = None ->
     verdict w ContactForm.email_config email = None ->
     verdict w ContactForm.message_config message = None ->
     exists w1 w2,
       ContactForm.validateAll w = Ok true w1 /\
       (name = None -> email = None -> message = None -> w1 = w) /\
       ContactForm.on_submit form submitBtn successEl w
         = Ok ContactForm.AwaitingSend w2 /\
       timers w2 = timers w ++ [1000%N]).
Proof.
  split; [intros w config; apply validateField_missing|].
  intros w form submitBtn successEl name email message Hf HN HE HS.
  assert (Hall : all_valid_slots w name email message = true).
  { unfold all_valid_slots. by rewrite HN, HE, HS. }
  eexists _, _. split; [|split; [|split]].
  - rewrite (validateAll_slots w name email message Hf), Hall. reflexivity.
  - by intros -> -> ->.
  - rewrite (on_submit_validates_slots w form submitBtn successEl _ _ _ Hf).
    rewrite Hall. cbn [negb].
    rewrite (bind_Ok _ _ _ _ _ (setSubmitLoading_run_any _ _ _)). reflexivity.
  - unfold validated_slots, mark_slot, mark.
    destruct name, email, message; simpl;
      repeat match goal with
      | |- context [marked ?i ?e ?g ?err ?w] =>
          let F := fresh "F" in
          destruct (marked_heap_only i e g err w) as [F ->]
      end; reflexivity.
Qed.

Lemma C10_missing_field_counts_as_valid_witness :
  exists w1 w2,
    ContactForm.validateAll Sample.bare_form = Ok true w1 /\
    ((None : option field_refs) = None -> (None : option field_refs) = None ->
     (None : option field_refs) = None -> w1 = Sample.bare_form) /\
    ContactForm.on_submit Sample.form_ref Sample.submit_ref Sample.success_ref
      Sample.bare_form = Ok ContactForm.AwaitingSend w2 /\
    timers w2 = timers Sample.bare_form ++ [1000%N].
Proof.
  apply (proj2 C10_missing_field_counts_as_valid Sample.bare_form
           Sample.form_ref Sample.submit_ref Sample.success_ref None None None).
  - split; reflexivity.
  - reflexivity.
  - reflexivity.
  - reflexivity.
Defined.

(** ** C5 *)

(** C5. An input event on a field that is marked invalid clears the marker
    of the group, the error text and the invalid flag, whatever the field
    now holds and whatever its rule is; on a field that is not marked
    invalid it changes nothing.  The rule runs on blur, which shows its
    verdict. *)
Theorem C5_input_clears_blur_validates
    (w : world) (config : field_config) (r : field_refs) :
  field_on w config r ->
  (attr w (r_input r) "aria-invalid" = Some "true" ->
   exists w',
     ContactForm.on_input config (r_input r) w = Ok tt w' /\
     shows_no_error w' r /\
     forall n, value_of w' n = value_of w n) /\
  (attr w (r_input r) "aria-invalid" <> Some "true" ->
   ContactForm.on_input config (r_input r) w = Ok tt w) /\
  (forall rule,
     ContactForm.on_input
       (FieldConfig (el config) (errorEl config) (groupEl config) rule)
       (r_input r) w
     = ContactForm.on_input config (r_input r) w) /\
  ContactForm.on_blur config w
    = Ok tt (mark r (validate config (value_of w (r_input r))) w).
Proof.
  intros Hf. split; [|split; [|split]].
  - intros Ha. exists (mark r None w). split; [|split].
    + unfold ContactForm.on_input, bind, getAttribute. rewrite Ha.
      rewrite bool_decide_true by done. by apply clearError_run.
    + exact (marked_shows config w _ _ _ None Hf).
    + intros n. apply value_marked.
  - intros Ha. unfold ContactForm.on_input, bind, getAttribute.
    by rewrite bool_decide_false.
  - intros rule. reflexivity.
  - unfold ContactForm.on_blur, bind.
    by rewrite (validateField_run config w _ _ _ Hf).
Qed.

Lemma C5_input_clears_blur_validates_witness :
  let w := mark sample_name (Some "Name is required.")
             (Sample.contact_page (JsString.lit "") (JsString.lit "") (JsString.lit "")) in
  let config := ContactForm.name_config in
  let r := sample_name in
  (attr w (r_input r) "aria-invalid" = Some "true" ->
   exists w',
     ContactForm.on_input config (r_input r) w = Ok tt w' /\
     shows_no_error w' r /\
     forall n, value_of w' n = value_of w n) /\
  (attr w (r_input r) "aria-invalid" <> Some "true" ->
   ContactForm.on_input config (r_input r) w = Ok tt w) /\
  (forall rule,
     ContactForm.on_input
       (FieldConfig (el config) (errorEl config) (groupEl config) rule)
       (r_input r) w
     = ContactForm.on_input config (r_input r) w) /\
  ContactForm.on_blur config w
    = Ok tt (mark r (validate config (value_of w (r_input r))) w).
Proof.
  apply C5_input_clears_blur_validates.
  split; reflexivity.
Defined.

(** ** The tree: inserting a sibling *)

Section TreeInsert.

Implicit Types (t l : list (ref * nat)) (d : nat).

Lemma deeper_run_all d t : all_deeper d (deeper_run d t).
Proof.
  induction t as [|[n d'] r IH]; simpl; [constructor|].
  destruct (d <? d')%nat eqn:E; [|constructor].
  constructor; [|done]. simpl. by apply Nat.ltb_lt.
Qed.

Lemma run_split d t : t = deeper_run d t ++ after_run d t.
Proof.
  induction t as [|[n d'] r IH]; simpl; [done|].
  destruct (d <? d')%nat; simpl; [by f_equal | done].
Qed.

Lemma deeper_run_app d l l' :
  all_deeper d l -> deeper_run d (l ++ l') = l ++ deeper_run d l'.
Proof.
  induction 1 as [|[n d'] l Hx Hl IH]; simpl; [done|].
  simpl in Hx. apply Nat.ltb_lt in Hx. by rewrite Hx, IH.
Qed.

Lemma all_deeper_weaken d d' l : (d <= d')%nat -> all_deeper d' l -> all_deeper d l.
Proof. intros H Hl. eapply Forall_impl; [exact Hl|]. intros x. simpl. lia. Qed.

Lemma descendants_sub r t n : n ∈ descendants r t -> n ∈ t.*1.
Proof.
  induction t as [|[m d] rest IH]; simpl; [done|].
  case_bool_decide as Hm.
  - intros H. right. rewrite (run_split d rest), fmap_app. set_solver.
  - intros H. right. by apply IH.
Qed.

Lemma insert_after_head a new n d rest :
  exists rest', insert_after a new ((n, d) :: rest) = (n, d) :: rest'.
Proof. simpl. case_bool_decide; eauto. Qed.

(** Inside the run of a deeper element, the new sibling lands in the run. *)
Lemma deeper_run_insert_after d a new t :
  a ∈ (deeper_run d t).*1 ->
  exists l1 l2 da,
    deeper_run d t = l1 ++ l2 /\
    deeper_run d (insert_after a new t) = l1 ++ (new, da) :: l2.
Proof.
  induction t as [|[m d'] rest IH]; simpl; [by intros H%elem_of_nil|].
  destruct (d <? d')%nat eqn:E; [|by intros H%elem_of_nil].
  case_bool_decide as Hm.
  - intros _. subst m. simpl. rewrite E.
    exists ((a, d') :: deeper_run d' rest), (deeper_run d (after_run d' rest)), d'.
    apply Nat.ltb_lt in E.
    assert (Hall : all_deeper d (deeper_run d' rest)).
    { eapply all_deeper_weaken; [|apply deeper_run_all]. lia. }
    split.
    + simpl. f_equal. rewrite (run_split d' rest) at 1.
      by apply deeper_run_app.
    + simpl. f_equal. rewrite deeper_run_app by done. f_equal.
      simpl. apply Nat.ltb_lt in E. by rewrite E.
  - simpl. rewrite E. intros Ha. apply elem_of_cons in Ha as [->|Ha]; [done|].
    destruct (IH Ha) as (l1 & l2 & da & H1 & H2).
    exists ((m, d') :: l1), l2, da. simpl. by rewrite H1, H2.
Qed.

Lemma descendants_insert_after f a new t :
  NoDup t.*1 -> a ∈ descendants f t ->
  exists l1 l2 : list ref,
    descendants f t = l1 ++ l2 /\
    descendants f (insert_after a new t) = l1 ++ new :: l2.
Proof.
  induction t as [|[m d] rest IH]; simpl; [by intros _ H%elem_of_nil|].
  intros Hnd Ha. apply NoDup_cons in Hnd as [Hm Hnd].
  case_bool_decide as Hf.
  - subst m. assert (a <> f).
    { intros ->. apply Hm. rewrite (run_split d rest), fmap_app. set_solver. }
    rewrite bool_decide_false by done. simpl. rewrite bool_decide_true by done.
    destruct (deeper_run_insert_after d a new rest Ha) as (l1 & l2 & da & H1 & H2).
    exists l1.*1, l2.*1. by rewrite H1, H2, !fmap_app.
  - assert (m <> a).
    { intros ->. apply Hm. by eapply descendants_sub. }
    rewrite bool_decide_false by done. simpl. rewrite bool_decide_false by done.
    by apply IH.
Qed.

(** The new sibling holds nothing. *)
Lemma descendants_new a new t :
  new ∉ t.*1 -> a ∈ t.*1 -> descendants new (insert_after a new t) = [].
Proof.
  induction t as [|[m d] rest IH]; simpl; [by intros _ H%elem_of_nil|].
  intros Hnew Ha. case_bool_decide as Hm; simpl.
  - rewrite bool_decide_false by set_solver.
    assert (Hrun : new ∉ (deeper_run d rest).*1).
    { intros H. apply Hnew. right. rewrite (run_split d rest), fmap_app. set_solver. }
    clear -Hrun. induction (deeper_run d rest) as [|[x dx] l IH]; simpl.
    + rewrite bool_decide_true by done.
      destruct (after_run d rest) as [|[y dy] r] eqn:E; [done|]. simpl.
      destruct (d <? dy)%nat eqn:Ed; [|done].
      exfalso. clear -E Ed. induction rest as [|[z dz] r' IH]; [done|].
      simpl in E. destruct (d <? dz)%nat eqn:Ez; [by apply IH|].
      congruence.
    + rewrite bool_decide_false by set_solver. apply IH. set_solver.
  - rewrite bool_decide_false by set_solver. apply IH; set_solver.
Qed.

(** An element that holds nothing still holds nothing. *)
Lemma descendants_leaf_insert_after x a new t :
  x <> new -> descendants x t = [] -> descendants x (insert_after a new t) = [].
Proof.
  intros Hx. induction t as [|[m d] rest IH]; simpl; [done|].
  destruct (decide (m = a)) as [->|Hma].
  - rewrite (bool_decide_true (a = a)) by done. simpl.
    case_bool_decide as Hax.
    + intros H%fmap_nil_inv. rewrite H. simpl. by rewrite Nat.ltb_irrefl.
    + rewrite (run_split d rest) at 1.
      pose proof (deeper_run_all d rest) as Hall.
      induction Hall as [|[y dy] l Hy Hl IHl]; simpl.
      * rewrite bool_decide_false by done. done.
      * simpl in Hy. case_bool_decide as Hyx.
        -- destruct l as [|[z dz] l']; simpl.
           ++ intros _. assert (Hd : (d <? dy)%nat = true) by (by apply Nat.ltb_lt). destruct (dy <? d)%nat eqn:Ef; [apply Nat.ltb_lt in Ef; lia | done].
           ++ destruct (dy <? dz)%nat; [by intros H%fmap_nil_inv | done].
        -- apply IHl.
  - rewrite (bool_decide_false (m = a)) by done. simpl.
    case_bool_decide as Hmx; [|apply IH].
    intros H%fmap_nil_inv.
    destruct rest as [|[y dy] r]; [done|].
    destruct (insert_after_head a new y dy r) as [r' ->].
    simpl in *. destruct (d <? dy)%nat; done.
Qed.

End TreeInsert.

(** ** C4 *)

Lemma scope_sub root t n : n ∈ scope root t -> n ∈ t.*1.
Proof. destruct root; simpl; [apply descendants_sub | done]. Qed.

Lemma select_sub sel root w n : n ∈ select sel root w -> n ∈ scope root (tree w).
Proof. unfold select. rewrite !list_elem_of_In, filter_In. tauto. Qed.

Lemma select_insert_fresh sel root n e w :
  n ∉ (tree w).*1 ->
  select sel root (set_heap (insert n e) w) = select sel root w.
Proof.
  intros Hn. unfold select. simpl. apply filter_ext_in.
  intros m Hm. apply list_elem_of_In, scope_sub in Hm.
  unfold ref_matches. rewrite lookup_insert_ne; [done|]. by intros ->.
Qed.

Lemma fresh_not_in_tree w :
  (forall n, n ∈ (tree w).*1 -> is_Some (heap w !! n)) ->
  fresh (dom (heap w)) ∉ (tree w).*1.
Proof.
  intros H Hin. apply H in Hin as [e He].
  pose proof (is_fresh (dom (heap w))) as Hf.
  apply not_elem_of_dom in Hf. congruence.
Qed.

Lemma showSubmitError_first w form submitBtn actions message :
  failure_page w form submitBtn ->
  head (select (sel_class "form-actions") (Some form) w) = Some actions ->
  ContactForm.showSubmitError form message w
  = Ok tt (error_created actions (fresh (dom (heap w))) message w).
Proof.
  intros page Ha.
  pose proof (fresh_not_in_tree w (fp_heap _ _ _ page)) as Hfresh.
  set (n := fresh (dom (heap w))) in *.
  unfold ContactForm.showSubmitError.
  rewrite (bind_Ok _ _ w None w).
  2: { unfold qs. by rewrite (fp_first _ _ _ page). }
  unfold bind at 2. unfold createElement. fold n.
  unfold bind at 2. unfold setAttribute at 1, modify.
  unfold bind at 2. unfold setAttribute at 1, modify.
  unfold bind at 2. unfold setAttribute at 1, modify.
  unfold bind at 2. unfold classList_add at 1, modify.
  unfold bind at 1. cbv beta. fold n.
  set (w4 := update n _ _).
  assert (Hsel : select (sel_class "form-actions") (Some form) w4
                 = select (sel_class "form-actions") (Some form) w).
  { unfold w4. rewrite !select_update.
    - by apply select_insert_fresh.
    - by apply stable_insert.
    - by apply stable_insert.
    - by apply stable_insert.
    - by apply stable_class_add. }
  rewrite (bind_Ok _ _ w4 (Some actions) w4).
  2: { unfold qs. by rewrite Hsel, Ha. }
  unfold deref, bind, ret, after.
  assert (Hin : actions ∈ (tree w).*1).
  { apply head_Some_elem_of, select_sub, scope_sub in Ha. exact Ha. }
  rewrite set_textContent_leaf.
  2: { unfold leaf. simpl. by apply descendants_new. }
  f_equal. unfold error_created, w4, update, set_tree, set_heap. simpl.
  rewrite !alter_insert_eq. reflexivity.
Qed.


Lemma filter_nil_not {A} (P : A -> bool) l x :
  List.filter P l = [] -> x ∈ l -> P x = false.
Proof.
  intros H Hx. destruct (P x) eqn:E; [|done].
  assert (In x (List.filter P l)) as Hin.
  { apply filter_In. split; [by apply list_elem_of_In | done]. }
  rewrite H in Hin. destruct Hin.
Qed.

Section Failure.

Variables (w : world) (form submitBtn successEl actions : ref).
Hypothesis page : failure_page w form submitBtn.
Hypothesis Ha : head (select (sel_class "form-actions") (Some form) w) = Some actions.

Let n := fresh (dom (heap w)).
Let msg := ContactForm.submit_error_message.
Let w1 := loading submitBtn false (error_created actions n msg w).

Lemma fresh_None : heap w !! n = None.
Proof. apply not_elem_of_dom, is_fresh. Qed.

Lemma fresh_not_tree : n ∉ (tree w).*1.
Proof. apply fresh_not_in_tree, page. Qed.

Lemma submit_not_fresh : submitBtn <> n.
Proof.
  intros E. destruct (fp_btn _ _ _ page) as [e He].
  rewrite E, fresh_None in He. done.
Qed.

Lemma actions_in_form : actions ∈ descendants form (tree w).
Proof. apply head_Some_elem_of, select_sub in Ha. exact Ha. Qed.

Lemma leaf_submit_created : leaf (error_created actions n msg w) submitBtn.
Proof.
  unfold leaf. simpl. apply descendants_leaf_insert_after.
  - apply submit_not_fresh.
  - apply page.
Qed.

Lemma leaf_new_created : leaf (error_created actions n msg w) n.
Proof.
  unfold leaf. simpl. apply descendants_new; [apply fresh_not_tree|].
  eapply descendants_sub, actions_in_form.
Qed.

Lemma on_send_rejected_first :
  ContactForm.on_send_settled form submitBtn successEl ContactForm.Rejected w
  = Ok tt w1.
Proof.
  unfold ContactForm.on_send_settled, try_catch, throw.
  rewrite (bind_Ok _ _ _ _ _ (showSubmitError_first w form submitBtn actions _ page Ha)).
  apply setSubmitLoading_run. apply leaf_submit_created.
Qed.

Lemma select_error_created :
  select (sel_id "submit-error") (Some form) (error_created actions n msg w) = [n].
Proof.
  unfold select. simpl.
  destruct (descendants_insert_after form actions n (tree w)
              (fp_nodup _ _ _ page) actions_in_form) as (l1 & l2 & H1 & H2).
  rewrite H2.
  assert (Hold : forall m, m ∈ l1 ++ l2 ->
            ref_matches (sel_id "submit-error")
              (<[n := new_error_element msg]> (heap w)) m = false).
  { intros m Hm. rewrite <- H1 in Hm.
    assert (m <> n).
    { intros ->. apply fresh_not_tree. by eapply descendants_sub. }
    unfold ref_matches. rewrite lookup_insert_ne by done.
    apply (filter_nil_not _ _ _ (fp_first _ _ _ page)). exact Hm. }
  rewrite List.filter_app. simpl.
  assert (ref_matches (sel_id "submit-error")
            (<[n := new_error_element msg]> (heap w)) n = true) as ->.
  { unfold ref_matches. by rewrite lookup_insert_eq. }
  assert (Hnil : forall l : list ref, (forall m, m ∈ l -> m ∈ l1 ++ l2) ->
            List.filter (ref_matches (sel_id "submit-error")
              (<[n := new_error_element msg]> (heap w))) l = []).
  { induction l as [|x l IH]; intros Hl; [done|]. simpl.
    rewrite Hold by (apply Hl; left). apply IH. intros m Hm. apply Hl. by right. }
  rewrite !Hnil; [done | set_solver | set_solver].
Qed.

Lemma select_error_w1 : select (sel_id "submit-error") (Some form) w1 = [n].
Proof.
  unfold w1. rewrite select_loading by done. apply select_error_created.
Qed.

Lemma value_error_created m :
  value_of (error_created actions n msg w) m = value_of w m.
Proof.
  unfold value_of, error_created. simpl.
  destruct (decide (m = n)) as [->|Hne].
  - by rewrite lookup_insert_eq, fresh_None.
  - by rewrite lookup_insert_ne.
Qed.

Lemma value_loading b v m : value_of (loading submitBtn b v) m = value_of v m.
Proof. unfold loading. by rewrite !value_update_keep. Qed.

Lemma heap_error_created_new :
  heap (error_created actions n msg w) !! n = Some (new_error_element msg).
Proof. unfold error_created. simpl. apply lookup_insert_eq. Qed.

Lemma attr_loading_other b v m a :
  m <> submitBtn -> attr (loading submitBtn b v) m a = attr v m a.
Proof. intros H. unfold loading. by rewrite !attr_update_ne. Qed.

Lemma text_loading_other b v m :
  m <> submitBtn -> text_of (loading submitBtn b v) m = text_of v m.
Proof. intros H. unfold loading. by rewrite !text_update_ne. Qed.

Lemma is_Some_heap_loading b v m :
  is_Some (heap (loading submitBtn b v) !! m) <-> is_Some (heap v !! m).
Proof. unfold loading. by rewrite !is_Some_heap_update. Qed.

Lemma leaf_loading b v m : leaf (loading submitBtn b v) m <-> leaf v m.
Proof. done. Qed.

End Failure.

(** A failure handled on a page whose error element exists already. *)
Lemma showSubmitError_again v form errEl message :
  head (select (sel_id "submit-error") (Some form) v) = Some errEl ->
  leaf v errEl ->
  ContactForm.showSubmitError form message v
  = Ok tt (update errEl (with_textContent message) v).
Proof.
  intros Hsel Hl. unfold ContactForm.showSubmitError.
  rewrite (bind_Ok _ _ v (Some errEl) v) by (unfold qs; by rewrite Hsel).
  rewrite (bind_Ok _ _ v errEl v) by reflexivity.
  by apply set_textContent_leaf.
Qed.

Lemma on_send_rejected_again v form submitBtn successEl errEl :
  head (select (sel_id "submit-error") (Some form) v) = Some errEl ->
  leaf v errEl -> leaf v submitBtn ->
  ContactForm.on_send_settled form submitBtn successEl ContactForm.Rejected v
  = Ok tt (loading submitBtn false
             (update errEl (with_textContent ContactForm.submit_error_message) v)).
Proof.
  intros Hsel Hl Hb.
  unfold ContactForm.on_send_settled, try_catch, throw.
  rewrite (bind_Ok _ _ _ _ _ (showSubmitError_again v form errEl _ Hsel Hl)).
  by apply setSubmitLoading_run.
Qed.


Lemma sample_failure_page n e m :
  failure_page (Sample.contact_page n e m) Sample.form_ref Sample.submit_ref.
Proof.
  split.
  - apply (bool_decide_unpack _). by vm_compute.
  - intros x Hx.
    change ((tree (Sample.contact_page n e m)).*1)
      with [0; 1; 2; 3; 4; 5; 6; 7; 8; 9; 10; 11; 12; 13]%nat in Hx.
    repeat (apply elem_of_cons in Hx as [->|Hx]; [by eexists|]).
    by apply elem_of_nil in Hx.
  - discriminate.
  - reflexivity.
  - by eexists.
  - reflexivity.
Defined.


(** Without a [.form-actions] element in the form the failure branch stops
    at [qs('.form-actions', form).after(errEl)]: the call on null throws
    inside the [catch] block, before the submit control is reset. *)
Remark failed_send_without_form_actions :
  exists w',
    ContactForm.on_send_settled Sample.form_ref Sample.submit_ref Sample.success_ref
      ContactForm.Rejected
      (loading Sample.submit_ref true Sample.form_without_actions)
    = Throw TypeError w' /\
    flag w' Sample.submit_ref "disabled" = true /\
    select (sel_id "submit-error") None w' = [].
Proof. eexists. split; [vm_compute; reflexivity|]. split; reflexivity. Qed.

(** ** C8: the skill filter *)

Section SkillFilterRuns.

Variable filter : option string.

Lemma matches_filter_update n f w item :
  (forall e, attrs (f e) !! "data-category" = attrs e !! "data-category") ->
  matches_filter (update n f w) filter item = matches_filter w filter item.
Proof. intros H. unfold matches_filter. by rewrite attr_update_keep. Qed.

Lemma matches_filter_step w x item :
  matches_filter (filter_step filter w x) filter item = matches_filter w filter item.
Proof.
  unfold filter_step. destruct (matches_filter w filter x);
    apply matches_filter_update; intros e; simpl.
  - by rewrite lookup_delete_ne.
  - by rewrite lookup_insert_ne.
Qed.

Lemma matches_filter_step_alt w x item :
  matches_filter (filter_step_alt filter w x) filter item
  = matches_filter w filter item.
Proof.
  unfold filter_step_alt. destruct (matches_filter w filter x);
    by apply matches_filter_update.
Qed.

Lemma filter_matches_ext w w' (items : list ref) :
  (forall item, matches_filter w' filter item = matches_filter w filter item) ->
  List.filter (matches_filter w' filter) items
  = List.filter (matches_filter w filter) items.
Proof. intros H. apply filter_ext. exact H. Qed.

Lemma filter_items_run items k w :
  SkillFilter.filter_items items filter k w
  = Ok (k + length (List.filter (matches_filter w filter) items))%nat
       (filtered items filter w).
Proof.
  revert k w. induction items as [|x l IH]; intros k w; simpl.
  - unfold ret. by rewrite Nat.add_0_r.
  - unfold bind at 1. unfold getAttribute.
    fold (matches_filter w filter x). unfold filter_step.
    destruct (matches_filter w filter x) eqn:E.
    + unfold bind, removeAttribute, modify. rewrite IH.
      rewrite (filter_matches_ext w).
      * simpl. f_equal. lia.
      * intros item. apply matches_filter_update. intros e. simpl.
        by rewrite lookup_delete_ne.
    + unfold bind, setAttribute, modify. rewrite IH.
      rewrite (filter_matches_ext w); [done|].
      intros item. apply matches_filter_update. intros e. simpl.
      by rewrite lookup_insert_ne.
Qed.

Lemma filter_items_alt_run items k w :
  SkillFilterAlt.filter_items items filter k w
  = Ok (k + length (List.filter (matches_filter w filter) items))%nat
       (filtered_alt items filter w).
Proof.
  revert k w. induction items as [|x l IH]; intros k w; simpl.
  - unfold ret. by rewrite Nat.add_0_r.
  - unfold bind at 1. unfold getAttribute.
    fold (matches_filter w filter x). unfold filter_step_alt.
    destruct (matches_filter w filter x) eqn:E.
    + unfold bind, set_display, modify. rewrite IH.
      rewrite (filter_matches_ext w).
      * simpl. f_equal. lia.
      * intros item. by apply matches_filter_update.
    + unfold bind, set_display, modify. rewrite IH.
      rewrite (filter_matches_ext w); [done|].
      intros item. by apply matches_filter_update.
Qed.

Lemma is_Some_heap_filtered items w n :
  is_Some (heap (filtered items filter w) !! n) <-> is_Some (heap w !! n).
Proof.
  revert w. induction items as [|x l IH]; intros w; [done|]. simpl.
  rewrite IH. unfold filter_step.
  destruct (matches_filter w filter x); apply is_Some_heap_update.
Qed.

Lemma is_Some_heap_filtered_alt items w n :
  is_Some (heap (filtered_alt items filter w) !! n) <-> is_Some (heap w !! n).
Proof.
  revert w. induction items as [|x l IH]; intros w; [done|]. simpl.
  rewrite IH. unfold filter_step_alt.
  destruct (matches_filter w filter x); apply is_Some_heap_update.
Qed.

Lemma attr_filtered_other items w n a :
  a <> "data-hidden" -> attr (filtered items filter w) n a = attr w n a.
Proof.
  intros Ha. revert w. induction items as [|x l IH]; intros w; [done|]. simpl.
  rewrite IH. unfold filter_step.
  destruct (matches_filter w filter x); apply attr_update_keep; intros e; simpl.
  - by rewrite lookup_delete_ne.
  - by rewrite lookup_insert_ne.
Qed.

Lemma attr_filtered_alt items w n a :
  attr (filtered_alt items filter w) n a = attr w n a.
Proof.
  revert w. induction items as [|x l IH]; intros w; [done|]. simpl.
  rewrite IH. unfold filter_step_alt.
  destruct (matches_filter w filter x); by apply attr_update_keep.
Qed.

Lemma hidden_filtered items w n :
  is_Some (heap w !! n) -> n ∈ items ->
  attr (filtered items filter w) n "data-hidden"
  = if matches_filter w filter n then None else Some "true".
Proof.
  revert w. induction items as [|x l IH]; intros w Hn Hin;
    [by apply elem_of_nil in Hin|].
  simpl. destruct (decide (n ∈ l)) as [Hl|Hl].
  - rewrite IH; [|by unfold filter_step; destruct (matches_filter w filter x);
                    apply is_Some_heap_update | done].
    by rewrite matches_filter_step.
  - apply elem_of_cons in Hin as [->|]; [|done].
    assert (Hkeep : forall w', attr (filtered l filter w') x "data-hidden"
                               = attr w' x "data-hidden").
    { clear -Hl. induction l as [|y l IH]; intros w'; [done|]. simpl.
      rewrite IH by set_solver. unfold filter_step.
      destruct (matches_filter w' filter y); apply attr_update_ne; set_solver. }
    rewrite Hkeep. unfold filter_step.
    destruct (matches_filter w filter x).
    + apply attr_update_delete.
    + by apply attr_update_insert.
Qed.

Lemma display_update_ne n f w m : n <> m -> display_of (update n f w) m = display_of w m.
Proof. intros H. unfold display_of, update. simpl. by rewrite lookup_alter_ne. Qed.

Lemma display_update_set n w s :
  is_Some (heap w !! n) -> display_of (update n (with_display s) w) n = Some s.
Proof.
  intros [e He]. unfold display_of, update. simpl. by rewrite lookup_alter_eq, He.
Qed.

Lemma display_update_keep n f w m :
  (forall e, style_display (f e) = style_display e) ->
  display_of (update n f w) m = display_of w m.
Proof.
  intros H. unfold display_of, update. simpl.
  destruct (decide (n = m)) as [->|]; [|by rewrite lookup_alter_ne].
  rewrite lookup_alter_eq. destruct (heap w !! m); simpl; [by rewrite H | done].
Qed.

Lemma display_filtered_alt items w n :
  is_Some (heap w !! n) -> n ∈ items ->
  display_of (filtered_alt items filter w) n
  = Some (if matches_filter w filter n then "" else "none").
Proof.
  revert w. induction items as [|x l IH]; intros w Hn Hin;
    [by apply elem_of_nil in Hin|].
  simpl. destruct (decide (n ∈ l)) as [Hl|Hl].
  - rewrite IH; [|by unfold filter_step_alt; destruct (matches_filter w filter x);
                    apply is_Some_heap_update | done].
    by rewrite matches_filter_step_alt.
  - apply elem_of_cons in Hin as [->|]; [|done].
    assert (Hkeep : forall w', display_of (filtered_alt l filter w') x
                               = display_of w' x).
    { clear -Hl. induction l as [|y l IH]; intros w'; [done|]. simpl.
      rewrite IH by set_solver. unfold filter_step_alt.
      destruct (matches_filter w' filter y); apply display_update_ne; set_solver. }
    rewrite Hkeep. unfold filter_step_alt.
    destruct (matches_filter w filter x); by apply display_update_set.
Qed.

Lemma some_visible (P : ref -> bool) (items : list ref) :
  (0 <? length (List.filter P items))%nat = existsb P items.
Proof.
  induction items as [|x l IH]; [done|]. simpl.
  destruct (P x); simpl; [done | exact IH].
Qed.

Lemma flag_set_flag n a b w :
  is_Some (heap w !! n) ->
  exists w', set_flag n a b w = Ok tt w' /\ flag w' n a = b /\
    (forall m c, m <> n \/ c <> a -> attr w' m c = attr w m c) /\
    (forall m, display_of w' m = display_of w m).
Proof.
  intros Hn. unfold set_flag, setAttribute, removeAttribute, modify, flag.
  destruct b; eexists; (split; [reflexivity|]); split.
  - by rewrite attr_update_insert.
  - split; [|intros m; by apply display_update_keep].
    intros m c [H|H]; [by apply attr_update_ne|].
    apply attr_update_keep. intros e. simpl. by rewrite lookup_insert_ne.
  - by rewrite attr_update_delete.
  - split; [|intros m; by apply display_update_keep].
    intros m c [H|H]; [by apply attr_update_ne|].
    apply attr_update_keep. intros e. simpl. by rewrite lookup_delete_ne.
Qed.

End SkillFilterRuns.

(** C8. For every selected category, [applyFilter] of either source file
    leaves shown exactly the items whose category is the selected one
    (every item for "all") and hides the others, and the empty-state
    element ends up hidden exactly when some item matches, so it is visible
    if and only if no item does. *)
Theorem C8_filter_shows_matching_items
    (w : world) (skillItems : list ref) (emptyState : option ref)
    (filter : option string) :
  (forall item, item ∈ skillItems -> is_Some (heap w !! item)) ->
  (forall e, emptyState = Some e -> is_Some (heap w !! e)) ->
  (exists w',
     SkillFilter.applyFilter skillItems emptyState filter w = Ok tt w' /\
     (forall item, item ∈ skillItems ->
        item_hidden w' item = negb (matches_filter w filter item)) /\
     (filter = Some "all" ->
        forall item, item ∈ skillItems -> item_hidden w' item = false) /\
     (forall e, emptyState = Some e ->
        flag w' e "hidden" = existsb (matches_filter w filter) skillItems)) /\
  (exists w',
     SkillFilterAlt.applyFilter skillItems emptyState filter w = Ok tt w' /\
     (forall item, item ∈ skillItems ->
        if matches_filter w filter item
        then item_shown_alt w' item else item_hidden_alt w' item) /\
     (filter = Some "all" ->
        forall item, item ∈ skillItems -> item_shown_alt w' item) /\
     (forall e, emptyState = Some e ->
        flag w' e "hidden" = existsb (matches_filter w filter) skillItems)).
Proof.
  intros Hitems Hempty. split.
  - unfold SkillFilter.applyFilter.
    rewrite (bind_Ok _ _ _ _ _ (filter_items_run filter skillItems 0 w)).
    simpl. rewrite some_visible.
    set (v := filtered skillItems filter w).
    assert (Hhid : forall item, item ∈ skillItems ->
              attr v item "data-hidden"
              = if matches_filter w filter item then None else Some "true").
    { intros item Hin. apply hidden_filtered; [by apply Hitems | done]. }
    destruct emptyState as [e|].
    + destruct (flag_set_flag e "hidden"
                  (existsb (matches_filter w filter) skillItems) v)
        as (w' & Hrun & Hflag & Hattr & _).
      { apply is_Some_heap_filtered. by apply Hempty. }
      exists w'. split; [done|].
      assert (Hh : forall item, item ∈ skillItems ->
                item_hidden w' item = negb (matches_filter w filter item)).
      { intros item Hin. unfold item_hidden, flag.
        rewrite Hattr by (by right). rewrite (Hhid item Hin).
        by destruct (matches_filter w filter item). }
      split; [done|]. split.
      * intros -> item Hin. by rewrite Hh.
      * by intros e' [= <-].
    + exists v. split; [done|].
      assert (Hh : forall item, item ∈ skillItems ->
                item_hidden v item = negb (matches_filter w filter item)).
      { intros item Hin. unfold item_hidden, flag. rewrite (Hhid item Hin).
        by destruct (matches_filter w filter item). }
      split; [done|]. split; [|done].
      intros -> item Hin. by rewrite Hh.
  - unfold SkillFilterAlt.applyFilter.
    rewrite (bind_Ok _ _ _ _ _ (filter_items_alt_run filter skillItems 0 w)).
    simpl. rewrite some_visible.
    set (v := filtered_alt skillItems filter w).
    assert (Hdis : forall item, item ∈ skillItems ->
              display_of v item
              = Some (if matches_filter w filter item then "" else "none")).
    { intros item Hin. apply display_filtered_alt; [by apply Hitems | done]. }
    destruct emptyState as [e|].
    + destruct (flag_set_flag e "hidden"
                  (existsb (matches_filter w filter) skillItems) v)
        as (w' & Hrun & Hflag & _ & Hdisp).
      { apply is_Some_heap_filtered_alt. by apply Hempty. }
      exists w'. split; [done|].
      assert (Hh : forall item, item ∈ skillItems ->
                if matches_filter w filter item
                then item_shown_alt w' item else item_hidden_alt w' item).
      { intros item Hin. unfold item_shown_alt, item_hidden_alt.
        rewrite Hdisp, (Hdis item Hin).
        by destruct (matches_filter w filter item). }
      split; [done|]. split.
      * intros -> item Hin. exact (Hh item Hin).
      * by intros e' [= <-].
    + exists v. split; [done|].
      assert (Hh : forall item, item ∈ skillItems ->
                if matches_filter w filter item
                then item_shown_alt v item else item_hidden_alt v item).
      { intros item Hin. unfold item_shown_alt, item_hidden_alt.
        rewrite (Hdis item Hin). by destruct (matches_filter w filter item). }
      split; [done|]. split; [|done].
      intros -> item Hin. exact (Hh item Hin).
Qed.

Lemma C8_filter_shows_matching_items_witness :
  let w := Sample.skills_page in
  let filter := Some "design" in
  (exists w',
     SkillFilter.applyFilter Sample.skill_items (Some Sample.skills_empty) filter w
       = Ok tt w' /\
     (forall item, item ∈ Sample.skill_items ->
        item_hidden w' item = negb (matches_filter w filter item)) /\
     (filter = Some "all" ->
        forall item, item ∈ Sample.skill_items -> item_hidden w' item = false) /\
     (forall e, Some Sample.skills_empty = Some e ->
        flag w' e "hidden" = existsb (matches_filter w filter) Sample.skill_items)) /\
  (exists w',
     SkillFilterAlt.applyFilter Sample.skill_items (Some Sample.skills_empty) filter w
       = Ok tt w' /\
     (forall item, item ∈ Sample.skill_items ->
        if matches_filter w filter item
        then item_shown_alt w' item else item_hidden_alt w' item) /\
     (filter = Some "all" ->
        forall item, item ∈ Sample.skill_items -> item_shown_alt w' item) /\
     (forall e, Some Sample.skills_empty = Some e ->
        flag w' e "hidden" = existsb (matches_filter w filter) Sample.skill_items)).
Proof.
  apply C8_filter_shows_matching_items.
  - intros item Hin. unfold Sample.skill_items in Hin.
    repeat (apply elem_of_cons in Hin as [->|Hin]; [by eexists|]).
    by apply elem_of_nil in Hin.
  - intros e [= <-]. by eexists.
Defined.

(** The three selections of the specification on the sample list: "design"
    shows the two design items, "all" shows every item, and "ops", which
    matches nothing, brings up the empty state. *)
Remark example_filters_on_the_sample_list :
  let run filter :=
    match SkillFilter.applyFilter Sample.skill_items (Some Sample.skills_empty)
            (Some filter) Sample.skills_page with
    | Ok _ w' => (map (item_hidden w') Sample.skill_items,
                  flag w' Sample.skills_empty "hidden")
    | Throw _ _ => ([], false)
    end in
  run "design" = ([false; true; false], true) /\
  run "all" = ([false; false; false], true) /\
  run "ops" = ([true; true; true], false).
Proof. repeat split. Qed.

(** ** C6: the accordion *)

Section Accordion.

Import Experience.

Lemma flag_update_ne n f w m a : n <> m -> flag (update n f w) m a = flag w m a.
Proof. intros H. unfold flag. by rewrite attr_update_ne. Qed.

Lemma flag_update_keep n f w m a :
  (forall e, attrs (f e) !! a = attrs e !! a) ->
  flag (update n f w) m a = flag w m a.
Proof. intros H. unfold flag. by rewrite attr_update_keep. Qed.

Lemma flag_update_delete n w a : flag (update n (with_attrs (delete a)) w) n a = false.
Proof. unfold flag. by rewrite attr_update_delete. Qed.

Lemma flag_update_insert n w a v :
  is_Some (heap w !! n) -> flag (update n (with_attrs (insert a v)) w) n a = true.
Proof. intros H. unfold flag. by rewrite attr_update_insert. Qed.

Lemma same_open_refl w : same_open w w.
Proof. done. Qed.

Lemma same_open_trans w1 w2 w3 : same_open w1 w2 -> same_open w2 w3 -> same_open w1 w3.
Proof. intros H1 H2 n. by rewrite H2, H1. Qed.

Lemma on_toggle_closed details detailsEls w :
  flag w details "open" = false -> on_toggle details detailsEls w = Ok tt w.
Proof.
  intros H. unfold on_toggle, bind, is_open, get_flag, hasAttribute.
  fold (flag w details "open"). by rewrite H.
Qed.

(** The loop of the handler closes the other entries and nothing else. *)
Lemma close_others details detailsEls w :
  exists w',
    forEach detailsEls (fun other =>
      let* oo := is_open other in
      if negb (bool_decide (other = details)) && oo
      then removeAttribute other "open"
      else ret tt) w = Ok tt w' /\
    forall n, flag w' n "open" = true <->
              flag w n "open" = true /\ (n = details \/ n ∉ detailsEls).
Proof.
  revert w. induction detailsEls as [|x l IH]; intros w.
  - exists w. split; [done|]. intros n. split; [|by intros [H _]].
    intros H. split; [done|]. right. apply not_elem_of_nil.
  - simpl. unfold bind at 1. unfold bind at 1.
    unfold is_open, get_flag, hasAttribute. fold (flag w x "open").
    destruct (negb (bool_decide (x = details)) && flag w x "open") eqn:E.
    + apply andb_true_iff in E as [Hx Ho].
      apply negb_true_iff, bool_decide_eq_false in Hx.
      unfold removeAttribute, modify.
      destruct (IH (update x (with_attrs (delete "open")) w)) as (w' & Hrun & Hw').
      exists w'. split; [exact Hrun|]. intros n. rewrite Hw', not_elem_of_cons.
      destruct (decide (n = x)) as [->|Hnx].
      * rewrite flag_update_delete. split; [by intros [? _]|].
        intros [_ [?|[Hn _]]]; done.
      * rewrite flag_update_ne by done. tauto.
    + unfold ret. destruct (IH w) as (w' & Hrun & Hw').
      exists w'. split; [exact Hrun|]. intros n. rewrite Hw', not_elem_of_cons.
      apply andb_false_iff in E as [Hx|Hx].
      * apply negb_false_iff, bool_decide_eq_true in Hx. subst x.
        destruct (decide (n = details)); tauto.
      * destruct (decide (n = x)) as [->|Hnx]; [|tauto].
        rewrite Hx. split; by intros [? _].
Qed.

Lemma on_toggle_open details detailsEls w :
  flag w details "open" = true ->
  exists w',
    on_toggle details detailsEls w = Ok tt w' /\
    forall n, flag w' n "open" = true <->
              flag w n "open" = true /\ (n = details \/ n ∉ detailsEls).
Proof.
  intros H. unfold on_toggle. unfold bind at 1.
  unfold is_open at 1, get_flag, hasAttribute. fold (flag w details "open").
  rewrite H. apply close_others.
Qed.

Lemma syncAria_same_open summary details w :
  exists w', syncAria summary details w = Ok tt w' /\ same_open w w'.
Proof.
  unfold syncAria, bind, is_open, get_flag, hasAttribute, setAttribute, modify.
  eexists. split; [reflexivity|]. intros n.
  apply flag_update_keep. intros e. simpl. by rewrite lookup_insert_ne.
Qed.

(** All the listeners of a toggle event leave open what the accordion
    handler leaves open. *)
Lemma dispatch_toggle_run details detailsEls w w1 :
  on_toggle details detailsEls w = Ok tt w1 ->
  exists w2, dispatch_toggle details detailsEls w = Ok tt w2 /\ same_open w1 w2.
Proof.
  intros H. unfold dispatch_toggle. rewrite (bind_Ok _ _ _ _ _ H).
  unfold bind, qs.
  destruct (head (select [[SelTag "summary"]] (Some details) w1)) as [s|].
  - apply syncAria_same_open.
  - exists w1. split; [done | apply same_open_refl].
Qed.

Lemma dispatch_all_closed detailsEls (l : list ref) w :
  (forall x, x ∈ l -> flag w x "open" = false) ->
  exists w', forEach l (fun other => dispatch_toggle other detailsEls) w = Ok tt w'
             /\ same_open w w'.
Proof.
  revert w. induction l as [|x l IH]; intros w Hl.
  - exists w. split; [done | apply same_open_refl].
  - simpl.
    destruct (dispatch_toggle_run x detailsEls w w) as (w1 & Hrun & Hs).
    { apply on_toggle_closed, Hl. left. }
    rewrite (bind_Ok _ _ _ _ _ Hrun).
    destruct (IH w1) as (w2 & Hrun2 & Hs2).
    { intros y Hy. rewrite Hs. apply Hl. by right. }
    exists w2. split; [done|]. by eapply same_open_trans.
Qed.

Lemma mapM_is_open (l : list ref) w :
  mapM is_open l w = Ok (map (fun n => flag w n "open") l) w.
Proof.
  induction l as [|x l IH]; [done|]. simpl.
  unfold bind at 1. unfold is_open at 1, get_flag, hasAttribute.
  fold (flag w x "open"). unfold bind. by rewrite IH.
Qed.

Lemma closed_entries_closed (l : list ref) (before after : ref -> bool) x :
  x ∈ ((fun y => y.1.1) <$>
       List.filter (fun y : ref * bool * bool => y.1.2 && negb y.2)
         (zip (zip l (map before l)) (map after l))) ->
  after x = false.
Proof.
  induction l as [|y l IH]; simpl; [by intros H%elem_of_nil|].
  destruct (before y && negb (after y)) eqn:E; simpl.
  - intros [->|H]%elem_of_cons; [|by apply IH].
    apply andb_true_iff in E as [_ E]. by apply negb_true_iff in E.
  - apply IH.
Qed.

Lemma user_toggle_run details detailsEls w :
  exists w1 w2 w',
    browser_toggle details w = Ok tt w1 /\
    (flag w1 details "open" = false -> w2 = w1) /\
    (flag w1 details "open" = true ->
     forall n, flag w2 n "open" = true <->
               flag w1 n "open" = true /\ (n = details \/ n ∉ detailsEls)) /\
    user_toggle details detailsEls w = Ok tt w' /\
    same_open w2 w'.
Proof.
  assert (exists w1, browser_toggle details w = Ok tt w1) as [w1 H1].
  { unfold browser_toggle, bind, is_open, get_flag, hasAttribute, set_flag.
    destruct (negb _); eexists; reflexivity. }
  assert (exists w2, on_toggle details detailsEls w1 = Ok tt w2 /\
            (flag w1 details "open" = false -> w2 = w1) /\
            (flag w1 details "open" = true ->
             forall n, flag w2 n "open" = true <->
               flag w1 n "open" = true /\ (n = details \/ n ∉ detailsEls)))
    as (w2 & H2 & Hc & Ho).
  { destruct (flag w1 details "open") eqn:E.
    - destruct (on_toggle_open details detailsEls w1 E) as (w2 & Hr & Hw).
      exists w2. split; [done|]. split; [done|]. by intros _.
    - exists w1. split; [by apply on_toggle_closed|]. split; [done|]. done. }
  destruct (dispatch_toggle_run details detailsEls w1 w2 H2) as (w3 & H3 & Hs3).
  destruct (dispatch_all_closed detailsEls
              ((fun y => y.1.1) <$>
                 List.filter (fun y : ref * bool * bool => y.1.2 && negb y.2)
                   (zip (zip detailsEls (map (fun n => flag w1 n "open") detailsEls))
                        (map (fun n => flag w3 n "open") detailsEls))) w3)
    as (w4 & H4 & Hs4).
  { intros x Hx.
    by apply (closed_entries_closed detailsEls _ (fun n => flag w3 n "open")) in Hx. }
  exists w1, w2, w4. split; [done|]. split; [done|]. split; [done|]. split.
  - unfold user_toggle. rewrite (bind_Ok _ _ _ _ _ H1).
    rewrite (bind_Ok _ _ _ _ _ (mapM_is_open detailsEls w1)).
    rewrite (bind_Ok _ _ _ _ _ H3).
    rewrite (bind_Ok _ _ _ _ _ (mapM_is_open detailsEls w3)).
    exact H4.
  - by eapply same_open_trans.
Qed.

Lemma browser_toggle_flags details w w1 :
  browser_toggle details w = Ok tt w1 ->
  (forall n, n <> details -> flag w1 n "open" = flag w n "open") /\
  (flag w details "open" = true -> flag w1 details "open" = false) /\
  (is_Some (heap w !! details) -> flag w details "open" = false ->
   flag w1 details "open" = true).
Proof.
  unfold browser_toggle, bind, is_open, get_flag, hasAttribute, set_flag,
    setAttribute, removeAttribute, modify.
  fold (flag w details "open").
  destruct (flag w details "open") eqn:E; simpl; intros [= <-].
  - split; [|split; [|done]].
    + intros n Hn. by apply flag_update_ne.
    + intros _. apply flag_update_delete.
  - split; [|split; [done|]].
    + intros n Hn. by apply flag_update_ne.
    + intros Hh _. by apply flag_update_insert.
Qed.

Lemma user_toggle_invariant details detailsEls w :
  at_most_one_open detailsEls w ->
  exists w', user_toggle details detailsEls w = Ok tt w' /\
             at_most_one_open detailsEls w'.
Proof.
  intros Hinv.
  destruct (user_toggle_run details detailsEls w)
    as (w1 & w2 & w' & H1 & Hc & Ho & Hrun & Hs).
  exists w'. split; [done|].
  destruct (browser_toggle_flags details w w1 H1) as (Hother & Hwas & _).
  intros a b Ha Hb Hoa Hob. rewrite Hs in Hoa, Hob.
  destruct (flag w1 details "open") eqn:E.
  - apply (Ho eq_refl) in Hoa as [_ [->|?]]; [|done].
    apply (Ho eq_refl) in Hob as [_ [->|?]]; done.
  - rewrite (Hc eq_refl) in Hoa, Hob.
    assert (a <> details) by (intros ->; congruence).
    assert (b <> details) by (intros ->; congruence).
    rewrite Hother in Hoa, Hob by done. by apply Hinv.
Qed.

Lemma user_toggle_opens details detailsEls w :
  is_Some (heap w !! details) -> flag w details "open" = false ->
  exists w', user_toggle details detailsEls w = Ok tt w' /\
             only_open detailsEls details w'.
Proof.
  intros Hh Hclosed.
  destruct (user_toggle_run details detailsEls w)
    as (w1 & w2 & w' & H1 & Hc & Ho & Hrun & Hs).
  exists w'. split; [done|].
  destruct (browser_toggle_flags details w w1 H1) as (Hother & _ & Hopen).
  specialize (Hopen Hh Hclosed). specialize (Ho Hopen).
  split.
  - rewrite Hs. apply Ho. split; [done | by left].
  - intros other Hin Hne. rewrite Hs.
    destruct (flag w2 other "open") eqn:E; [|done].
    apply Ho in E as [_ [?|?]]; done.
Qed.

End Accordion.

(** C6. Opening an entry closes every other entry, and the accordion keeps
    at most one entry open: if no two entries are open, then after any
    sequence of user toggles, each followed by its handlers, still no two
    entries are open. *)
Theorem C6_at_most_one_entry_open (w : world) (detailsEls : list ref) :
  at_most_one_open detailsEls w ->
  (forall details,
     is_Some (heap w !! details) -> flag w details "open" = false ->
     exists w',
       Experience.user_toggle details detailsEls w = Ok tt w' /\
       only_open detailsEls details w') /\
  (forall toggled : list ref,
     exists w',
       forEach toggled (fun details => Experience.user_toggle details detailsEls) w
         = Ok tt w' /\
       at_most_one_open detailsEls w').
Proof.
  intros Hinv. split.
  - intros details. apply user_toggle_opens.
  - intros toggled. revert w Hinv.
    induction toggled as [|d l IH]; intros w Hinv.
    + exists w. by split.
    + simpl.
      destruct (user_toggle_invariant d detailsEls w Hinv) as (w1 & Hrun & Hinv1).
      rewrite (bind_Ok _ _ _ _ _ Hrun). by apply IH.
Qed.

Lemma C6_at_most_one_entry_open_witness :
  (forall details,
     is_Some (heap Sample.experience_page !! details) ->
     flag Sample.experience_page details "open" = false ->
     exists w',
       Experience.user_toggle details Sample.entries Sample.experience_page
         = Ok tt w' /\
       only_open Sample.entries details w') /\
  (forall toggled : list ref,
     exists w',
       forEach toggled (fun details => Experience.user_toggle details Sample.entries)
         Sample.experience_page = Ok tt w' /\
       at_most_one_open Sample.entries w').
Proof.
  apply C6_at_most_one_entry_open.
  intros a b Ha Hb. unfold Sample.entries in *.
  repeat (apply elem_of_cons in Ha as [->|Ha]);
    try (by apply elem_of_nil in Ha);
    repeat (apply elem_of_cons in Hb as [->|Hb]);
    try (by apply elem_of_nil in Hb); by vm_compute.
Defined.

(** ** C7: the section highlight *)

Section NavHighlightRuns.

Import NavHighlight.

Lemma Qgtb_true a b : Qgtb a b = true <-> (b < a)%Q.
Proof.
  unfold Qgtb. rewrite negb_true_iff. split.
  - intros H. apply Qnot_le_lt. intros Hle. apply Qle_bool_iff in Hle. congruence.
  - intros H. destruct (Qle_bool a b) eqn:E; [|done].
    apply Qle_bool_iff in E. exfalso. by apply (Qlt_not_le b a).
Qed.

Lemma Qgtb_false a b : Qgtb a b = false <-> (a <= b)%Q.
Proof.
  unfold Qgtb. rewrite negb_false_iff. apply Qle_bool_iff.
Qed.

Lemma scan_fold_keeps (l : ratio_map) top :
  (forall x, x ∈ l -> (x.2 <= top.2)%Q) -> fold_left scan_step l top = top.
Proof.
  revert top. induction l as [|x l IH]; intros top H; [done|]. simpl.
  unfold scan_step at 2.
  assert (Qgtb x.2 top.2 = false) as -> by (apply Qgtb_false, H; left).
  apply IH. intros y Hy. apply H. by right.
Qed.

Lemma scan_fold_below (l : ratio_map) top r :
  (forall x, x ∈ l -> (x.2 < r)%Q) -> (top.2 < r)%Q ->
  ((fold_left scan_step l top).2 < r)%Q.
Proof.
  revert top. induction l as [|x l IH]; intros top H Ht; [done|]. simpl.
  apply IH; [intros y Hy; apply H; by right|].
  unfold scan_step. destruct (Qgtb x.2 top.2); [|done]. simpl. apply H. left.
Qed.

(** The scan answers the first section that reports the highest ratio. *)
Lemma scan_first_top m k r :
  first_top m k r -> (0 < r)%Q -> scan m = (Some k, r).
Proof.
  intros (l1 & l2 & -> & H1 & H2) Hr. unfold scan.
  rewrite fold_left_app. simpl.
  pose proof (scan_fold_below l1 (None, 0%Q) r H1 Hr) as Hb.
  unfold scan_step at 2. simpl.
  assert (Qgtb r (fold_left scan_step l1 (None, 0%Q)).2 = true) as ->
    by by apply Qgtb_true.
  by apply scan_fold_keeps.
Qed.

Lemma scan_all_zero m :
  (forall x, x ∈ m -> (x.2 <= 0)%Q) -> scan m = (None, 0%Q).
Proof. intros H. unfold scan. by apply scan_fold_keeps. Qed.

Lemma record_entries_run entries m w :
  record_entries entries m w = Ok (recorded w entries m) w.
Proof.
  revert m. induction entries as [|[t r] l IH]; intros m; [done|]. simpl.
  unfold bind at 1. unfold get_id, bind, getAttribute, ret. apply IH.
Qed.

Lemma forEach_links_total (l : list ref) id w :
  exists w',
    forEach l (fun link =>
      let* section := getAttribute link "data-section" in
      let isActive := bool_decide (section = Some id) in
      classList_toggle link "is-active" isActive ;;;
      setAttribute link "aria-current" (if isActive then "true" else "false")) w
    = Ok tt w'.
Proof.
  revert w. induction l as [|x l IH]; intros w; [by eexists|]. simpl.
  unfold bind at 1. unfold bind at 1. unfold getAttribute.
  unfold bind at 1. unfold classList_toggle, classList_add, classList_remove,
    setAttribute, modify.
  destruct (bool_decide (attr w x "data-section" = Some id)); apply IH.
Qed.

Lemma setActive_run navLinks id c w :
  exists c' w',
    setActive navLinks id c w = Ok c' w' /\
    activeId c' = Some id /\ ratioMap c' = ratioMap c.
Proof.
  unfold setActive. case_bool_decide as Hid.
  - exists c, w. by split.
  - destruct (forEach_links_total navLinks id w) as [w' Hrun].
    eexists _, w'. rewrite (bind_Ok _ _ _ _ _ Hrun). by split.
Qed.

Lemma observer_callback_run navLinks entries c w :
  let m := recorded w entries (ratioMap c) in
  exists c' w',
    observer_callback navLinks entries c w = Ok c' w' /\
    ratioMap c' = m /\
    activeId c' =
      if truthy (scan m).1 then Some (default "" (scan m).1) else activeId c.
Proof.
  intros m. unfold observer_callback.
  rewrite (bind_Ok _ _ _ _ _ (record_entries_run entries (ratioMap c) w)).
  fold m. destruct (truthy (scan m).1) eqn:E.
  - destruct (setActive_run navLinks (default "" (scan m).1)
                (Closure (activeId c) m) w) as (c' & w' & Hrun & Ha & Hm).
    exists c', w'. by split.
  - eexists _, w. by split.
Qed.

End NavHighlightRuns.

(** C7 (as amended). After every callback of the observer, the section
    that reports the highest non-zero ratio is the active one, and among
    sections that tie at the top it is the first one in the order of the
    sections, whichever section was active before; when no section reports
    a ratio above zero the active section stays as it was. *)
Theorem C7_first_top_section_wins
    (navLinks : list ref) (entries : list (ref * Q))
    (c : NavHighlight.closure) (w : world) :
  exists c' w',
    NavHighlight.observer_callback navLinks entries c w = Ok c' w' /\
    NavHighlight.ratioMap c' = recorded w entries (NavHighlight.ratioMap c) /\
    (forall k r,
       first_top (NavHighlight.ratioMap c') k r -> (0 < r)%Q -> k <> "" ->
       NavHighlight.activeId c' = Some k) /\
    ((forall x, x ∈ NavHighlight.ratioMap c' -> (x.2 <= 0)%Q) ->
     NavHighlight.activeId c' = NavHighlight.activeId c).
Proof.
  destruct (observer_callback_run navLinks entries c w) as (c' & w' & Hrun & Hm & Ha).
  exists c', w'. split; [done|]. split; [done|]. split.
  - intros k r Hk Hr Hne. rewrite Hm in Hk.
    rewrite Ha, (scan_first_top _ k r Hk Hr). simpl.
    by rewrite bool_decide_false.
  - intros Hz. rewrite Hm in Hz. rewrite Ha, (scan_all_zero _ Hz). done.
Qed.

(** The two callbacks of the counterexample on the sample page: first the
    section "skills" alone is half visible, then "about" reaches the same
    ratio. *)
Lemma C7_tie_moves_the_active_section : ~ tie_keeps_previous.
Proof.
  intros Hclaim.
  set (c1 := NavHighlight.Closure (Some "skills")
               [("about", 0%Q); ("skills", (1 # 2)%Q)]).
  destruct (Hclaim [23; 24]%nat [(25%nat, (1 # 2)%Q)] c1 Sample.nav_page
              (NavHighlight.Closure (Some "about")
                 [("about", (1 # 2)%Q); ("skills", (1 # 2)%Q)])
              (match NavHighlight.observer_callback [23; 24]%nat
                       [(25%nat, (1 # 2)%Q)] c1 Sample.nav_page with
               | Ok _ w' => w'
               | Throw _ w' => w'
               end)) as [Htie _].
  { by vm_compute. }
  assert (Some "about" = Some "skills") as Habs; [|discriminate].
  apply Htie.
  exists "about", "skills", (1 # 2)%Q, (1 # 2)%Q.
  split; [discriminate|]. split; [left|]. split; [right; left|].
  split; [reflexivity|]. split; [reflexivity|].
  intros x Hx. simpl in Hx.
  repeat (apply elem_of_cons in Hx as [->|Hx]; [simpl; apply Qle_refl|]).
  by apply elem_of_nil in Hx.
Qed.

(** The same run from the start: the state where "skills" is active is the
    one the first callback leaves. *)
Remark example_tie_from_initial_state :
  let c0 := NavHighlight.Closure None [("about", 0%Q); ("skills", 0%Q)] in
  exists c1 w1 c2 w2,
    NavHighlight.observer_callback [23; 24]%nat [(26%nat, (1 # 2)%Q)] c0
      Sample.nav_page = Ok c1 w1 /\
    NavHighlight.activeId c1 = Some "skills" /\
    NavHighlight.observer_callback [23; 24]%nat [(25%nat, (1 # 2)%Q)] c1 w1
      = Ok c2 w2 /\
    NavHighlight.ratioMap c2 = [("about", (1 # 2)%Q); ("skills", (1 # 2)%Q)] /\
    NavHighlight.activeId c2 = Some "about".
Proof.
  do 4 eexists. split; [vm_compute; reflexivity|]. split; [reflexivity|].
  split; [vm_compute; reflexivity|]. split; reflexivity.
Qed.

(** ** C9: initialisation *)

Section Wiring.

Lemma same_queries_refl w : same_queries w w.
Proof. done. Qed.

Lemma same_queries_trans w1 w2 w3 :
  same_queries w1 w2 -> same_queries w2 w3 -> same_queries w1 w3.
Proof. intros H1 H2 sel root Hs. by rewrite H2, H1. Qed.

Lemma same_queries_document w w' : same_document w w' -> same_queries w w'.
Proof. intros H sel root _. by apply select_same. Qed.

Lemma wired_of_run {A} (m : M A) w a w' L :
  m w = Ok a w' -> listeners w' = listeners w ++ L -> wired m w = L.
Proof.
  intros Hrun Hl. unfold wired. rewrite Hrun, Hl.
  by rewrite drop_app_length.
Qed.

Lemma wires_wired {A} (m : M A) L w : wires m L -> wired m w = L w.
Proof.
  intros [_ H]. destruct (H w) as (a & w' & Hr & Hl & _).
  by eapply wired_of_run.
Qed.

(** *** The rules *)

Lemma wires_ret {A} (a : A) : wires (ret a) (fun _ => []).
Proof.
  split; [done|]. intros w. exists a, w. split; [done|].
  split; [by rewrite app_nil_r | done].
Qed.

Lemma wires_addEventListener t ev h :
  wires (addEventListener t ev h) (fun _ => [Listener t ev h]).
Proof. split; [done|]. intros w. by eexists tt, _. Qed.

Lemma wires_seq {A B} (m1 : M A) (m2 : M B) L1 L2 :
  wires m1 L1 -> wires m2 L2 -> wires (m1 ;;; m2) (fun w => L1 w ++ L2 w).
Proof.
  intros [HL1 H1] [HL2 H2]. split.
  - intros w w' Hs. by rewrite (HL1 w w' Hs), (HL2 w w' Hs).
  - intros w. destruct (H1 w) as (a & w1 & Hr1 & Hl1 & Hs1).
    destruct (H2 w1) as (b & w2 & Hr2 & Hl2 & Hs2).
    exists b, w2. split; [by rewrite (bind_Ok _ _ _ _ _ Hr1)|]. split.
    + by rewrite Hl2, Hl1, (HL2 w w1 Hs1), app_assoc.
    + by eapply same_queries_trans.
Qed.

(** A query whose answer the rest depends on. *)
Lemma wires_query {A B} (q : M A) (Q : world -> A) (k : A -> M B)
    (L : A -> world -> list listener) :
  (forall w, q w = Ok (Q w) w) ->
  (forall w w', same_queries w w' -> Q w' = Q w) ->
  (forall a, wires (k a) (L a)) ->
  wires (let* a := q in k a) (fun w => L (Q w) w).
Proof.
  intros Hq HQ Hk. split.
  - intros w w' Hs. rewrite (HQ w w' Hs). by apply (Hk (Q w)).
  - intros w. destruct (Hk (Q w)) as [_ H].
    destruct (H w) as (b & w' & Hr & Hl & Hs).
    exists b, w'. by rewrite (bind_Ok _ _ _ _ _ (Hq w)).
Qed.

(** A read whose answer does not change what is wired. *)
Lemma wires_read {A B} (q : M A) (k : A -> M B) L :
  (forall w, exists a, q w = Ok a w) ->
  (forall a, wires (k a) L) ->
  wires (let* a := q in k a) L.
Proof.
  intros Hq Hk. split.
  - intros w w' Hs. destruct (Hq w) as [a _]. by apply (Hk a).
  - intros w. destruct (Hq w) as [a Ha]. destruct (Hk a) as [_ H].
    destruct (H w) as (b & w' & Hr & Hl & Hs).
    exists b, w'. by rewrite (bind_Ok _ _ _ _ _ Ha).
Qed.

Lemma wires_option {A B} (o : option A) (kS : A -> M B) (kN : M B) LS LN :
  (forall x, wires (kS x) (LS x)) -> wires kN LN ->
  wires (match o with Some x => kS x | None => kN end)
        (match o with Some x => LS x | None => LN end).
Proof. intros HS HN. destruct o; [apply HS | apply HN]. Qed.

Lemma wires_if {A} (b : bool) (m1 m2 : M A) L1 L2 :
  wires m1 L1 -> wires m2 L2 ->
  wires (if b then m1 else m2) (if b then L1 else L2).
Proof. intros H1 H2. by destruct b. Qed.

Lemma wires_forEach {A} (l : list A) (body : A -> M unit) Lx :
  (forall x, wires (body x) (Lx x)) ->
  wires (forEach l body) (fun w => flat_map (fun x => Lx x w) l).
Proof.
  intros Hb. induction l as [|x l IH]; simpl.
  - apply wires_ret.
  - apply (wires_seq _ _ (Lx x)); [apply Hb | apply IH].
Qed.

(** A change that only the other worlds' fields or [aria-expanded] see. *)
Lemma wires_quiet (m : M unit) :
  (forall w, exists w', m w = Ok tt w' /\ listeners w' = listeners w
                        /\ same_queries w w') ->
  wires m (fun _ => []).
Proof.
  intros H. split; [done|]. intros w. destruct (H w) as (w' & Hr & Hl & Hs).
  exists tt, w'. split; [done|]. split; [by rewrite app_nil_r | done].
Qed.

Lemma qs_answer sel root w : qs sel root w = Ok (head (select sel root w)) w.
Proof. done. Qed.

Lemma qsa_answer sel root w : qsa sel root w = Ok (select sel root w) w.
Proof. done. Qed.

Lemma select_respects sel root w w' :
  reads_attr "aria-expanded" sel = false ->
  same_queries w w' -> select sel root w' = select sel root w.
Proof. intros Hs H. by apply H. Qed.

End Wiring.

Ltac respect_queries :=
  let Hs := fresh "Hs" in
  intros ? ? Hs; repeat (rewrite Hs by reflexivity); reflexivity.

Ltac query :=
  first
    [ eapply (wires_query (qs _ _) (fun w => head (select _ _ w)));
      [ intros ?; apply qs_answer | respect_queries | intros ? ]
    | eapply (wires_query (qsa _ _) (fun w => select _ _ w));
      [ intros ?; apply qsa_answer | respect_queries | intros ? ] ].

Lemma wires_initSmoothScroll :
  wires SmoothScroll.initSmoothScroll
        (fun _ => [Listener Document "click" SmoothScrollClick]).
Proof. apply wires_addEventListener. Qed.

Lemma wires_initMobileNav : well_behaved MobileNav.initMobileNav.
Proof.
  eexists. unfold MobileNav.initMobileNav.
  query. query.
  eapply wires_option; [intros toggle | apply wires_ret].
  eapply wires_option; [intros nav' | apply wires_ret].
  eapply wires_seq; [apply wires_addEventListener|].
  query.
  eapply wires_seq; [apply wires_forEach; intros link; apply wires_addEventListener|].
  eapply wires_seq; apply wires_addEventListener.
Qed.

Lemma wires_initSkillFilter : well_behaved SkillFilter.initSkillFilter.
Proof.
  eexists. unfold SkillFilter.initSkillFilter.
  query. query. query. query.
  eapply wires_if; [apply wires_ret|].
  eapply wires_seq; [apply wires_forEach; intros btn; apply wires_addEventListener|].
  eapply wires_option; [intros g; apply wires_addEventListener | apply wires_ret].
Qed.

Lemma wires_initSkillFilterAlt : well_behaved SkillFilterAlt.initSkillFilter.
Proof.
  eexists. unfold SkillFilterAlt.initSkillFilter.
  query. query. query.
  eapply wires_option; [intros g | apply wires_ret].
  eapply wires_option; [intros l | apply wires_ret].
  query. query.
  eapply wires_if; [apply wires_ret|].
  apply wires_forEach; intros btn; apply wires_addEventListener.
Qed.

Lemma wires_syncAria summary details :
  wires (Experience.syncAria summary details) (fun _ => []).
Proof.
  apply wires_quiet. intros w.
  unfold Experience.syncAria, bind, Experience.is_open, get_flag, hasAttribute,
    setAttribute, modify.
  eexists. split; [reflexivity|]. split; [done|].
  intros sel root Hs. apply select_update. by apply stable_insert.
Qed.

Lemma wires_initExperience : well_behaved Experience.initExperience.
Proof.
  eexists. unfold Experience.initExperience.
  query.
  eapply wires_if; [apply wires_ret|].
  eapply wires_seq;
    [apply wires_forEach; intros details; apply wires_addEventListener|].
  apply wires_forEach. intros details.
  query.
  eapply wires_option; [intros summary | apply wires_ret].
  eapply wires_seq; [apply wires_addEventListener|].
  eapply wires_seq; [apply wires_addEventListener|].
  apply wires_syncAria.
Qed.

Lemma wires_initContactForm : well_behaved ContactForm.initContactForm.
Proof.
  eexists. unfold ContactForm.initContactForm.
  query. query. query.
  eapply wires_option; [intros form | apply wires_ret].
  eapply wires_option; [intros submitBtn | apply wires_ret].
  eapply wires_option; [intros successEl | apply wires_ret].
  eapply wires_seq; [|apply wires_addEventListener].
  apply wires_forEach. intros config. unfold ContactForm.config_el.
  query.
  eapply wires_option; [intros input | apply wires_ret].
  eapply wires_seq; apply wires_addEventListener.
Qed.

Lemma wires_initCopyEmail : well_behaved CopyEmail.initCopyEmail.
Proof.
  eexists. unfold CopyEmail.initCopyEmail.
  query. query.
  eapply wires_option; [intros btn | apply wires_ret].
  eapply wires_option; [intros confirm | apply wires_ret].
  eapply wires_seq; apply wires_addEventListener.
Qed.

Lemma mapM_get_id_pure (l : list ref) w :
  exists ids, mapM NavHighlight.get_id l w = Ok ids w.
Proof.
  induction l as [|x l [ids IH]]; [by eexists|]. simpl.
  unfold bind at 1. unfold NavHighlight.get_id at 1, bind, getAttribute, ret.
  unfold bind in IH |- *. rewrite IH. by eexists.
Qed.

Lemma getHeaderHeight_pure w : exists h, NavHighlight.getHeaderHeight w = Ok h w.
Proof.
  unfold NavHighlight.getHeaderHeight, bind, qs.
  destruct (head _); by eexists.
Qed.

Lemma wires_observe n : wires (NavHighlight.observe n) (fun _ => []).
Proof.
  apply wires_quiet. intros w. unfold NavHighlight.observe.
  eexists. split; [reflexivity|]. by split.
Qed.

Lemma wires_initNavHighlight : well_behaved NavHighlight.initNavHighlight.
Proof.
  eexists. unfold NavHighlight.initNavHighlight.
  query. query.
  eapply wires_if; [apply wires_ret|].
  eapply wires_read; [intros w; apply mapM_get_id_pure | intros ids].
  eapply wires_read; [intros w; apply getHeaderHeight_pure | intros h].
  eapply wires_seq; [apply wires_forEach; intros section; apply wires_observe|].
  eapply wires_seq; [apply wires_addEventListener | apply wires_ret].
Qed.

Lemma wired_seq {A B} (m1 : M A) (m2 : M B) w :
  well_behaved m1 -> well_behaved m2 ->
  wired (m1 ;;; m2) w = wired m1 w ++ wired m2 w /\ well_behaved (m1 ;;; m2).
Proof.
  intros [L1 H1] [L2 H2].
  pose proof (wires_seq m1 m2 L1 L2 H1 H2) as H12.
  split; [|by eexists].
  by rewrite (wires_wired _ _ w H12), (wires_wired _ _ w H1), (wires_wired _ _ w H2).
Qed.

Lemma well_behaved_runs {A} (m : M A) w :
  well_behaved m ->
  exists a w', m w = Ok a w' /\ listeners w' = listeners w ++ wired m w.
Proof.
  intros [L H]. rewrite (wires_wired _ _ w H). destruct H as [_ H].
  destruct (H w) as (a & w' & Hr & Hl & _). by exists a, w'.
Qed.

(** The six modules of each file run to the end, and each wires what it
    wires when it runs alone on the page. *)
Lemma init_script_wires w :
  exists w',
    init_script w = Ok tt w' /\
    listeners w' =
      listeners w
      ++ wired SmoothScroll.initSmoothScroll w
      ++ wired NavHighlight.initNavHighlight w
      ++ wired MobileNav.initMobileNav w
      ++ wired SkillFilter.initSkillFilter w
      ++ wired Experience.initExperience w
      ++ wired ContactForm.initContactForm w.
Proof.
  pose proof (ex_intro _ _ wires_initSmoothScroll
                : well_behaved SmoothScroll.initSmoothScroll) as W1.
  pose proof wires_initNavHighlight as W2. pose proof wires_initMobileNav as W3.
  pose proof wires_initSkillFilter as W4. pose proof wires_initExperience as W5.
  pose proof wires_initContactForm as W6.
  destruct (wired_seq _ _ w W5 W6) as [E56 W56].
  destruct (wired_seq _ _ w W4 W56) as [E456 W456].
  destruct (wired_seq _ _ w W3 W456) as [E3456 W3456].
  destruct (wired_seq _ _ w W2 W3456) as [E23456 W23456].
  destruct (wired_seq _ _ w W1 W23456) as [E123456 W123456].
  destruct (well_behaved_runs _ w W123456) as ([] & w' & Hrun & Hl).
  exists w'. split; [exact Hrun|].
  rewrite Hl. unfold init_script.
  by rewrite E123456, E23456, E3456, E456, E56.
Qed.

Lemma init_alt_wires w :
  exists w',
    init_alt w = Ok tt w' /\
    listeners w' =
      listeners w
      ++ wired SmoothScroll.initSmoothScroll w
      ++ wired NavHighlight.initNavHighlight w
      ++ wired MobileNav.initMobileNav w
      ++ wired SkillFilterAlt.initSkillFilter w
      ++ wired Experience.initExperience w
      ++ wired CopyEmail.initCopyEmail w.
Proof.
  pose proof (ex_intro _ _ wires_initSmoothScroll
                : well_behaved SmoothScroll.initSmoothScroll) as W1.
  pose proof wires_initNavHighlight as W2. pose proof wires_initMobileNav as W3.
  pose proof wires_initSkillFilterAlt as W4. pose proof wires_initExperience as W5.
  pose proof wires_initCopyEmail as W6.
  destruct (wired_seq _ _ w W5 W6) as [E56 W56].
  destruct (wired_seq _ _ w W4 W56) as [E456 W456].
  destruct (wired_seq _ _ w W3 W456) as [E3456 W3456].
  destruct (wired_seq _ _ w W2 W3456) as [E23456 W23456].
  destruct (wired_seq _ _ w W1 W23456) as [E123456 W123456].
  destruct (well_behaved_runs _ w W123456) as ([] & w' & Hrun & Hl).
  exists w'. split; [exact Hrun|].
  rewrite Hl. unfold init_alt.
  by rewrite E123456, E23456, E3456, E456, E56.
Qed.

(** *** The guards *)

Lemma head_nil_empty {A} (l : list A) : is_empty_list l = true -> head l = None.
Proof. by destruct l. Qed.

Lemma guarded_modules_no_op m w :
  m <> Mod_smooth_scroll -> elements_present m w = false -> init_of m w = Ok tt w.
Proof.
  intros Hm H. destruct m; [done|..]; simpl in H.
  - unfold init_of, NavHighlight.initNavHighlight, bind, qsa.
    destruct (select [[SelClass "nav-link"; SelAttr "data-section"]] None w); [done|].
    destruct (select [[SelTag "section"; SelAttr "id"]] None w); done.
  - unfold init_of, MobileNav.initMobileNav, bind, qs.
    destruct (select (sel_class "nav-toggle") None w); [done|].
    destruct (select (sel_id "primary-nav") None w); done.
  - unfold init_of, SkillFilter.initSkillFilter, bind, qs, qsa.
    destruct (select (sel_class "filter-btn") _ w); [done|].
    destruct (select (sel_class "skill-item") None w); done.
  - unfold init_of, Experience.initExperience, bind, qsa.
    destruct (select (sel_class "experience-details") None w); done.
  - unfold init_of, ContactForm.initContactForm, bind, qs.
    destruct (select (sel_id "contact-form") None w) as [|form l]; [done|].
    simpl in *.
    destruct (select (sel_id "submit-btn") (Some form) w); [done|].
    destruct (select (sel_id "form-success") None w); done.
Qed.

Lemma alt_filter_no_op w :
  alt_filter_present w = false -> SkillFilterAlt.initSkillFilter w = Ok tt w.
Proof.
  unfold alt_filter_present, SkillFilterAlt.initSkillFilter, bind, qs, qsa.
  destruct (head (select (sel_class "skills-filters") None w)) as [g|]; [|done].
  destruct (head (select (sel_id "skills-list") None w)) as [l|]; [|done].
  destruct (select [[SelAttr "data-filter"]] (Some g) w); [done|].
  destruct (select [[SelAttr "data-category"]] (Some l) w); done.
Qed.

Lemma copy_email_no_op w :
  copy_email_present w = false -> CopyEmail.initCopyEmail w = Ok tt w.
Proof.
  unfold copy_email_present, CopyEmail.initCopyEmail, bind, qs.
  destruct (select (sel_id "copy-email-btn") None w); [done|].
  destruct (select (sel_id "copy-confirm") None w); done.
Qed.

(** *** The click handler of smooth scroll *)

Lemma smooth_click_without_link parse target w :
  List.find (ref_matches internal_link (heap w))
            (SmoothScroll.path_to target [] (tree w)) = None ->
  SmoothScroll.on_click parse target w = Ok tt w.
Proof.
  intros H. unfold SmoothScroll.on_click, bind, SmoothScroll.closest.
  fold internal_link. by rewrite H.
Qed.

Lemma smooth_click_without_target parse target w link href sel :
  List.find (ref_matches internal_link (heap w))
            (SmoothScroll.path_to target [] (tree w)) = Some link ->
  attr w link "href" = Some href ->
  parse href = Some sel ->
  select sel None w = [] ->
  SmoothScroll.on_click parse target w = Ok tt w.
Proof.
  intros Hl Hh Hp Hs. unfold SmoothScroll.on_click, bind, SmoothScroll.closest.
  fold internal_link. rewrite Hl. unfold getAttribute. rewrite Hh. simpl.
  case_bool_decide; [done|]. rewrite Hp. unfold qs. by rewrite Hs.
Qed.




(** Initialisation of the whole sample page, and of the same page without
    the contact form: the first five modules wire the same listeners. *)
Remark example_init_without_the_form :
  let without_form :=
    Sample.page_of (Sample.body_node :: Sample.nav_nodes ++ Sample.skills_nodes
                    ++ Sample.experience_nodes) in
  match init_script Sample.resume_page, init_script without_form with
  | Ok _ w1, Ok _ w2 =>
      length (listeners w1) = 27%nat /\
      take 20 (listeners w1) = listeners w2
  | _, _ => False
  end.
Proof. vm_compute. split; reflexivity. Qed.

(** * Further properties: the handlers of the modules *)

(** ** Mobile nav: the menu and its toggle *)

Lemma openNav_run toggle nav w :
  MobileNav.openNav toggle nav w = Ok tt (nav_set toggle nav true w).
Proof. reflexivity. Qed.

Lemma closeNav_run toggle nav w :
  MobileNav.closeNav toggle nav w = Ok tt (nav_set toggle nav false w).
Proof. reflexivity. Qed.

Lemma nav_open_nav_set toggle nav o w :
  is_Some (heap w !! nav) -> nav_open (nav_set toggle nav o w) nav = o.
Proof.
  intros Hn. unfold nav_open, nav_set.
  rewrite !has_class_update_keep by done.
  destruct o; [by apply has_class_update_add | apply has_class_update_remove].
Qed.

Lemma toggle_says_nav_set toggle nav o w :
  is_Some (heap w !! toggle) -> toggle_says (nav_set toggle nav o w) toggle o.
Proof.
  intros Ht. unfold toggle_says, nav_set. split.
  - rewrite attr_update_other by (intros x; by rewrite lookup_insert_ne).
    apply attr_update_insert. by apply is_Some_heap_update.
  - apply attr_update_insert. by do 2 apply is_Some_heap_update.
Qed.

Lemma nav_set_frame toggle nav o w :
  tree (nav_set toggle nav o w) = tree w /\
  activeElement (nav_set toggle nav o w) = activeElement w /\
  listeners (nav_set toggle nav o w) = listeners w /\
  (forall n, n <> toggle -> n <> nav ->
     heap (nav_set toggle nav o w) !! n = heap w !! n) /\
  (forall n, value_of (nav_set toggle nav o w) n = value_of w n).
Proof.
  repeat split; try done.
  - intros n H1 H2. unfold nav_set, update. simpl.
    by rewrite !lookup_alter_ne.
  - intros n. unfold nav_set. by rewrite !value_update_keep.
Qed.

Lemma on_toggle_click_run toggle nav w :
  MobileNav.on_toggle_click toggle nav w
  = Ok tt (nav_set toggle nav (negb (nav_open w nav)) w).
Proof.
  unfold MobileNav.on_toggle_click, MobileNav.isOpen, classList_contains, bind,
    nav_open.
  by destruct (has_class w nav "is-open").
Qed.

Lemma on_outside_click_run toggle nav target w :
  MobileNav.on_outside_click toggle nav target w
  = Ok tt (if nav_open w nav && negb (inside w nav target)
              && negb (inside w toggle target)
           then nav_set toggle nav false w else w).
Proof.
  unfold MobileNav.on_outside_click, MobileNav.isOpen, MobileNav.contains,
    classList_contains, bind, nav_open, inside.
  by destruct (_ && _ && _).
Qed.

Lemma on_keydown_run toggle nav key w :
  MobileNav.on_keydown toggle nav key w
  = Ok tt (if bool_decide (key = "Escape") && nav_open w nav
           then set_activeElement (Some toggle) (nav_set toggle nav false w)
           else w).
Proof.
  unfold MobileNav.on_keydown, MobileNav.isOpen, classList_contains, bind, nav_open.
  by destruct (_ && _).
Qed.

Lemma nav_synced_nav_set toggle nav o w :
  is_Some (heap w !! toggle) -> is_Some (heap w !! nav) ->
  nav_synced toggle nav (nav_set toggle nav o w).
Proof.
  intros Ht Hn. unfold nav_synced. rewrite nav_open_nav_set by done.
  by apply toggle_says_nav_set.
Qed.

Lemma nav_synced_focus toggle nav a w :
  nav_synced toggle nav (set_activeElement a w) <-> nav_synced toggle nav w.
Proof. done. Qed.

(** X1. Mobile nav: the toggle button says what the menu does.  Every
    listener of the module (click on the toggle, click on a nav link, click
    somewhere on the document, key press) returns normally.  When
    [aria-expanded] and [aria-label] of the toggle agreed with the [is-open]
    class of the nav before the event they agree after it; they agree after
    every event that changed the open state, and after a click on the toggle
    or on a nav link whatever they said before. *)
Theorem X1_nav_toggle_announces_state toggle nav ev w :
  is_Some (heap w !! toggle) -> is_Some (heap w !! nav) ->
  exists w',
    nav_handle toggle nav ev w = Ok tt w' /\
    (nav_synced toggle nav w -> nav_synced toggle nav w') /\
    (nav_open w' nav <> nav_open w nav -> nav_synced toggle nav w') /\
    (ev = ToggleClicked \/ ev = LinkClicked -> nav_synced toggle nav w').
Proof.
  intros Ht Hn.
  pose proof (fun o => nav_synced_nav_set toggle nav o w Ht Hn) as Hset.
  destruct ev as [| |target|key]; simpl.
  - rewrite on_toggle_click_run. eexists. split; [reflexivity|].
    repeat split; intros; apply Hset.
  - rewrite closeNav_run. eexists. split; [reflexivity|].
    repeat split; intros; apply Hset.
  - rewrite on_outside_click_run. eexists. split; [reflexivity|].
    destruct (_ && _ && _).
    + repeat split; intros; apply Hset.
    + split; [done|]. split; [by intros []|]. by intros [|].
  - rewrite on_keydown_run. eexists. split; [reflexivity|].
    destruct (_ && _).
    + repeat split; intros; apply nav_synced_focus, Hset.
    + split; [done|]. split; [by intros []|]. by intros [|].
Qed.

Lemma X1_nav_toggle_announces_state_witness :
  exists w',
    nav_handle 21%nat 22%nat ToggleClicked Sample.nav_page = Ok tt w' /\
    (nav_synced 21%nat 22%nat Sample.nav_page -> nav_synced 21%nat 22%nat w') /\
    (nav_open w' 22%nat <> nav_open Sample.nav_page 22%nat ->
     nav_synced 21%nat 22%nat w') /\
    (ToggleClicked = ToggleClicked \/ ToggleClicked = LinkClicked ->
     nav_synced 21%nat 22%nat w').
Proof.
  apply (X1_nav_toggle_announces_state 21%nat 22%nat ToggleClicked Sample.nav_page);
    by eexists.
Defined.

(** X2. Mobile nav: what each event does to the menu.  A click on the
    toggle flips the open state; a click on a nav link closes the menu; a
    click on the document closes it only when it lands outside the nav and
    outside the toggle; Escape closes it and moves the focus to the toggle.
    A click inside, a click while the menu is closed, any other key, and
    Escape while the menu is closed leave the world exactly as it was. *)
Theorem X2_nav_open_state_after_each_event toggle nav ev w :
  is_Some (heap w !! nav) ->
  exists w',
    nav_handle toggle nav ev w = Ok tt w' /\
    nav_open w' nav =
      match ev with
      | ToggleClicked => negb (nav_open w nav)
      | LinkClicked => false
      | ClickedAt target =>
          nav_open w nav && (inside w nav target || inside w toggle target)
      | KeyPressed key => nav_open w nav && negb (bool_decide (key = "Escape"))
      end /\
    activeElement w' =
      match ev with
      | KeyPressed key =>
          if bool_decide (key = "Escape") && nav_open w nav
          then Some toggle else activeElement w
      | _ => activeElement w
      end /\
    match ev with
    | ClickedAt _ | KeyPressed _ => nav_open w' nav = nav_open w nav -> w' = w
    | _ => True
    end.
Proof.
  intros Hn.
  pose proof (fun o => nav_open_nav_set toggle nav o w Hn) as Hset.
  destruct ev as [| |target|key]; simpl.
  - rewrite on_toggle_click_run. eexists. split; [reflexivity|].
    by rewrite Hset.
  - rewrite closeNav_run. eexists. split; [reflexivity|]. by rewrite Hset.
  - rewrite on_outside_click_run. eexists. split; [reflexivity|].
    destruct (nav_open w nav) eqn:Ho; simpl; [|done].
    destruct (inside w nav target), (inside w toggle target); simpl;
      try done.
    rewrite Hset. by repeat split.
  - rewrite on_keydown_run. eexists. split; [reflexivity|].
    destruct (nav_open w nav) eqn:Ho; simpl.
    + case_bool_decide; simpl; [|done].
      change (nav_open (set_activeElement (Some toggle)
                          (nav_set toggle nav false w)) nav)
        with (nav_open (nav_set toggle nav false w) nav).
      rewrite Hset. by repeat split.
    + by rewrite andb_false_r.
Qed.

Lemma X2_nav_open_state_after_each_event_witness :
  exists w',
    nav_handle 21%nat 22%nat (KeyPressed "Escape")
      (nav_set 21%nat 22%nat true Sample.nav_page) = Ok tt w' /\
    nav_open w' 22%nat =
      nav_open (nav_set 21%nat 22%nat true Sample.nav_page) 22%nat
      && negb (bool_decide ("Escape" = "Escape")) /\
    activeElement w' =
      (if bool_decide ("Escape" = "Escape")
          && nav_open (nav_set 21%nat 22%nat true Sample.nav_page) 22%nat
       then Some 21%nat
       else activeElement (nav_set 21%nat 22%nat true Sample.nav_page)) /\
    (nav_open w' 22%nat
       = nav_open (nav_set 21%nat 22%nat true Sample.nav_page) 22%nat ->
     w' = nav_set 21%nat 22%nat true Sample.nav_page).
Proof.
  apply (X2_nav_open_state_after_each_event 21%nat 22%nat (KeyPressed "Escape")
           (nav_set 21%nat 22%nat true Sample.nav_page)).
  by eexists.
Defined.

(** ** Skill filter: the pressed button *)

Lemma set_flag_run n a b w :
  set_flag n a b w = Ok tt (update n (with_attrs (reflect_flag a b)) w).
Proof. by destruct b. Qed.

Lemma reflect_flag_other a b (m : gmap string string) c :
  c <> a -> reflect_flag a b m !! c = m !! c.
Proof.
  intros H. destruct b; simpl; [by rewrite lookup_insert_ne|by rewrite lookup_delete_ne].
Qed.

Lemma setActiveBtn_run filterBtns activeBtn w :
  SkillFilter.setActiveBtn filterBtns activeBtn w
  = Ok tt (pressed filterBtns activeBtn w).
Proof.
  unfold SkillFilter.setActiveBtn, pressed. revert w.
  induction filterBtns as [|b l IH]; intros w; [done|].
  simpl. unfold bind at 1. unfold bind at 1. simpl.
  unfold classList_toggle. rewrite <- IH. unfold press_step.
  by destruct (bool_decide (b = activeBtn)).
Qed.

Lemma setActive_alt_run filterBtns activeBtn w :
  SkillFilterAlt.setActive filterBtns activeBtn w
  = Ok tt (pressed filterBtns activeBtn w).
Proof.
  unfold SkillFilterAlt.setActive, pressed. revert w.
  induction filterBtns as [|b l IH]; intros w; [done|].
  simpl. unfold bind at 1. unfold bind at 1. simpl.
  rewrite <- IH. unfold press_step.
  by destruct (bool_decide (b = activeBtn)).
Qed.

Lemma is_Some_heap_pressed l a w n :
  is_Some (heap (pressed l a w) !! n) <-> is_Some (heap w !! n).
Proof.
  unfold pressed. revert w. induction l as [|b l IH]; intros w; [done|].
  simpl. rewrite IH. unfold press_step. by rewrite !is_Some_heap_update.
Qed.

Lemma attr_pressed_other l a w n c :
  c <> "aria-pressed" \/ n ∉ l -> attr (pressed l a w) n c = attr w n c.
Proof.
  unfold pressed. revert w. induction l as [|b l IH]; intros w H; [done|].
  simpl. rewrite IH by (destruct H as [H|H]; [by left|right; set_solver]).
  unfold press_step. rewrite attr_update_keep by done.
  destruct H as [H|H].
  - apply attr_update_other. intros x. by rewrite lookup_insert_ne.
  - apply attr_update_ne. set_solver.
Qed.

Lemma has_class_pressed_other l a w n c :
  c <> "filter-btn--active" \/ n ∉ l ->
  has_class (pressed l a w) n c = has_class w n c.
Proof.
  unfold pressed. revert w. induction l as [|b l IH]; intros w H; [done|].
  simpl. rewrite IH by (destruct H as [H|H]; [by left|right; set_solver]).
  unfold press_step.
  rewrite has_class_update_classes, has_class_update_keep; [done..|].
  destruct H as [H|H]; [right|left; set_solver].
  intros s. destruct (bool_decide (b = a)); set_solver.
Qed.

Lemma value_pressed l a w n : value_of (pressed l a w) n = value_of w n.
Proof.
  unfold pressed. revert w. induction l as [|b l IH]; intros w; [done|].
  simpl. rewrite IH. unfold press_step. by rewrite !value_update_keep.
Qed.

Lemma pressed_shows l a w b :
  is_Some (heap w !! b) -> b ∈ l ->
  if bool_decide (b = a) then btn_pressed (pressed l a w) b
  else btn_released (pressed l a w) b.
Proof.
  revert w. induction l as [|x l IH]; intros w Hb Hin;
    [by apply elem_of_nil in Hin|].
  destruct (decide (b ∈ l)) as [Hl|Hl].
  - apply (IH (press_step a w x)); [|done].
    unfold press_step. by rewrite !is_Some_heap_update.
  - apply elem_of_cons in Hin as [->|]; [|done].
    unfold btn_pressed, btn_released. change (pressed (x :: l) a w)
      with (pressed l a (press_step a w x)).
    rewrite attr_pressed_other, has_class_pressed_other by (by right).
    unfold press_step. rewrite attr_update_keep by done.
    rewrite attr_update_insert by done.
    case_bool_decide; simpl.
    + split; [done|]. apply has_class_update_add. by apply is_Some_heap_update.
    + split; [done|]. apply has_class_update_remove.
Qed.

Lemma applyFilter_run items emptyState filter w :
  SkillFilter.applyFilter items emptyState filter w
  = Ok tt (match emptyState with
           | Some e =>
               update e (with_attrs (reflect_flag "hidden"
                           (existsb (matches_filter w filter) items)))
                 (filtered items filter w)
           | None => filtered items filter w
           end).
Proof.
  unfold SkillFilter.applyFilter.
  rewrite (bind_Ok _ _ _ _ _ (filter_items_run filter items 0 w)).
  simpl. rewrite some_visible. destruct emptyState; [|done].
  by rewrite set_flag_run.
Qed.

Lemma applyFilter_alt_run items emptyState filter w :
  SkillFilterAlt.applyFilter items emptyState filter w
  = Ok tt (match emptyState with
           | Some e =>
               update e (with_attrs (reflect_flag "hidden"
                           (existsb (matches_filter w filter) items)))
                 (filtered_alt items filter w)
           | None => filtered_alt items filter w
           end).
Proof.
  unfold SkillFilterAlt.applyFilter.
  rewrite (bind_Ok _ _ _ _ _ (filter_items_alt_run filter items 0 w)).
  simpl. rewrite some_visible. destruct emptyState; [|done].
  by rewrite set_flag_run.
Qed.

Lemma has_class_filtered items filter w n c :
  has_class (filtered items filter w) n c = has_class w n c.
Proof.
  unfold filtered. revert w. induction items as [|x l IH]; intros w; [done|].
  simpl. rewrite IH. unfold filter_step.
  by destruct (matches_filter w filter x); rewrite has_class_update_keep.
Qed.

Lemma has_class_filtered_alt items filter w n c :
  has_class (filtered_alt items filter w) n c = has_class w n c.
Proof.
  unfold filtered_alt. revert w. induction items as [|x l IH]; intros w; [done|].
  simpl. rewrite IH. unfold filter_step_alt.
  by destruct (matches_filter w filter x); rewrite has_class_update_keep.
Qed.

Lemma matches_filter_pressed l a w filter item :
  matches_filter (pressed l a w) filter item = matches_filter w filter item.
Proof. unfold matches_filter. by rewrite attr_pressed_other by (by left). Qed.

Lemma pressed_state_hidden_flag w v e b (btn x : ref) :
  attr v x "aria-pressed" = attr w x "aria-pressed" ->
  has_class v x "filter-btn--active" = has_class w x "filter-btn--active" ->
  (if bool_decide (x = btn) then btn_pressed w x else btn_released w x) ->
  if bool_decide (x = btn)
  then btn_pressed (update e (with_attrs (reflect_flag "hidden" b)) v) x
  else btn_released (update e (with_attrs (reflect_flag "hidden" b)) v) x.
Proof.
  intros Ha Hc. unfold btn_pressed, btn_released.
  rewrite attr_update_other by (intros m; by apply reflect_flag_other).
  rewrite has_class_update_keep by done. by rewrite Ha, Hc.
Qed.

(** X3. Skill filter, both source files: a click on a filter button
    presses exactly that button.  Among the buttons of the group the clicked
    one has [aria-pressed="true"] and the class [filter-btn--active], every
    other one has [aria-pressed="false"] and lacks the class; and the items
    are filtered by the [data-filter] value of the clicked button. *)
Theorem X3_click_presses_only_the_clicked_button
    btn filterBtns skillItems emptyState w :
  (forall b, b ∈ filterBtns -> is_Some (heap w !! b)) ->
  (forall item, item ∈ skillItems -> is_Some (heap w !! item)) ->
  (exists w',
     SkillFilter.on_click btn filterBtns skillItems emptyState w = Ok tt w' /\
     (forall b, b ∈ filterBtns ->
        if bool_decide (b = btn) then btn_pressed w' b else btn_released w' b) /\
     (forall item, item ∈ skillItems ->
        item_hidden w' item
        = negb (matches_filter w (attr w btn "data-filter") item))) /\
  (exists w',
     SkillFilterAlt.on_click btn filterBtns skillItems emptyState w = Ok tt w' /\
     (forall b, b ∈ filterBtns ->
        if bool_decide (b = btn) then btn_pressed w' b else btn_released w' b) /\
     (forall item, item ∈ skillItems ->
        if matches_filter w (attr w btn "data-filter") item
        then item_shown_alt w' item else item_hidden_alt w' item)).
Proof.
  intros Hbtns Hitems. set (filter := attr w btn "data-filter").
  set (v := pressed filterBtns btn w).
  assert (Hv : forall b, b ∈ filterBtns ->
            if bool_decide (b = btn) then btn_pressed v b else btn_released v b).
  { intros b Hb. apply pressed_shows; [by apply Hbtns | done]. }
  split.
  - unfold SkillFilter.on_click. unfold bind at 1. simpl. fold filter.
    rewrite (bind_Ok _ _ _ _ _ (setActiveBtn_run filterBtns btn w)). fold v.
    rewrite applyFilter_run. eexists. split; [reflexivity|].
    assert (Hhid : forall item, item ∈ skillItems ->
              attr (filtered skillItems filter v) item "data-hidden"
              = if matches_filter w filter item then None else Some "true").
    { intros item Hin. rewrite hidden_filtered;
        [|by apply is_Some_heap_pressed, Hitems | done].
      unfold v. by rewrite matches_filter_pressed. }
    split.
    + intros b Hb.
      assert (Hf : if bool_decide (b = btn)
                   then btn_pressed (filtered skillItems filter v) b
                   else btn_released (filtered skillItems filter v) b).
      { specialize (Hv b Hb). unfold btn_pressed, btn_released in *.
        by rewrite attr_filtered_other, has_class_filtered. }
      destruct emptyState as [e|]; [|done].
      by apply (pressed_state_hidden_flag (filtered skillItems filter v)).
    + intros item Hin. unfold item_hidden, flag.
      destruct emptyState as [e|].
      * rewrite attr_update_other by (intros m; by apply reflect_flag_other).
        rewrite (Hhid item Hin). by destruct (matches_filter w filter item).
      * rewrite (Hhid item Hin). by destruct (matches_filter w filter item).
  - unfold SkillFilterAlt.on_click. unfold bind at 1. simpl. fold filter.
    rewrite (bind_Ok _ _ _ _ _ (setActive_alt_run filterBtns btn w)). fold v.
    rewrite applyFilter_alt_run. eexists. split; [reflexivity|].
    assert (Hdis : forall item, item ∈ skillItems ->
              display_of (filtered_alt skillItems filter v) item
              = Some (if matches_filter w filter item then "" else "none")).
    { intros item Hin. rewrite display_filtered_alt;
        [|by apply is_Some_heap_pressed, Hitems | done].
      unfold v. by rewrite matches_filter_pressed. }
    split.
    + intros b Hb.
      assert (Hf : if bool_decide (b = btn)
                   then btn_pressed (filtered_alt skillItems filter v) b
                   else btn_released (filtered_alt skillItems filter v) b).
      { specialize (Hv b Hb). unfold btn_pressed, btn_released in *.
        by rewrite attr_filtered_alt, has_class_filtered_alt. }
      destruct emptyState as [e|]; [|done].
      by apply (pressed_state_hidden_flag (filtered_alt skillItems filter v)).
    + intros item Hin. unfold item_shown_alt, item_hidden_alt.
      destruct emptyState as [e|].
      * rewrite display_update_keep by done.
        rewrite (Hdis item Hin). by destruct (matches_filter w filter item).
      * rewrite (Hdis item Hin). by destruct (matches_filter w filter item).
Qed.

(** ** Skill filter: the keyboard *)

Lemma prev_index_mod idx len :
  (0 < len)%nat -> SkillFilter.prev_index idx len = ((idx + len - 1) mod len)%nat.
Proof.
  intros H. unfold SkillFilter.prev_index.
  rewrite Z.rem_mod_nonneg by lia.
  replace (Z.of_nat idx - 1 + Z.of_nat len)%Z with (Z.of_nat (idx + len - 1)) by lia.
  by rewrite <- Nat2Z.inj_mod, Nat2Z.id.
Qed.

Lemma indexOf_in (l : list ref) b :
  b ∈ l -> l !! SkillFilter.indexOf b l = Some b /\
           (SkillFilter.indexOf b l < length l)%nat.
Proof.
  induction l as [|x l IH]; intros H; [by apply elem_of_nil in H|].
  simpl. case_bool_decide as Hx; [subst; split; [done|lia]|].
  apply elem_of_cons in H as [->|H]; [done|].
  destruct (IH H) as [H1 H2]. split; [done|lia].
Qed.

Lemma indexOf_lookup (l : list ref) i b :
  NoDup l -> l !! i = Some b -> SkillFilter.indexOf b l = i.
Proof.
  revert i. induction l as [|x l IH]; intros i Hnd Hi; [done|].
  apply NoDup_cons in Hnd as [Hx Hnd]. simpl. destruct i as [|i]; simpl in Hi.
  - injection Hi as ->. by rewrite bool_decide_eq_true_2.
  - rewrite bool_decide_eq_false_2.
    + f_equal. by apply IH.
    + intros ->. apply Hx. by eapply list_elem_of_lookup_2.
Qed.

Lemma focus_nth_run (l : list ref) i b w :
  l !! i = Some b ->
  (preventDefault ;;; SkillFilter.focus_nth l i) w = Ok tt (focused b w).
Proof. intros H. unfold SkillFilter.focus_nth, bind. simpl. by rewrite H. Qed.

Lemma key_index_lt key idx len i :
  (0 < len)%nat -> key_index key idx len = Some i -> (i < len)%nat.
Proof.
  intros Hl. unfold key_index.
  repeat (destruct (_ || _) || case_bool_decide);
    intros [= <-]; try (apply Nat.mod_upper_bound); lia.
Qed.

Lemma key_index_None key idx len :
  key_index key idx len = None <-> key ∉ navigation_keys.
Proof.
  unfold key_index, navigation_keys.
  rewrite !not_elem_of_cons.
  repeat case_bool_decide; simpl; split; try done; try tauto.
  intros _. repeat split; try done. apply not_elem_of_nil.
Qed.

Lemma bind_ret_unit (m : M unit) w : (m ;;; ret tt) w = m w.
Proof. unfold bind, ret. by destruct (m w) as [[]|]. Qed.

Lemma on_keydown_outside l key w :
  ~ focus_in l w -> SkillFilter.on_keydown l key w = Ok tt w.
Proof.
  intros H. unfold SkillFilter.on_keydown.
  destruct (activeElement w) as [b|] eqn:Hb; [|done].
  rewrite bool_decide_eq_false_2; [done|].
  intros Hin. apply H. by exists b.
Qed.

Lemma on_keydown_inside l key w b :
  activeElement w = Some b -> b ∈ l ->
  SkillFilter.on_keydown l key w
  = match key_index key (SkillFilter.indexOf b l) (length l) with
    | Some i => (preventDefault ;;; SkillFilter.focus_nth l i) w
    | None => Ok tt w
    end.
Proof.
  intros Hb Hin. unfold SkillFilter.on_keydown. rewrite Hb.
  rewrite bool_decide_eq_true_2 by done. simpl.
  assert (Hlen : (0 < length l)%nat).
  { destruct l; [by apply elem_of_nil in Hin | simpl; lia]. }
  rewrite prev_index_mod by done.
  unfold key_index.
  set (idx := SkillFilter.indexOf b l). set (len := length l).
  destruct (decide (key = "ArrowRight")) as [->|N1];
    [exact (bind_ret_unit _ w)|].
  destruct (decide (key = "ArrowDown")) as [->|N2];
    [exact (bind_ret_unit _ w)|].
  rewrite (bool_decide_eq_false_2 _ N1), (bool_decide_eq_false_2 _ N2). simpl.
  destruct (decide (key = "ArrowLeft")) as [->|N3];
    [exact (bind_ret_unit _ w)|].
  destruct (decide (key = "ArrowUp")) as [->|N4];
    [exact (bind_ret_unit _ w)|].
  rewrite (bool_decide_eq_false_2 _ N3), (bool_decide_eq_false_2 _ N4). simpl.
  destruct (decide (key = "Home")) as [->|N5];
    [exact (bind_ret_unit _ w)|].
  rewrite (bool_decide_eq_false_2 _ N5).
  destruct (decide (key = "End")) as [->|N6]; [done|].
  by rewrite (bool_decide_eq_false_2 _ N6).
Qed.

Lemma filter_keydown_runs filterBtns key w :
  exists w', SkillFilter.on_keydown filterBtns key w = Ok tt w' /\ heap w' = heap w.
Proof.
  destruct (activeElement w) as [b|] eqn:Hb.
  2: { exists w. rewrite on_keydown_outside; [done|].
       intros (b & Hb' & _). by rewrite Hb in Hb'. }
  destruct (decide (b ∈ filterBtns)) as [Hin|Hout].
  2: { exists w. rewrite on_keydown_outside; [done|].
       intros (b' & Hb' & Hin). rewrite Hb in Hb'. by injection Hb' as ->. }
  rewrite (on_keydown_inside _ _ _ _ Hb Hin).
  destruct (key_index key _ _) as [i|] eqn:Hk; [|by exists w].
  destruct (lookup_lt_is_Some_2 filterBtns i) as [b' Hb'].
  { eapply key_index_lt; [|exact Hk].
    destruct filterBtns; [by apply elem_of_nil in Hin | simpl; lia]. }
  rewrite (focus_nth_run _ _ _ _ Hb'). by eexists.
Qed.

(** X4. Skill filter: the [keydown] listener of the filter group never
    throws and changes no element and not the tree.  When the focus is on a
    button of the group it is on a button of the group afterwards, and the
    default action of the six navigation keys is prevented; when the focus is
    elsewhere, or the key is not a navigation key, the world is exactly as it
    was. *)
Theorem X4_filter_keys_keep_the_focus_in_the_group filterBtns key w :
  exists w',
    SkillFilter.on_keydown filterBtns key w = Ok tt w' /\
    heap w' = heap w /\ tree w' = tree w /\
    (focus_in filterBtns w -> focus_in filterBtns w') /\
    (~ focus_in filterBtns w \/ key ∉ navigation_keys -> w' = w) /\
    (focus_in filterBtns w -> key ∈ navigation_keys -> defaultPrevented w' = true).
Proof.
  destruct (activeElement w) as [b|] eqn:Hb.
  2: { exists w. rewrite on_keydown_outside
         by (intros (b & Hb' & _); by rewrite Hb in Hb').
       repeat split; try done. intros (b & Hb' & _). by rewrite Hb in Hb'. }
  destruct (decide (b ∈ filterBtns)) as [Hin|Hout].
  2: { assert (~ focus_in filterBtns w) as Hno.
       { intros (b' & Hb' & Hin). rewrite Hb in Hb'. by injection Hb' as ->. }
       exists w. rewrite on_keydown_outside by done. by repeat split. }
  rewrite (on_keydown_inside _ _ _ _ Hb Hin).
  assert (Hlen : (0 < length filterBtns)%nat).
  { destruct filterBtns; [by apply elem_of_nil in Hin | simpl; lia]. }
  destruct (key_index key _ _) as [i|] eqn:Hk.
  - destruct (lookup_lt_is_Some_2 filterBtns i) as [b' Hb'];
      [by eapply key_index_lt|].
    rewrite (focus_nth_run _ _ _ _ Hb'). eexists. split; [reflexivity|].
    repeat split; try done.
    + intros _. exists b'. split; [done|]. by eapply list_elem_of_lookup_2.
    + intros [Hno|Hno].
      * exfalso. apply Hno. by exists b.
      * by rewrite (proj2 (key_index_None _ _ _) Hno) in Hk.
  - exists w. repeat split; try done.
    intros _ Hkey. by apply key_index_None in Hk.
Qed.

Lemma on_keydown_moves l key w i b j :
  NoDup l -> l !! i = Some b -> activeElement w = Some b ->
  key_index key i (length l) = Some j ->
  exists b', l !! j = Some b' /\
             SkillFilter.on_keydown l key w = Ok tt (focused b' w).
Proof.
  intros Hnd Hi Hb Hk.
  assert (Hin : b ∈ l) by (by eapply list_elem_of_lookup_2).
  assert (Hlen : (0 < length l)%nat).
  { destruct l; [by apply elem_of_nil in Hin | simpl; lia]. }
  destruct (lookup_lt_is_Some_2 l j) as [b' Hb']; [by eapply key_index_lt|].
  exists b'. split; [done|].
  rewrite (on_keydown_inside _ _ _ _ Hb Hin), (indexOf_lookup _ _ _ Hnd Hi), Hk.
  by apply focus_nth_run.
Qed.

Lemma focus_after_moves l key w i b j :
  NoDup l -> l !! i = Some b -> activeElement w = Some b ->
  key_index key i (length l) = Some j ->
  focus_after l key w = l !! j.
Proof.
  intros Hnd Hi Hb Hk.
  destruct (on_keydown_moves _ _ _ _ _ _ Hnd Hi Hb Hk) as (b' & Hb' & Hrun).
  unfold focus_after. by rewrite Hrun, Hb'.
Qed.

Lemma next_prev_index i n :
  (i < n)%nat -> (((i + 1) mod n + n - 1) mod n = i)%nat.
Proof.
  intros H. destruct (decide (i + 1 = n)%nat) as [E|E].
  - rewrite E, Nat.Div0.mod_same. rewrite Nat.mod_small by lia. lia.
  - rewrite (Nat.mod_small (i + 1)) by lia.
    replace (i + 1 + n - 1)%nat with (i + 1 * n)%nat by lia.
    rewrite Nat.Div0.mod_add. rewrite Nat.mod_small by lia. lia.
Qed.

Lemma prev_next_index i n :
  (i < n)%nat -> (((i + n - 1) mod n + 1) mod n = i)%nat.
Proof.
  intros H. destruct i as [|i].
  - replace (0 + n - 1)%nat with (n - 1)%nat by lia.
    rewrite (Nat.mod_small (n - 1)) by lia.
    replace (n - 1 + 1)%nat with n by lia. apply Nat.Div0.mod_same.
  - replace (S i + n - 1)%nat with (i + 1 * n)%nat by lia.
    rewrite Nat.Div0.mod_add. rewrite (Nat.mod_small i) by lia.
    rewrite Nat.mod_small by lia. lia.
Qed.

(** X5. Skill filter: the arrow keys cycle through the buttons.  From the
    button at index [i] of a group without repetitions, ArrowRight and
    ArrowDown move the focus to index [(i + 1) mod len], ArrowLeft and
    ArrowUp to [(i + len - 1) mod len] (so the ends wrap around), Home to the
    first and End to the last button; ArrowRight followed by ArrowLeft, and
    ArrowLeft followed by ArrowRight, bring the focus back. *)
Theorem X5_arrow_keys_cycle_through_the_buttons filterBtns i b w :
  NoDup filterBtns -> filterBtns !! i = Some b -> activeElement w = Some b ->
  let len := length filterBtns in
  focus_after filterBtns "ArrowRight" w = filterBtns !! ((i + 1) mod len)%nat /\
  focus_after filterBtns "ArrowDown" w = filterBtns !! ((i + 1) mod len)%nat /\
  focus_after filterBtns "ArrowLeft" w = filterBtns !! ((i + len - 1) mod len)%nat /\
  focus_after filterBtns "ArrowUp" w = filterBtns !! ((i + len - 1) mod len)%nat /\
  focus_after filterBtns "Home" w = head filterBtns /\
  focus_after filterBtns "End" w = last filterBtns /\
  (forall w1, SkillFilter.on_keydown filterBtns "ArrowRight" w = Ok tt w1 ->
     focus_after filterBtns "ArrowLeft" w1 = Some b) /\
  (forall w1, SkillFilter.on_keydown filterBtns "ArrowLeft" w = Ok tt w1 ->
     focus_after filterBtns "ArrowRight" w1 = Some b).
Proof.
  intros Hnd Hi Hb len.
  assert (Hlt : (i < len)%nat) by (by eapply lookup_lt_Some).
  repeat split.
  - by apply (focus_after_moves _ _ _ i b).
  - by apply (focus_after_moves _ _ _ i b).
  - by apply (focus_after_moves _ _ _ i b).
  - by apply (focus_after_moves _ _ _ i b).
  - rewrite head_lookup. by apply (focus_after_moves _ _ _ i b).
  - rewrite last_lookup.
    replace (pred (length filterBtns)) with (len - 1)%nat by (unfold len; lia).
    by apply (focus_after_moves _ _ _ i b).
  - intros w1 Hrun.
    destruct (on_keydown_moves filterBtns "ArrowRight" w i b ((i + 1) mod len)
                Hnd Hi Hb eq_refl) as (b' & Hb' & Hrun').
    rewrite Hrun' in Hrun. injection Hrun as <-.
    rewrite (focus_after_moves filterBtns "ArrowLeft" (focused b' w)
               ((i + 1) mod len) b'
               (((i + 1) mod len + len - 1) mod len) Hnd Hb' eq_refl eq_refl).
    unfold len. by rewrite next_prev_index.
  - intros w1 Hrun.
    destruct (on_keydown_moves filterBtns "ArrowLeft" w i b ((i + len - 1) mod len)
                Hnd Hi Hb eq_refl) as (b' & Hb' & Hrun').
    rewrite Hrun' in Hrun. injection Hrun as <-.
    rewrite (focus_after_moves filterBtns "ArrowRight" (focused b' w)
               ((i + len - 1) mod len) b'
               (((i + len - 1) mod len + 1) mod len) Hnd Hb' eq_refl eq_refl).
    unfold len. by rewrite prev_next_index.
Qed.

Lemma X5_arrow_keys_cycle_through_the_buttons_witness :
  let filterBtns := [31; 32; 33]%nat in
  let w := set_activeElement (Some 31%nat) Sample.skills_page in
  let len := length filterBtns in
  focus_after filterBtns "ArrowRight" w = filterBtns !! ((0 + 1) mod len)%nat /\
  focus_after filterBtns "ArrowDown" w = filterBtns !! ((0 + 1) mod len)%nat /\
  focus_after filterBtns "ArrowLeft" w = filterBtns !! ((0 + len - 1) mod len)%nat /\
  focus_after filterBtns "ArrowUp" w = filterBtns !! ((0 + len - 1) mod len)%nat /\
  focus_after filterBtns "Home" w = head filterBtns /\
  focus_after filterBtns "End" w = last filterBtns /\
  (forall w1, SkillFilter.on_keydown filterBtns "ArrowRight" w = Ok tt w1 ->
     focus_after filterBtns "ArrowLeft" w1 = Some 31%nat) /\
  (forall w1, SkillFilter.on_keydown filterBtns "ArrowLeft" w = Ok tt w1 ->
     focus_after filterBtns "ArrowRight" w1 = Some 31%nat).
Proof.
  apply (X5_arrow_keys_cycle_through_the_buttons [31; 32; 33]%nat 0 31%nat
           (set_activeElement (Some 31%nat) Sample.skills_page)).
  - apply (bool_decide_unpack (NoDup [31; 32; 33]%nat)). by vm_compute.
  - reflexivity.
  - reflexivity.
Defined.

(** ** Nav highlight: links, ratio map, initial state *)

Lemma forEach_links_run (l : list ref) id w :
  forEach l (fun link =>
    let* section := getAttribute link "data-section" in
    let isActive := bool_decide (section = Some id) in
    classList_toggle link "is-active" isActive ;;;
    setAttribute link "aria-current" (if isActive then "true" else "false")) w
  = Ok tt (highlighted l id w).
Proof.
  unfold highlighted. revert w. induction l as [|x l IH]; intros w; [done|].
  simpl. unfold bind at 1. unfold bind at 1. unfold getAttribute.
  unfold bind at 1. unfold classList_toggle, classList_add, classList_remove,
    setAttribute, modify. rewrite <- IH. unfold highlight_step.
  by destruct (bool_decide (attr w x "data-section" = Some id)).
Qed.

Lemma setActive_cases navLinks id c w :
  NavHighlight.setActive navLinks id c w
  = if bool_decide (Some id = NavHighlight.activeId c) then Ok c w
    else Ok (NavHighlight.Closure (Some id) (NavHighlight.ratioMap c))
            (highlighted navLinks id w).
Proof.
  unfold NavHighlight.setActive. case_bool_decide; [done|].
  by rewrite (bind_Ok _ _ _ _ _ (forEach_links_run navLinks id w)).
Qed.

Lemma attr_highlight_step id w x n a :
  a <> "aria-current" \/ n <> x ->
  attr (highlight_step id w x) n a = attr w n a.
Proof.
  intros H. unfold highlight_step.
  destruct H as [H|H].
  - rewrite attr_update_other by (intros m; by rewrite lookup_insert_ne).
    by rewrite attr_update_keep by (by destruct (bool_decide _)).
  - rewrite attr_update_ne by done.
    by rewrite attr_update_keep by (by destruct (bool_decide _)).
Qed.

Lemma attr_highlighted l id w n a :
  a <> "aria-current" \/ n ∉ l -> attr (highlighted l id w) n a = attr w n a.
Proof.
  unfold highlighted. revert w. induction l as [|x l IH]; intros w H; [done|].
  simpl. rewrite IH by (destruct H as [H|H]; [by left|right; set_solver]).
  apply attr_highlight_step. destruct H as [H|H]; [by left|right; set_solver].
Qed.

Lemma has_class_highlighted_other l id w n c :
  c <> "is-active" \/ n ∉ l -> has_class (highlighted l id w) n c = has_class w n c.
Proof.
  unfold highlighted. revert w. induction l as [|x l IH]; intros w H; [done|].
  simpl. rewrite IH by (destruct H as [H|H]; [by left|right; set_solver]).
  unfold highlight_step.
  rewrite has_class_update_keep by done.
  apply has_class_update_classes.
  destruct H as [H|H]; [right|left; set_solver].
  intros s. destruct (bool_decide _); set_solver.
Qed.

Lemma heap_highlighted_other l id w n :
  n ∉ l -> heap (highlighted l id w) !! n = heap w !! n.
Proof.
  unfold highlighted. revert w. induction l as [|x l IH]; intros w H; [done|].
  simpl. rewrite IH by set_solver. unfold highlight_step, update. simpl.
  rewrite !lookup_alter_ne; [done|set_solver..].
Qed.

Lemma is_Some_heap_highlighted l id w n :
  is_Some (heap (highlighted l id w) !! n) <-> is_Some (heap w !! n).
Proof.
  unfold highlighted. revert w. induction l as [|x l IH]; intros w; [done|].
  simpl. rewrite IH. unfold highlight_step. by rewrite !is_Some_heap_update.
Qed.

Lemma tree_highlighted l id w : tree (highlighted l id w) = tree w.
Proof.
  unfold highlighted. revert w. induction l as [|x l IH]; intros w; [done|].
  simpl. by rewrite IH.
Qed.

Lemma highlighted_marks l id w link :
  is_Some (heap w !! link) -> link ∈ l ->
  link_marks (highlighted l id w) link
    (bool_decide (attr w link "data-section" = Some id)).
Proof.
  revert w. induction l as [|x l IH]; intros w Hl Hin;
    [by apply elem_of_nil in Hin|].
  change (highlighted (x :: l) id w) with (highlighted l id (highlight_step id w x)).
  destruct (decide (link ∈ l)) as [Hin'|Hout].
  - rewrite <- (attr_highlight_step id w x link "data-section") by (by left).
    apply IH; [|done]. unfold highlight_step. by rewrite !is_Some_heap_update.
  - apply elem_of_cons in Hin as [->|]; [|done].
    unfold link_marks.
    rewrite has_class_highlighted_other, attr_highlighted by (by right).
    unfold highlight_step.
    rewrite has_class_update_keep by done.
    rewrite attr_update_insert by (by apply is_Some_heap_update).
    destruct (bool_decide _); (split; [|done]).
    + by apply has_class_update_add.
    + apply has_class_update_remove.
Qed.

Lemma highlighted_highlights l id w :
  (forall link, link ∈ l -> is_Some (heap w !! link)) ->
  highlights l (highlighted l id w) id.
Proof.
  intros Hl link Hin. rewrite attr_highlighted by (by left).
  apply highlighted_marks; [by apply Hl | done].
Qed.

(** X6. Nav highlight: the links show the active section.  After every
    callback of the observer, when a section is active exactly the nav links
    whose [data-section] is that section carry the class [is-active] and
    [aria-current="true"], and all other nav links [aria-current="false"]
    without the class.  A callback that leaves the active section as it was
    changes nothing; a callback changes no element other than the nav links
    and no attribute other than [aria-current]. *)
Theorem X6_links_of_the_active_section_are_marked navLinks entries c w :
  (forall link, link ∈ navLinks -> is_Some (heap w !! link)) ->
  (forall a, NavHighlight.activeId c = Some a -> highlights navLinks w a) ->
  exists c' w',
    NavHighlight.observer_callback navLinks entries c w = Ok c' w' /\
    (forall a, NavHighlight.activeId c' = Some a -> highlights navLinks w' a) /\
    (NavHighlight.activeId c' = NavHighlight.activeId c -> w' = w) /\
    (forall n, n ∉ navLinks -> heap w' !! n = heap w !! n) /\
    (forall n a, a <> "aria-current" -> attr w' n a = attr w n a) /\
    (forall n, is_Some (heap w' !! n) <-> is_Some (heap w !! n)) /\
    tree w' = tree w.
Proof.
  intros Hl Hinv. unfold NavHighlight.observer_callback.
  rewrite (bind_Ok _ _ _ _ _
             (record_entries_run entries (NavHighlight.ratioMap c) w)).
  set (m := recorded w entries (NavHighlight.ratioMap c)).
  destruct (truthy (NavHighlight.scan m).1) eqn:E.
  - rewrite setActive_cases. cbn [NavHighlight.activeId NavHighlight.ratioMap].
    case_bool_decide as Hid.
    + eexists _, w. split; [reflexivity|]. split; [exact Hinv|]. by repeat split.
    + eexists _, _. split; [reflexivity|].
      cbn [NavHighlight.activeId].
      split; [intros a [= <-]; by apply highlighted_highlights|].
      repeat split.
      * intros Heq. by rewrite <- Heq in Hid.
      * intros n Hn. by apply heap_highlighted_other.
      * intros n a Ha. apply attr_highlighted. by left.
      * by intros ?%is_Some_heap_highlighted.
      * intros H. by apply is_Some_heap_highlighted.
      * apply tree_highlighted.
  - eexists _, w. split; [reflexivity|]. split; [exact Hinv|]. by repeat split.
Qed.

Lemma map_set_keys k v (m : NavHighlight.ratio_map) :
  (NavHighlight.map_set k v m).*1 = if bool_decide (k ∈ m.*1) then m.*1 else m.*1 ++ [k].
Proof.
  induction m as [|[k' v'] m IH]; [done|]. cbn [NavHighlight.map_set].
  destruct (decide (k' = k)) as [->|Hne].
  - rewrite (bool_decide_eq_true_2 (k = k)) by done. rewrite !fmap_cons.
    by rewrite bool_decide_eq_true_2 by apply list_elem_of_here.
  - rewrite (bool_decide_eq_false_2 (k' = k)) by done.
    rewrite !fmap_cons. rewrite IH. cbn [fst].
    destruct (decide (k ∈ m.*1)) as [Hin|Hin].
    + rewrite (bool_decide_eq_true_2 _ Hin).
      by rewrite bool_decide_eq_true_2 by (by apply list_elem_of_further).
    + rewrite (bool_decide_eq_false_2 _ Hin).
      rewrite bool_decide_eq_false_2; [done|].
      intros [->|H]%elem_of_cons; [by apply Hne | by apply Hin].
Qed.

Lemma map_get_set k v (m : NavHighlight.ratio_map) k' :
  map_get k' (NavHighlight.map_set k v m)
  = if bool_decide (k' = k) then Some v else map_get k' m.
Proof.
  induction m as [|[k0 v0] m IH]; cbn [NavHighlight.map_set].
  - cbn [map_get]. repeat case_bool_decide; congruence.
  - destruct (bool_decide_reflect (k0 = k)) as [->|H0]; cbn [map_get].
    + repeat case_bool_decide; congruence.
    + rewrite IH. repeat case_bool_decide; congruence.
Qed.

Lemma recorded_snoc w entries e (m : NavHighlight.ratio_map) :
  recorded w (entries ++ [e]) m
  = NavHighlight.map_set (id_of w e.1) e.2 (recorded w entries m).
Proof. unfold recorded. by rewrite fold_left_app. Qed.

Lemma recorded_keys w entries (m : NavHighlight.ratio_map) :
  (forall e, e ∈ entries -> id_of w e.1 ∈ m.*1) ->
  (recorded w entries m).*1 = m.*1.
Proof.
  induction entries as [|e entries IH] using rev_ind; intros H; [done|].
  rewrite recorded_snoc, map_set_keys, IH by set_solver.
  rewrite bool_decide_eq_true_2; [done|]. apply H. set_solver.
Qed.

Lemma recorded_get w entries (m : NavHighlight.ratio_map) k :
  map_get k (recorded w entries m)
  = match reported w entries k with Some r => Some r | None => map_get k m end.
Proof.
  induction entries as [|e entries IH] using rev_ind; [done|].
  rewrite recorded_snoc, map_get_set. unfold reported.
  rewrite List.filter_app. simpl. case_bool_decide as Hk.
  - rewrite bool_decide_eq_true_2 by done. by rewrite last_snoc.
  - rewrite bool_decide_eq_false_2 by done. by rewrite app_nil_r.
Qed.

(** X7. Nav highlight: the ratio map keeps its order.  A callback whose
    entries are for sections the map knows neither reorders nor extends the
    keys of the map (the order that decides between equal ratios); for each
    section the map holds the last ratio the callback reported, and the old
    value when the callback reported none. *)
Theorem X7_ratio_map_keeps_its_order navLinks entries c w :
  (forall e, e ∈ entries -> id_of w e.1 ∈ (NavHighlight.ratioMap c).*1) ->
  exists c' w',
    NavHighlight.observer_callback navLinks entries c w = Ok c' w' /\
    (NavHighlight.ratioMap c').*1 = (NavHighlight.ratioMap c).*1 /\
    forall k,
      map_get k (NavHighlight.ratioMap c')
      = match reported w entries k with
        | Some r => Some r
        | None => map_get k (NavHighlight.ratioMap c)
        end.
Proof.
  intros H.
  destruct (observer_callback_run navLinks entries c w) as (c' & w' & Hrun & Hm & _).
  exists c', w'. split; [done|]. rewrite Hm. split.
  - by apply recorded_keys.
  - intros k. apply recorded_get.
Qed.

Lemma map_set_fresh k v (m : NavHighlight.ratio_map) :
  k ∉ m.*1 -> NavHighlight.map_set k v m = m ++ [(k, v)].
Proof.
  induction m as [|[k' v'] m IH]; intros H; [done|].
  cbn [NavHighlight.map_set]. rewrite fmap_cons in H.
  apply not_elem_of_cons in H as [H1 H2].
  rewrite bool_decide_eq_false_2 by done. by rewrite IH.
Qed.

Lemma fold_map_set_fresh (ids : list string) (m : NavHighlight.ratio_map) :
  NoDup (m.*1 ++ ids) ->
  fold_left (fun m id => NavHighlight.map_set id 0%Q m) ids m
  = m ++ ((fun id => (id, 0%Q)) <$> ids).
Proof.
  revert m. induction ids as [|id ids IH]; intros m H; [by rewrite app_nil_r|].
  simpl. rewrite map_set_fresh.
  - rewrite IH; [by rewrite <- app_assoc|].
    rewrite fmap_app, <- app_assoc. done.
  - apply NoDup_app in H as (_ & H & _). intros Hin.
    apply (H id Hin). apply list_elem_of_here.
Qed.

Lemma mapM_get_id_run (l : list ref) w :
  mapM NavHighlight.get_id l w = Ok (id_of w <$> l) w.
Proof.
  induction l as [|x l IH]; [done|]. simpl.
  unfold bind at 1. unfold NavHighlight.get_id at 1. unfold bind at 1. simpl.
  by rewrite (bind_Ok _ _ _ _ _ IH).
Qed.

Lemma forEach_observe_run (l : list ref) w :
  forEach l NavHighlight.observe w = Ok tt (set_observed (fun o => o ++ l) w).
Proof.
  revert w. induction l as [|x l IH]; intros w.
  - simpl. unfold ret, set_observed. rewrite app_nil_r. by destruct w.
  - simpl. unfold bind, NavHighlight.observe. rewrite IH.
    unfold set_observed. simpl. by rewrite <- app_assoc.
Qed.

(** X8. Nav highlight: the state after initialisation.  On a page with nav
    links and sections with different ids, no section is active, the ratio
    map holds every section at ratio 0 in document order, the observer
    observes the sections in document order, one [resize] listener is added
    to the window, and no element changes. *)
Theorem X8_nav_highlight_starts_in_document_order w :
  let navLinks := select nav_links None w in
  let sections := select page_sections None w in
  navLinks <> [] -> sections <> [] -> NoDup (id_of w <$> sections) ->
  exists w',
    NavHighlight.initNavHighlight w
    = Ok (Some (NavHighlight.Closure None ((fun s => (id_of w s, 0%Q)) <$> sections)))
         w' /\
    observed w' = observed w ++ sections /\
    listeners w' = listeners w ++ [Listener Window "resize" (NavResize sections)] /\
    heap w' = heap w /\ tree w' = tree w /\ activeElement w' = activeElement w.
Proof.
  intros navLinks sections Hl Hs Hnd. unfold NavHighlight.initNavHighlight.
  unfold bind at 1. rewrite qsa_answer. unfold bind at 1. rewrite qsa_answer.
  fold nav_links page_sections. fold navLinks sections.
  destruct navLinks as [|l0 ls] eqn:El; [done|].
  destruct sections as [|s0 ss] eqn:Es; [done|].
  cbn [is_empty_list orb].
  rewrite (bind_Ok _ _ _ _ _ (mapM_get_id_run (s0 :: ss) w)).
  destruct (getHeaderHeight_pure w) as [h Hh].
  rewrite (bind_Ok _ _ _ _ _ Hh).
  rewrite (bind_Ok _ _ _ _ _ (forEach_observe_run (s0 :: ss) w)).
  eexists. split.
  - unfold bind, addEventListener, ret. do 3 f_equal.
    rewrite fold_map_set_fresh by done. simpl. by rewrite <- list_fmap_compose.
  - done.
Qed.

(** ** Experience accordion: the mirrored state *)

Lemma accordion_frame_refl w : accordion_frame w w.
Proof. by repeat split. Qed.

Lemma accordion_frame_trans w1 w2 w3 :
  accordion_frame w1 w2 -> accordion_frame w2 w3 -> accordion_frame w1 w3.
Proof.
  intros (T1 & H1 & A1 & C1 & V1 & S1) (T2 & H2 & A2 & C2 & V2 & S2).
  split; [congruence|]. split; [intros n; by rewrite H2|].
  split; [intros n a Ha Hb; by rewrite A2, A1|].
  split; [intros n c; by rewrite C2|].
  split; [intros n; by rewrite V2|].
  intros sel root Ha Hb. by rewrite S2, S1.
Qed.

Lemma accordion_frame_update n a (g : gmap string string -> gmap string string) w :
  (a = "open" \/ a = "aria-expanded") ->
  (forall m b, b <> a -> g m !! b = m !! b) ->
  accordion_frame w (update n (with_attrs g) w).
Proof.
  intros Ha Hg. split; [done|]. split; [intros m; apply is_Some_heap_update|].
  split.
  { intros m b H1 H2. apply attr_update_other. intros x. apply Hg.
    by destruct Ha as [->| ->]. }
  split; [intros m c; by apply has_class_update_keep|].
  split; [intros m; by apply value_update_keep|].
  intros sel root H1 H2. apply select_update.
  apply (stable_attrs sel a); [done|]. by destruct Ha as [->| ->].
Qed.

Lemma summary_of_frame w w' d :
  accordion_frame w w' -> summary_of w' d = summary_of w d.
Proof. intros (_ & _ & _ & _ & _ & S). unfold summary_of. by rewrite S. Qed.

Lemma summary_in_heap w d s : summary_of w d = Some s -> is_Some (heap w !! s).
Proof.
  intros H. apply head_Some_elem_of in H.
  destruct (select_in_heap _ _ _ _ H) as (e & He & _). by exists e.
Qed.

Lemma browser_toggle_step d w :
  is_Some (heap w !! d) ->
  exists w1,
    Experience.browser_toggle d w = Ok tt w1 /\
    flag w1 d "open" = negb (flag w d "open") /\
    (forall n, n <> d -> flag w1 n "open" = flag w n "open") /\
    (forall n, attr w1 n "aria-expanded" = attr w n "aria-expanded") /\
    accordion_frame w w1.
Proof.
  intros Hd. unfold Experience.browser_toggle, bind, Experience.is_open, get_flag,
    hasAttribute. fold (flag w d "open"). rewrite set_flag_run.
  eexists. split; [reflexivity|]. split.
  { destruct (flag w d "open"); simpl;
      [apply flag_update_delete | by apply flag_update_insert]. }
  split; [intros n Hn; by apply flag_update_ne|].
  split.
  { intros n. apply attr_update_other. intros m. by apply reflect_flag_other. }
  apply (accordion_frame_update d "open"); [by left|].
  intros m b Hb. by apply reflect_flag_other.
Qed.

Lemma close_others_frame details (detailsEls : list ref) w :
  exists w',
    forEach detailsEls (fun other =>
      let* oo := Experience.is_open other in
      if negb (bool_decide (other = details)) && oo
      then removeAttribute other "open"
      else ret tt) w = Ok tt w' /\
    (forall n, attr w' n "aria-expanded" = attr w n "aria-expanded") /\
    accordion_frame w w'.
Proof.
  revert w. induction detailsEls as [|x l IH]; intros w.
  - exists w. split; [done|]. split; [done|]. apply accordion_frame_refl.
  - simpl. unfold bind at 1. unfold bind at 1.
    unfold Experience.is_open, get_flag, hasAttribute. fold (flag w x "open").
    destruct (negb (bool_decide (x = details)) && flag w x "open").
    + unfold removeAttribute, modify.
      destruct (IH (update x (with_attrs (delete "open")) w)) as (w' & Hrun & He & Hf).
      exists w'. split; [exact Hrun|]. split.
      * intros n. rewrite He. apply attr_update_other. intros m.
        by rewrite lookup_delete_ne.
      * eapply accordion_frame_trans; [|exact Hf].
        apply (accordion_frame_update x "open"); [by left|].
        intros m b Hb. by rewrite lookup_delete_ne.
    + unfold ret. apply IH.
Qed.

Lemma on_toggle_step details detailsEls w :
  exists w2,
    Experience.on_toggle details detailsEls w = Ok tt w2 /\
    (forall n, flag w2 n "open" = true <->
       flag w n "open" = true /\
       (flag w details "open" = false \/ n = details \/ n ∉ detailsEls)) /\
    (forall n, attr w2 n "aria-expanded" = attr w n "aria-expanded") /\
    accordion_frame w w2.
Proof.
  destruct (flag w details "open") eqn:Ho.
  - destruct (on_toggle_open details detailsEls w Ho) as (w2 & Hrun & Hflags).
    destruct (close_others_frame details detailsEls w) as (w2' & Hrun' & He & Hf).
    assert (w2' = w2) as ->.
    { unfold Experience.on_toggle in Hrun. unfold bind at 1 in Hrun.
      unfold Experience.is_open at 1, get_flag, hasAttribute in Hrun.
      fold (flag w details "open") in Hrun. rewrite Ho in Hrun.
      rewrite Hrun' in Hrun. by injection Hrun. }
    exists w2. split; [done|]. split; [|done].
    intros n. rewrite Hflags. split; [intros [? ?]; split; [done|by right]|].
    intros [? [?|?]]; [done|by split].
  - exists w. split; [by apply on_toggle_closed|]. split.
    + intros n. split; [intros ?; split; [done|by left]|by intros [? _]].
    + split; [done|apply accordion_frame_refl].
Qed.

Lemma syncAria_step s d w :
  is_Some (heap w !! s) ->
  exists w3,
    Experience.syncAria s d w = Ok tt w3 /\
    (forall n, flag w3 n "open" = flag w n "open") /\
    attr w3 s "aria-expanded" = Some (string_of_bool (flag w d "open")) /\
    (forall n, n <> s -> attr w3 n "aria-expanded" = attr w n "aria-expanded") /\
    accordion_frame w w3.
Proof.
  intros Hs. unfold Experience.syncAria, bind, Experience.is_open, get_flag,
    hasAttribute. fold (flag w d "open"). unfold setAttribute, modify.
  eexists. split; [reflexivity|]. split.
  { intros n. apply flag_update_keep. intros e. simpl. by rewrite lookup_insert_ne. }
  split; [by apply attr_update_insert|].
  split; [intros n Hn; by apply attr_update_ne|].
  apply (accordion_frame_update s "aria-expanded"); [by right|].
  intros m b Hb. by rewrite lookup_insert_ne.
Qed.

(** The [toggle] event of an entry: its own listeners run. *)
Lemma dispatch_toggle_step details detailsEls w :
  exists w3,
    Experience.dispatch_toggle details detailsEls w = Ok tt w3 /\
    (forall n, flag w3 n "open" = true <->
       flag w n "open" = true /\
       (flag w details "open" = false \/ n = details \/ n ∉ detailsEls)) /\
    (forall s, summary_of w details = Some s ->
       attr w3 s "aria-expanded" = Some (string_of_bool (flag w details "open"))) /\
    (forall n, summary_of w details <> Some n ->
       attr w3 n "aria-expanded" = attr w n "aria-expanded") /\
    accordion_frame w w3.
Proof.
  destruct (on_toggle_step details detailsEls w) as (w2 & Hrun & Hflags & He & Hf).
  unfold Experience.dispatch_toggle. rewrite (bind_Ok _ _ _ _ _ Hrun).
  unfold bind at 1. rewrite qs_answer. fold (summary_of w2 details).
  rewrite (summary_of_frame w w2 details Hf).
  assert (Hd : flag w2 details "open" = flag w details "open").
  { destruct (flag w details "open") eqn:Ho.
    - apply Hflags. split; [done|]. right. by left.
    - destruct (flag w2 details "open") eqn:Ho2; [|done].
      apply Hflags in Ho2 as [Ho2 _]. congruence. }
  destruct (summary_of w details) as [s|] eqn:Hs.
  - destruct (syncAria_step s details w2) as (w3 & Hrun3 & Hfl3 & Hs3 & He3 & Hf3).
    { apply Hf. by eapply summary_in_heap. }
    exists w3. split; [done|]. split.
    { intros n. by rewrite Hfl3, Hflags. }
    split; [intros s' [= <-]; by rewrite Hs3, Hd|].
    split.
    { intros n Hn. rewrite He3, He; [done|]. intros ->. by apply Hn. }
    by eapply accordion_frame_trans.
  - exists w2. split; [done|]. split; [done|]. split; [done|]. by split.
Qed.

Lemma closed_entries_spec (l : list ref) (before after : ref -> bool) x :
  x ∈ ((fun y => y.1.1) <$>
       List.filter (fun y : ref * bool * bool => y.1.2 && negb y.2)
         (zip (zip l (map before l)) (map after l))) <->
  x ∈ l /\ before x = true /\ after x = false.
Proof.
  induction l as [|y l IH]; simpl.
  - split; [by intros H%elem_of_nil | by intros [H%elem_of_nil _]].
  - destruct (before y && negb (after y)) eqn:E; simpl.
    + apply andb_true_iff in E as [E1 E2]. apply negb_true_iff in E2.
      rewrite !elem_of_cons, IH. split.
      * intros [->|(? & ? & ?)]; [by repeat split; [left|..]|by repeat split; [right|..]].
      * intros [[->|?] [? ?]]; [by left|by right].
    + rewrite elem_of_cons, IH. split.
      * intros (? & ? & ?). by repeat split; [right|..].
      * intros [[->|?] [H1 H2]]; [|done].
        rewrite H1, H2 in E. done.
Qed.

Lemma flags_same_of_iff w w' :
  (forall n, flag w' n "open" = true <-> flag w n "open" = true) ->
  forall n, flag w' n "open" = flag w n "open".
Proof.
  intros H n. specialize (H n).
  destruct (flag w' n "open"), (flag w n "open"); try done.
  - by destruct H as [H _]; specialize (H eq_refl).
  - by destruct H as [_ H]; specialize (H eq_refl).
Qed.

Lemma dispatch_closed_all detailsEls (l : list ref) w :
  (forall x, x ∈ l -> flag w x "open" = false) ->
  exists w',
    forEach l (fun other => Experience.dispatch_toggle other detailsEls) w = Ok tt w' /\
    (forall n, flag w' n "open" = flag w n "open") /\
    (forall x s, x ∈ l -> summary_of w x = Some s ->
       attr w' s "aria-expanded" = Some "false") /\
    (forall n, (forall x, x ∈ l -> summary_of w x <> Some n) ->
       attr w' n "aria-expanded" = attr w n "aria-expanded") /\
    accordion_frame w w'.
Proof.
  revert w. induction l as [|x l IH]; intros w Hclosed.
  - exists w. split; [done|]. split; [done|]. split.
    { intros x s H. by apply elem_of_nil in H. }
    split; [done|apply accordion_frame_refl].
  - destruct (dispatch_toggle_step x detailsEls w)
      as (w3 & Hrun & Hflags & Hs & He & Hf).
    assert (Hx : flag w x "open" = false) by (apply Hclosed; apply list_elem_of_here).
    assert (Hsame : forall n, flag w3 n "open" = flag w n "open").
    { apply flags_same_of_iff. intros n. rewrite Hflags. split; [by intros [? _]|].
      intros ?. split; [done|by left]. }
    destruct (IH w3) as (w' & Hrun' & Hfl' & Hs' & He' & Hf').
    { intros y Hy. rewrite Hsame. apply Hclosed. by apply list_elem_of_further. }
    exists w'. split; [simpl; by rewrite (bind_Ok _ _ _ _ _ Hrun)|].
    split; [intros n; by rewrite Hfl'|].
    split; [|split].
    + intros y s Hy Hys.
      destruct (decide (Exists (fun z => summary_of w z = Some s) l)) as [Hex|Hno].
      * apply Exists_exists in Hex as (z & Hz & Hzs).
        apply (Hs' z s Hz). by rewrite (summary_of_frame w w3 z Hf).
      * rewrite He'.
        2: { intros z Hz Hzs. apply Hno, Exists_exists. exists z. split; [done|].
             by rewrite <- (summary_of_frame w w3 z Hf). }
        apply elem_of_cons in Hy as [->|Hy].
        -- rewrite (Hs s Hys). by rewrite Hx.
        -- exfalso. apply Hno, Exists_exists. by exists y.
    + intros n Hn. rewrite He'.
      * apply He. apply Hn. apply list_elem_of_here.
      * intros z Hz. rewrite (summary_of_frame w w3 z Hf). apply Hn.
        by apply list_elem_of_further.
    + by eapply accordion_frame_trans.
Qed.

Lemma user_toggle_synced details detailsEls w :
  details ∈ detailsEls ->
  is_Some (heap w !! details) ->
  own_summaries detailsEls w ->
  aria_synced detailsEls w ->
  exists w',
    Experience.user_toggle details detailsEls w = Ok tt w' /\
    aria_synced detailsEls w' /\
    accordion_frame w w'.
Proof.
  intros Hin Hheap Hown Hsync.
  destruct (browser_toggle_step details w Hheap)
    as (w1 & Hrun1 & Hd1 & Ho1 & He1 & Hf1).
  destruct (dispatch_toggle_step details detailsEls w1)
    as (w3 & Hrun3 & Hfl3 & Hs3 & He3 & Hf3).
  set (closed := (fun y : ref * bool * bool => y.1.1) <$>
         List.filter (fun y : ref * bool * bool => y.1.2 && negb y.2)
           (zip (zip detailsEls (map (fun n => flag w1 n "open") detailsEls))
                (map (fun n => flag w3 n "open") detailsEls))).
  assert (Hclosed : forall x, x ∈ closed <->
            x ∈ detailsEls /\ flag w1 x "open" = true /\ flag w3 x "open" = false).
  { intros x. apply (closed_entries_spec detailsEls
                       (fun n => flag w1 n "open") (fun n => flag w3 n "open")). }
  destruct (dispatch_closed_all detailsEls closed w3)
    as (w' & Hrun' & Hfl' & Hs' & He' & Hf').
  { intros x Hx. by apply Hclosed in Hx as (_ & _ & ?). }
  assert (Hf13 : accordion_frame w w3) by (by eapply accordion_frame_trans).
  assert (Hfw : accordion_frame w w') by (by eapply accordion_frame_trans).
  exists w'. split.
  { unfold Experience.user_toggle. rewrite (bind_Ok _ _ _ _ _ Hrun1).
    rewrite (bind_Ok _ _ _ _ _ (mapM_is_open detailsEls w1)).
    rewrite (bind_Ok _ _ _ _ _ Hrun3).
    rewrite (bind_Ok _ _ _ _ _ (mapM_is_open detailsEls w3)).
    exact Hrun'. }
  split; [|done].
  intros d s Hd Hds. rewrite (summary_of_frame w w' d Hfw) in Hds.
  rewrite Hfl'.
  assert (Hd3 : flag w3 details "open" = flag w1 details "open").
  { destruct (flag w1 details "open") eqn:Ho.
    - apply Hfl3. split; [done|]. right. by left.
    - destruct (flag w3 details "open") eqn:Ho3; [|done].
      apply Hfl3 in Ho3 as [Ho3 _]. congruence. }
  destruct (decide (d ∈ closed)) as [Hc|Hc].
  - rewrite (Hs' d s Hc) by (by rewrite (summary_of_frame w w3 d Hf13)).
    apply Hclosed in Hc as (_ & _ & ->). done.
  - rewrite He'.
    2: { intros x Hx Hxs. rewrite (summary_of_frame w w3 x Hf13) in Hxs.
         apply Hc. apply Hclosed in Hx as Hx'. destruct Hx' as (Hxin & _ & _).
         by rewrite (Hown d x s Hd Hxin Hds Hxs). }
    destruct (decide (d = details)) as [->|Hne].
    + rewrite (Hs3 s) by (by rewrite (summary_of_frame w w1 details Hf1)).
      by rewrite Hd3.
    + rewrite He3.
      2: { rewrite (summary_of_frame w w1 details Hf1). intros Hds'.
           apply Hne. by apply (Hown d details s). }
      rewrite He1, (Hsync d s Hd Hds). f_equal. f_equal.
      rewrite <- (Ho1 d Hne).
      destruct (flag w1 d "open") eqn:Ho.
      * destruct (flag w3 d "open") eqn:Ho3; [done|].
        exfalso. apply Hc, Hclosed. by repeat split.
      * destruct (flag w3 d "open") eqn:Ho3; [|done].
        apply Hfl3 in Ho3 as [Ho3 _]. congruence.
Qed.

Lemma own_summaries_frame detailsEls w w' :
  accordion_frame w w' -> own_summaries detailsEls w -> own_summaries detailsEls w'.
Proof.
  intros Hf Hown a b s Ha Hb Has Hbs.
  rewrite (summary_of_frame w w' a Hf) in Has.
  rewrite (summary_of_frame w w' b Hf) in Hbs. by apply (Hown a b s).
Qed.

(** X9. Experience accordion: [aria-expanded] mirrors the open state.  When
    no two entries share a summary and the [aria-expanded] attribute of each
    summary says whether its entry is open, this still holds after every
    sequence of user toggles of entries of the accordion; the toggles leave
    the tree, the classes, the values and every attribute other than [open]
    and [aria-expanded] as they were. *)
Theorem X9_aria_expanded_mirrors_the_open_state detailsEls (toggled : list ref) w :
  (forall d, d ∈ detailsEls -> is_Some (heap w !! d)) ->
  own_summaries detailsEls w ->
  aria_synced detailsEls w ->
  (forall d, d ∈ toggled -> d ∈ detailsEls) ->
  exists w',
    forEach toggled (fun d => Experience.user_toggle d detailsEls) w = Ok tt w' /\
    aria_synced detailsEls w' /\
    accordion_frame w w'.
Proof.
  revert w. induction toggled as [|d l IH]; intros w Hheap Hown Hsync Hsub.
  - exists w. split; [done|]. split; [done|apply accordion_frame_refl].
  - destruct (user_toggle_synced d detailsEls w) as (w1 & Hrun & Hsync1 & Hf1);
      [apply Hsub, list_elem_of_here|apply Hheap, Hsub, list_elem_of_here|done..|].
    destruct (IH w1) as (w' & Hrun' & Hsync' & Hf').
    + intros x Hx. apply Hf1. by apply Hheap.
    + by eapply own_summaries_frame.
    + done.
    + intros x Hx. by apply Hsub, list_elem_of_further.
    + exists w'. split; [simpl; by rewrite (bind_Ok _ _ _ _ _ Hrun)|].
      split; [done|]. by eapply accordion_frame_trans.
Qed.

Lemma accordion_frame_listeners f w : accordion_frame w (set_listeners f w).
Proof. by repeat split. Qed.

Lemma forEach_toggle_listeners (l detailsEls : list ref) w :
  exists f,
    forEach l (fun details =>
      addEventListener (Node details) "toggle"
        (ExperienceToggle details detailsEls)) w = Ok tt (set_listeners f w).
Proof.
  revert w. induction l as [|x l IH]; intros w.
  - exists (fun ls => ls). by destruct w.
  - simpl. unfold bind at 1. unfold addEventListener at 1.
    destruct (IH (set_listeners (fun ls => ls ++ [Listener (Node x) "toggle"
                    (ExperienceToggle x detailsEls)]) w)) as [f Hf].
    rewrite Hf.
    by exists (fun ls => f (ls ++ [Listener (Node x) "toggle"
                                    (ExperienceToggle x detailsEls)])).
Qed.

Lemma init_sync_loop detailsEls (l : list ref) w :
  own_summaries l w ->
  exists w',
    forEach l (fun details =>
      let* summary := qs [[SelTag "summary"]] (Some details) in
      match summary with
      | None => ret tt
      | Some summary =>
          addEventListener (Node summary) "keydown"
            (SummaryKeydown summary details detailsEls) ;;;
          addEventListener (Node details) "toggle" (SyncAria summary details) ;;;
          Experience.syncAria summary details
      end) w = Ok tt w' /\
    (forall n, flag w' n "open" = flag w n "open") /\
    (forall d s, d ∈ l -> summary_of w d = Some s ->
       attr w' s "aria-expanded" = Some (string_of_bool (flag w d "open"))) /\
    (forall n, (forall d, d ∈ l -> summary_of w d <> Some n) ->
       attr w' n "aria-expanded" = attr w n "aria-expanded") /\
    accordion_frame w w'.
Proof.
  revert w. induction l as [|d l IH]; intros w Hown.
  - exists w. split; [done|]. split; [done|]. split.
    { intros d s H. by apply elem_of_nil in H. }
    split; [done|apply accordion_frame_refl].
  - simpl. unfold bind at 1. unfold bind at 1. rewrite qs_answer.
    fold (summary_of w d).
    assert (Hown' : own_summaries l w).
    { intros a b s Ha Hb. apply Hown; by apply list_elem_of_further. }
    destruct (summary_of w d) as [s|] eqn:Hs.
    + unfold bind at 1. unfold addEventListener at 1.
      unfold bind at 1. unfold addEventListener at 1.
      set (w1 := set_listeners _ (set_listeners _ w)).
      assert (Hf1 : accordion_frame w w1).
      { eapply accordion_frame_trans; apply accordion_frame_listeners. }
      destruct (syncAria_step s d w1) as (w3 & Hrun3 & Hfl3 & Hs3 & He3 & Hf3).
      { by eapply summary_in_heap. }
      rewrite Hrun3.
      assert (Hf13 : accordion_frame w w3) by (by eapply accordion_frame_trans).
      destruct (IH w3) as (w' & Hrun' & Hfl' & Hs' & He' & Hf').
      { by eapply own_summaries_frame. }
      exists w'. split; [done|]. split; [intros n; by rewrite Hfl', Hfl3|].
      split; [|split; [|by eapply accordion_frame_trans]].
      * intros x sx Hx Hxs.
        destruct (decide (x ∈ l)) as [Hxl|Hxl].
        -- rewrite (Hs' x sx Hxl) by (by rewrite (summary_of_frame w w3 x Hf13)).
           by rewrite Hfl3.
        -- apply elem_of_cons in Hx as [->|Hx]; [|done].
           rewrite Hs in Hxs. injection Hxs as <-.
           rewrite He'; [by rewrite Hs3|].
           intros y Hy Hys. rewrite (summary_of_frame w w3 y Hf13) in Hys.
           apply Hxl.
           rewrite (Hown d y s); [done|apply list_elem_of_here|
                                  by apply list_elem_of_further|done..].
      * intros n Hn. rewrite He'.
        -- apply He3. intros ->. apply (Hn d); [apply list_elem_of_here|done].
        -- intros y Hy. rewrite (summary_of_frame w w3 y Hf13).
           apply Hn. by apply list_elem_of_further.
    + unfold ret. destruct (IH w Hown') as (w' & Hrun' & Hfl' & Hs' & He' & Hf').
      exists w'. split; [done|]. split; [done|]. split; [|split; [|done]].
      * intros x sx Hx Hxs. apply elem_of_cons in Hx as [->|Hx]; [congruence|].
        by apply Hs'.
      * intros n Hn. apply He'. intros y Hy. apply Hn. by apply list_elem_of_further.
Qed.

(** X10. Experience accordion: initialisation sets [aria-expanded].  After
    [initExperience], when no two entries share a summary, the
    [aria-expanded] attribute of the summary of every entry says whether the
    entry is open; no entry is opened or closed, and the tree, the classes,
    the values and every other attribute are as they were. *)
Theorem X10_accordion_init_mirrors_the_open_state w :
  let detailsEls := select (sel_class "experience-details") None w in
  own_summaries detailsEls w ->
  exists w',
    Experience.initExperience w = Ok tt w' /\
    aria_synced detailsEls w' /\
    (forall n, flag w' n "open" = flag w n "open") /\
    accordion_frame w w'.
Proof.
  intros detailsEls Hown. unfold Experience.initExperience.
  unfold bind at 1. rewrite qsa_answer. fold detailsEls.
  destruct (is_empty_list detailsEls) eqn:Hempty.
  - exists w. split; [done|]. split.
    + destruct detailsEls; [|done]. intros d s H. by apply elem_of_nil in H.
    + split; [done|apply accordion_frame_refl].
  - destruct (forEach_toggle_listeners detailsEls detailsEls w) as [f Hf].
    rewrite (bind_Ok _ _ _ _ _ Hf).
    destruct (init_sync_loop detailsEls detailsEls (set_listeners f w))
      as (w' & Hrun & Hfl & Hs & _ & Hfr); [done|].
    exists w'. split; [done|].
    assert (Hfw : accordion_frame w w').
    { eapply accordion_frame_trans; [apply accordion_frame_listeners|exact Hfr]. }
    split; [|by split].
    intros d s Hd Hds. rewrite (summary_of_frame w w' d Hfw) in Hds.
    rewrite (Hs d s Hd Hds). by rewrite Hfl.
Qed.

(** ** Smooth scroll: the click handler and its [blur] listener *)

Lemma smooth_click_scrolls parse target w link href sel dest :
  clicked_link w target = Some link ->
  attr w link "href" = Some href -> href <> "#" ->
  parse href = Some sel ->
  head (select sel None w) = Some dest ->
  SmoothScroll.on_click parse target w
  = Ok tt (if ref_matches SmoothScroll.naturally_focusable (heap w) dest
           then scrolled dest w
           else add_listeners [blur_once dest]
                  (set_activeElement (Some dest)
                     (update dest (with_attrs (insert "tabindex" "-1"))
                        (scrolled dest w)))).
Proof.
  intros Hl Hh Hne Hp Hs. unfold SmoothScroll.on_click, bind, SmoothScroll.closest.
  fold internal_link. unfold clicked_link in Hl. rewrite Hl.
  unfold getAttribute. rewrite Hh. simpl.
  rewrite bool_decide_eq_false_2 by done. rewrite Hp. unfold qs. rewrite Hs.
  simpl. by destruct (ref_matches SmoothScroll.naturally_focusable (heap w) dest).
Qed.

(** X11. Smooth scroll: a click inside an in-page link whose target is on
    the page.  The default action is prevented and the target is scrolled
    into view.  A target that is naturally focusable (a link, a form control,
    an element with [tabindex]) is left alone: no element changes, the focus
    stays, no listener is added.  Any other target gets [tabindex="-1"], the
    focus, and one [blur] listener; no other attribute changes, and the
    target now counts as focusable. *)
Theorem X11_in_page_link_scrolls_and_moves_focus
    parse target w link href sel dest :
  clicked_link w target = Some link ->
  attr w link "href" = Some href -> href <> "#" ->
  parse href = Some sel ->
  head (select sel None w) = Some dest ->
  exists w',
    SmoothScroll.on_click parse target w = Ok tt w' /\
    defaultPrevented w' = true /\
    scrollTarget w' = Some dest /\
    tree w' = tree w /\
    if ref_matches SmoothScroll.naturally_focusable (heap w) dest
    then heap w' = heap w /\ activeElement w' = activeElement w /\
         listeners w' = listeners w
    else attr w' dest "tabindex" = Some "-1" /\
         activeElement w' = Some dest /\
         listeners w' = listeners w ++ [blur_once dest] /\
         (forall n a, n <> dest \/ a <> "tabindex" -> attr w' n a = attr w n a) /\
         ref_matches SmoothScroll.naturally_focusable (heap w') dest = true.
Proof.
  intros Hl Hh Hne Hp Hs.
  rewrite (smooth_click_scrolls parse target w link href sel dest) by done.
  assert (Hd : is_Some (heap w !! dest)).
  { apply head_Some_elem_of in Hs.
    destruct (select_in_heap _ _ _ _ Hs) as (e & He & _). by exists e. }
  destruct (ref_matches SmoothScroll.naturally_focusable (heap w) dest) eqn:Hf.
  - eexists. split; [reflexivity|]. by repeat split.
  - eexists. split; [reflexivity|]. split; [done|]. split; [done|].
    split; [done|]. split.
    { change (attr (update dest (with_attrs (insert "tabindex" "-1")) w) dest
                "tabindex" = Some "-1"). by apply attr_update_insert. }
    split; [done|]. split; [done|]. split.
    { intros n a Hna.
      change (attr (update dest (with_attrs (insert "tabindex" "-1")) w) n a
              = attr w n a).
      destruct Hna as [Hn|Ha]; [by apply attr_update_ne|].
      apply attr_update_other. intros m. by rewrite lookup_insert_ne. }
    destruct Hd as [e He]. unfold ref_matches. simpl.
    rewrite lookup_alter_eq, He. simpl.
    unfold el_matches, SmoothScroll.naturally_focusable. simpl.
    rewrite lookup_insert_eq.
    rewrite (bool_decide_eq_true_2 (is_Some (Some "-1"))) by (by eexists).
    by rewrite !orb_true_r.
Qed.

Lemma remove_once_last dest (ls : list listener) :
  Forall (fun l => SmoothScroll.is_blur_once dest l = false) ls ->
  SmoothScroll.remove_once dest (ls ++ [blur_once dest]) = ls.
Proof.
  induction 1 as [|l ls Hl _ IH]; simpl.
  - by rewrite !bool_decide_eq_true_2.
  - by rewrite Hl, IH.
Qed.

Lemma not_focusable_no_tabindex w dest e :
  heap w !! dest = Some e ->
  ref_matches SmoothScroll.naturally_focusable (heap w) dest = false ->
  attrs e !! "tabindex" = None.
Proof.
  intros He. unfold ref_matches. rewrite He.
  unfold el_matches, SmoothScroll.naturally_focusable. simpl.
  rewrite !orb_false_iff. intros (_ & _ & _ & _ & _ & H & _).
  rewrite andb_true_r in H. apply bool_decide_eq_false in H.
  destruct (attrs e !! "tabindex"); [|done]. exfalso. apply H. by eexists.
Qed.

Lemma tabindex_round_trip dest (h : gmap nat element) e :
  h !! dest = Some e -> attrs e !! "tabindex" = None ->
  alter (with_attrs (delete "tabindex")) dest
    (alter (with_attrs (insert "tabindex" "-1")) dest h) = h.
Proof.
  intros He Ht. apply map_eq. intros k.
  destruct (decide (k = dest)) as [->|Hk].
  - rewrite !lookup_alter_eq, He. simpl. f_equal.
    destruct e as [tag a c t v d o]. unfold with_attrs. simpl in *.
    by rewrite delete_insert_id.
  - by rewrite !lookup_alter_ne.
Qed.

Lemma find_same {A} (f g : A -> bool) (l : list A) :
  (forall x, f x = g x) -> List.find f l = List.find g l.
Proof. intros H. induction l as [|x l IH]; [done|]. simpl. by rewrite H, IH. Qed.

Lemma select_tabindex sel root dest w :
  reads_attr "tabindex" sel = false ->
  select sel root (update dest (with_attrs (insert "tabindex" "-1")) w)
  = select sel root w.
Proof. intros H. apply select_update. by apply stable_insert. Qed.

(** X12. Smooth scroll: the [blur] listener takes back what the click
    added.  After a click that gave the target a [tabindex], the [blur] of
    the target leaves every element, the tree and the listeners exactly as
    they were before the click; and a second click on the link before the
    [blur] adds no second listener and changes no element. *)
Theorem X12_blur_takes_back_the_tabindex parse target w link href sel dest :
  clicked_link w target = Some link ->
  attr w link "href" = Some href -> href <> "#" ->
  parse href = Some sel ->
  head (select sel None w) = Some dest ->
  reads_attr "tabindex" sel = false ->
  ref_matches SmoothScroll.naturally_focusable (heap w) dest = false ->
  Forall (fun l => SmoothScroll.is_blur_once dest l = false) (listeners w) ->
  exists w1,
    SmoothScroll.on_click parse target w = Ok tt w1 /\
    (exists w2,
       SmoothScroll.on_target_blur dest w1 = Ok tt w2 /\
       heap w2 = heap w /\ tree w2 = tree w /\ listeners w2 = listeners w) /\
    (exists w2,
       SmoothScroll.on_click parse target w1 = Ok tt w2 /\
       heap w2 = heap w1 /\ listeners w2 = listeners w1 /\
       activeElement w2 = Some dest).
Proof.
  intros Hl Hh Hne Hp Hs Hsel Hf Hls.
  assert (Hd : exists e, heap w !! dest = Some e).
  { apply head_Some_elem_of in Hs.
    destruct (select_in_heap _ _ _ _ Hs) as (e & He & _). by exists e. }
  destruct Hd as [e He].
  rewrite (smooth_click_scrolls parse target w link href sel dest) by done.
  rewrite Hf. eexists. split; [reflexivity|]. split.
  - eexists. split; [reflexivity|]. simpl. split; [|split; [done|]].
    + apply (tabindex_round_trip dest (heap w) e He).
      by eapply not_focusable_no_tabindex.
    + by apply remove_once_last.
  - set (w1 := add_listeners _ _).
    assert (Hheap : heap w1 = heap (update dest (with_attrs (insert "tabindex" "-1")) w))
      by done.
    assert (Htree : tree w1 = tree w) by done.
    assert (Hsame : forall s root, reads_attr "tabindex" s = false ->
              select s root w1 = select s root w).
    { intros s root Hr. rewrite <- (select_tabindex s root dest w Hr).
      unfold select. by rewrite Hheap, Htree. }
    assert (Hfoc : ref_matches SmoothScroll.naturally_focusable (heap w1) dest = true).
    { rewrite Hheap. unfold ref_matches. simpl. rewrite lookup_alter_eq, He. simpl.
      unfold el_matches, SmoothScroll.naturally_focusable. simpl.
      rewrite lookup_insert_eq.
      rewrite (bool_decide_eq_true_2 (is_Some (Some "-1"))) by (by eexists).
      by rewrite !orb_true_r. }
    rewrite (smooth_click_scrolls parse target w1 link href sel dest); try done.
    + rewrite Hfoc. eexists. split; [reflexivity|]. by repeat split.
    + unfold clicked_link. rewrite Htree.
      unfold clicked_link in Hl. rewrite <- Hl.
      apply find_same. intros n. rewrite Hheap. simpl.
      apply ref_matches_alter. by apply stable_insert.
    + unfold attr. rewrite Hheap.
      change (attr (update dest (with_attrs (insert "tabindex" "-1")) w) link "href"
              = Some href).
      rewrite attr_update_other; [done|]. intros m. by rewrite lookup_insert_ne.
    + by rewrite Hsame.
Qed.

Lemma clicked_link_href w target link :
  clicked_link w target = Some link ->
  exists href, attr w link "href" = Some href /\ String.prefix "#" href = true.
Proof.
  intros Hl. unfold clicked_link in Hl. apply find_some in Hl as [_ Hm].
  unfold ref_matches in Hm. unfold attr.
  destruct (heap w !! link) as [e|]; [|done]. simpl.
  unfold el_matches, internal_link in Hm. simpl in Hm.
  rewrite orb_false_r, andb_true_r in Hm. apply andb_true_iff in Hm as [_ Hm].
  destruct (attrs e !! "href") as [href|]; [|done]. by exists href.
Qed.

Lemma smooth_click_bare_hash parse target w link :
  clicked_link w target = Some link ->
  attr w link "href" = Some "#" ->
  SmoothScroll.on_click parse target w = Ok tt w.
Proof.
  intros Hl Hh. unfold clicked_link in Hl.
  unfold SmoothScroll.on_click, bind, SmoothScroll.closest.
  fold internal_link. rewrite Hl. unfold getAttribute. by rewrite Hh.
Qed.

Lemma smooth_click_no_selector parse target w link href :
  clicked_link w target = Some link ->
  attr w link "href" = Some href -> href <> "#" ->
  parse href = None ->
  SmoothScroll.on_click parse target w = Throw SyntaxError w.
Proof.
  intros Hl Hh Hne Hp. unfold clicked_link in Hl.
  unfold SmoothScroll.on_click, bind, SmoothScroll.closest.
  fold internal_link. rewrite Hl. unfold getAttribute. rewrite Hh. simpl.
  rewrite bool_decide_eq_false_2 by done. by rewrite Hp.
Qed.

(** X13. Smooth scroll: a click changes nothing unless it scrolls.  Whatever
    the page, the click handler either throws or returns.  It throws only a
    [SyntaxError], with the world exactly as it was (so before
    [preventDefault]), and only for a click inside a link whose [href]
    starts with [#], is not ["#"] and is not the text of a selector; for
    such a link it always does.  When it returns, either the world is
    exactly as it was (no link, the [href] ["#"], no element for the
    selector), or the [href] of the link is a selector, the first element
    it selects is scrolled into view and the default action is prevented;
    the tree stays as it was. *)
Theorem X13_click_changes_nothing_unless_it_scrolls parse target w :
  match SmoothScroll.on_click parse target w with
  | Throw e w' =>
      e = SyntaxError /\ w' = w /\
      exists link href,
        clicked_link w target = Some link /\
        attr w link "href" = Some href /\
        String.prefix "#" href = true /\ href <> "#" /\
        parse href = None
  | Ok _ w' =>
      w' = w \/
      exists link href sel dest,
        clicked_link w target = Some link /\
        attr w link "href" = Some href /\
        String.prefix "#" href = true /\ href <> "#" /\
        parse href = Some sel /\
        head (select sel None w) = Some dest /\
        defaultPrevented w' = true /\
        scrollTarget w' = Some dest /\
        tree w' = tree w
  end /\
  (forall link href,
     clicked_link w target = Some link ->
     attr w link "href" = Some href -> href <> "#" ->
     parse href = None ->
     SmoothScroll.on_click parse target w = Throw SyntaxError w) /\
  (forall link,
     clicked_link w target = Some link ->
     attr w link "href" = Some "#" ->
     SmoothScroll.on_click parse target w = Ok tt w).
Proof.
  split; [|split; [exact (smooth_click_no_selector parse target w)
                  | exact (smooth_click_bare_hash parse target w)]].
  destruct (clicked_link w target) as [link|] eqn:Hl.
  2: { rewrite smooth_click_without_link by exact Hl. by left. }
  destruct (clicked_link_href w target link Hl) as (href & Hh & Hpre).
  destruct (decide (href = "#")) as [->|Hne].
  { rewrite (smooth_click_bare_hash parse target w link) by done. by left. }
  destruct (parse href) as [sel|] eqn:Hp.
  2: { rewrite (smooth_click_no_selector parse target w link href) by done.
       split; [done|]. split; [done|]. by exists link, href. }
  destruct (head (select sel None w)) as [dest|] eqn:Hs.
  - rewrite (smooth_click_scrolls parse target w link href sel dest) by done.
    right. exists link, href, sel, dest.
    by destruct (ref_matches SmoothScroll.naturally_focusable (heap w) dest).
  - rewrite (smooth_click_without_target parse target w link href sel); try done.
    + by left.
    + by destruct (select sel None w).
Qed.

(** ** Debounce and the reset timer of the copy confirmation *)

Lemma last_cons_default {X} (rest : list X) (x d : X) :
  List.last (x :: rest) d = List.last rest x.
Proof.
  revert x d. induction rest as [|y r IH]; intros x d; [done|].
  change (List.last (x :: y :: r) d) with (List.last (y :: r) d).
  by rewrite !IH.
Qed.

Section DebounceRuns.

Context {A S : Type}.
Variable fn : A -> S -> S.
Variable wait : N.

Lemma advance_empty (t : N) (tb : Timers.table A) :
  Timers.pending tb = [] ->
  Timers.advance t tb
  = ([], Timers.Table (N.max (Timers.clock tb) t) (Timers.next_id tb) []).
Proof. intros H. unfold Timers.advance. by rewrite H. Qed.

Lemma debounced_arms (args : A) (st : Debounce.state A S) :
  Forall (fun x => Some (Timers.t_id x) = Debounce.timer st)
         (Timers.pending (Debounce.timers st)) ->
  armed wait (Timers.clock (Debounce.timers st)) args (Debounce.page st)
        (Debounce.debounced wait args st).
Proof.
  intros H. unfold armed, Debounce.debounced.
  destruct st as [tm [c n p] u]. simpl in *.
  assert (Hclear : Timers.pending (Timers.clearTimeout tm (Timers.Table c n p)) = []).
  { destruct tm as [i|]; simpl.
    - induction H as [|x l Hx _ IH]; [done|]. simpl.
      injection Hx as Hx. by rewrite bool_decide_eq_true_2.
    - by destruct H. }
  destruct (Timers.clearTimeout tm (Timers.Table c n p)) as [c' n' p'] eqn:E.
  simpl in Hclear. subst p'.
  assert (c' = c) as ->.
  { destruct tm; simpl in E; by injection E. }
  by eexists _, _.
Qed.

Lemma elapse_armed_early t args p (st : Debounce.state A S) t' :
  armed wait t args p st -> (t <= t')%N -> (t' < t + wait)%N ->
  exists id n,
    Debounce.elapse fn t' st
    = Debounce.State (Some id)
        (Timers.Table t' n [Timers.Timer id (t + wait)%N args]) p.
Proof.
  intros (id & n & ->) H1 H2. exists id, n.
  unfold Debounce.elapse, Timers.advance, Timers.is_due. simpl.
  rewrite N.max_r by done.
  destruct (N.leb_spec (t + wait) t') as [H|H]; [lia|]. done.
Qed.

Lemma elapse_armed_late t args p (st : Debounce.state A S) t' :
  armed wait t args p st -> (t + wait <= t')%N ->
  exists id n,
    Debounce.elapse fn t' st
    = Debounce.State (Some id) (Timers.Table t' n []) (fn args p).
Proof.
  intros (id & n & ->) H. exists id, n.
  unfold Debounce.elapse, Timers.advance, Timers.is_due. simpl.
  rewrite N.max_r by lia.
  destruct (N.leb_spec (t + wait) t') as [H'|H']; [done|lia].
Qed.

Lemma run_burst t args p (st : Debounce.state A S) (rest : list (N * A)) :
  armed wait t args p st -> burst wait t rest ->
  armed wait (List.last rest (t, args)).1 (List.last rest (t, args)).2 p
        (Debounce.run fn wait rest st).
Proof.
  revert t args st. induction rest as [|[t' a'] rest IH]; intros t args st Ha Hb.
  - done.
  - destruct Hb as (H1 & H2 & Hb).
    destruct (elapse_armed_early t args p st t' Ha H1 H2) as (id & n & He).
    assert (Ha' : armed wait t' a' p (Debounce.debounced wait a' (Debounce.elapse fn t' st))).
    { rewrite He.
      apply (debounced_arms a'
               (Debounce.State (Some id)
                  (Timers.Table t' n [Timers.Timer id (t + wait)%N args]) p)).
      simpl. by constructor. }
    specialize (IH t' a' _ Ha' Hb).
    change (Debounce.run fn wait ((t', a') :: rest) st)
      with (Debounce.run fn wait rest
              (Debounce.debounced wait a' (Debounce.elapse fn t' st))).
    by rewrite last_cons_default.
Qed.

End DebounceRuns.

Lemma first_call_arms {A S} (fn : A -> S -> S) (wait : N)
    (st0 : Debounce.state A S) t1 a1 :
  Timers.pending (Debounce.timers st0) = [] ->
  (Timers.clock (Debounce.timers st0) <= t1)%N ->
  armed wait t1 a1 (Debounce.page st0)
        (Debounce.debounced wait a1 (Debounce.elapse fn t1 st0)).
Proof.
  intros Hp Hc. unfold Debounce.elapse. rewrite advance_empty by done.
  rewrite N.max_r by done. simpl.
  apply (debounced_arms wait a1
           (Debounce.State (Debounce.timer st0)
              (Timers.Table t1 (Timers.next_id (Debounce.timers st0)) [])
              (Debounce.page st0))).
  simpl. constructor.
Qed.

(** X14. Debounce: a burst of calls runs the function once.  When every
    call of the debounced function comes less than [wait] after the previous
    one, the function has not run at any time before [wait] has passed since
    the last call (one timer is pending), and from then on it has run exactly
    once, with the arguments of the last call (no timer is pending). *)
Theorem X14_debounce_runs_once_after_a_burst {A S} (fn : A -> S -> S) (wait : N)
    (st0 : Debounce.state A S) (t1 : N) (a1 : A) (rest : list (N * A)) (T : N) :
  Timers.pending (Debounce.timers st0) = [] ->
  (Timers.clock (Debounce.timers st0) <= t1)%N ->
  burst wait t1 rest ->
  let last_call := List.last rest (t1, a1) in
  (last_call.1 <= T)%N ->
  let st := Debounce.elapse fn T (Debounce.run fn wait ((t1, a1) :: rest) st0) in
  Debounce.page st
  = (if (T <? last_call.1 + wait)%N then Debounce.page st0
     else fn last_call.2 (Debounce.page st0)) /\
  length (Timers.pending (Debounce.timers st))
  = if (T <? last_call.1 + wait)%N then 1%nat else 0%nat.
Proof.
  intros Hp Hc Hb last_call HT st.
  pose proof (first_call_arms fn wait st0 t1 a1 Hp Hc) as Ha.
  pose proof (run_burst fn wait t1 a1 _ _ rest Ha Hb) as Hl.
  fold last_call in Hl.
  change (Debounce.run fn wait rest
            (Debounce.debounced wait a1 (Debounce.elapse fn t1 st0)))
    with (Debounce.run fn wait ((t1, a1) :: rest) st0) in Hl.
  destruct (N.ltb_spec T (last_call.1 + wait)) as [Hlt|Hge].
  - destruct (elapse_armed_early fn wait _ _ _ _ T Hl HT Hlt) as (id & n & He).
    unfold st. by rewrite He.
  - destruct (elapse_armed_late fn wait _ _ _ _ T Hl Hge) as (id & n & He).
    unfold st. by rewrite He.
Qed.

Lemma filter_length_le {X} (f : X -> bool) (l : list X) :
  (length (List.filter f l) <= length l)%nat.
Proof.
  induction l as [|x l IH]; [done|]. simpl. destruct (f x); simpl; lia.
Qed.

Lemma elapse_pending_le {A S} (fn : A -> S -> S) t (st : Debounce.state A S) :
  (length (Timers.pending (Debounce.timers (Debounce.elapse fn t st)))
   <= length (Timers.pending (Debounce.timers st)))%nat /\
  Debounce.timer (Debounce.elapse fn t st) = Debounce.timer st /\
  (Forall (fun x => Some (Timers.t_id x) = Debounce.timer st)
          (Timers.pending (Debounce.timers st)) ->
   Forall (fun x => Some (Timers.t_id x) = Debounce.timer st)
          (Timers.pending (Debounce.timers (Debounce.elapse fn t st)))).
Proof.
  unfold Debounce.elapse, Timers.advance. simpl.
  split; [apply filter_length_le|]. split; [done|].
  intros H. apply Forall_forall. intros x Hx.
  apply list_elem_of_In, filter_In in Hx as [Hx _].
  rewrite Forall_forall in H. by apply H, list_elem_of_In.
Qed.

(** X15. Debounce: never more than one timer.  Whatever the calls and their
    times, the closure has at most one timer pending after each of them and
    at every later time. *)
Theorem X15_debounce_keeps_one_timer {A S} (fn : A -> S -> S) (wait : N)
    (st0 : Debounce.state A S) (calls : list (N * A)) (T : N) :
  Timers.pending (Debounce.timers st0) = [] ->
  (length (Timers.pending (Debounce.timers (Debounce.run fn wait calls st0)))
   <= 1)%nat /\
  (length (Timers.pending
             (Debounce.timers (Debounce.elapse fn T (Debounce.run fn wait calls st0))))
   <= 1)%nat.
Proof.
  intros Hp.
  assert (Hinv : forall st : Debounce.state A S,
            Forall (fun x => Some (Timers.t_id x) = Debounce.timer st)
                   (Timers.pending (Debounce.timers st)) ->
            (length (Timers.pending (Debounce.timers st)) <= 1)%nat ->
            let st' := Debounce.run fn wait calls st in
            (length (Timers.pending (Debounce.timers st')) <= 1)%nat).
  { induction calls as [|[t a] calls IH]; intros st HF Hlen; [done|].
    change (Debounce.run fn wait ((t, a) :: calls) st)
      with (Debounce.run fn wait calls
              (Debounce.debounced wait a (Debounce.elapse fn t st))).
    destruct (elapse_pending_le fn t st) as (_ & Ht & HF').
    destruct (debounced_arms wait a (Debounce.elapse fn t st)) as (id & n & E).
    { rewrite Ht. by apply HF'. }
    rewrite E. apply IH; simpl; [|done]. by constructor. }
  assert (H1 : (length (Timers.pending
                          (Debounce.timers (Debounce.run fn wait calls st0))) <= 1)%nat).
  { apply Hinv; rewrite Hp; [constructor|simpl; lia]. }
  split; [done|].
  destruct (elapse_pending_le fn T (Debounce.run fn wait calls st0)) as (Hle & _).
  lia.
Qed.

Lemma on_resize_run sections w :
  NavHighlight.on_resize sections w = Ok tt (set_observed (fun _ => sections) w).
Proof.
  unfold NavHighlight.on_resize, bind, NavHighlight.disconnect.
  by rewrite forEach_observe_run.
Qed.

(** X16. Nav highlight: the debounced [resize] listener.  After a burst of
    [resize] events, each less than 200 ms after the previous one, the page
    is untouched until 200 ms have passed since the last event; from then on
    the observer has been disconnected and observes every section again,
    once and in order, whatever it observed before. *)
Theorem X16_resize_burst_observes_the_sections_once
    (sections : list ref) (st0 : Debounce.state unit world)
    (t1 : N) (rest : list (N * unit)) (T : N) :
  Timers.pending (Debounce.timers st0) = [] ->
  (Timers.clock (Debounce.timers st0) <= t1)%N ->
  burst 200 t1 rest ->
  let tn := (List.last rest (t1, tt)).1 in
  (tn <= T)%N ->
  let st := Debounce.elapse (resize_callback sections) T
              (Debounce.run (resize_callback sections) 200 ((t1, tt) :: rest) st0) in
  Debounce.page st
  = if (T <? tn + 200)%N then Debounce.page st0
    else set_observed (fun _ => sections) (Debounce.page st0).
Proof.
  intros Hp Hc Hb tn HT st.
  pose proof (first_call_arms (resize_callback sections) 200 st0 t1 tt Hp Hc) as Ha.
  pose proof (run_burst (resize_callback sections) 200 t1 tt _ _ rest Ha Hb) as Hl.
  change (Debounce.run (resize_callback sections) 200 rest
            (Debounce.debounced 200 tt
               (Debounce.elapse (resize_callback sections) t1 st0)))
    with (Debounce.run (resize_callback sections) 200 ((t1, tt) :: rest) st0) in Hl.
  destruct (N.ltb_spec T (tn + 200)) as [Hlt|Hge].
  - destruct (elapse_armed_early (resize_callback sections) 200 _ _ _ _ T Hl HT Hlt)
      as (id & n & He).
    unfold st. by rewrite He.
  - destruct (elapse_armed_late (resize_callback sections) 200 _ _ _ _ T Hl Hge)
      as (id & n & He).
    unfold st. rewrite He. simpl. unfold resize_callback at 1.
    by rewrite on_resize_run.
Qed.

Lemma confirm_on_shown btn confirm w :
  is_Some (heap w !! btn) -> confirm_shown (confirm_on btn confirm w) btn confirm.
Proof.
  intros Hb. unfold confirm_shown, confirm_on. split.
  - rewrite has_class_update_keep by done. by apply has_class_update_add.
  - apply flag_update_delete.
Qed.

Lemma confirm_off_hidden btn confirm w :
  is_Some (heap w !! confirm) -> confirm_hidden (confirm_off btn confirm w) btn confirm.
Proof.
  intros Hc. unfold confirm_hidden, confirm_off. split.
  - rewrite has_class_update_keep by done. apply has_class_update_remove.
  - apply flag_update_insert. by apply is_Some_heap_update.
Qed.

Lemma showConfirm_confirms btn confirm (st : CopyEmail.state) :
  is_Some (heap (CopyEmail.page st) !! btn) ->
  is_Some (heap (CopyEmail.page st) !! confirm) ->
  Forall (fun x => Some (Timers.t_id x) = CopyEmail.resetTimer st)
         (Timers.pending (CopyEmail.timers st)) ->
  confirming btn confirm (Timers.clock (CopyEmail.timers st))
             (CopyEmail.showConfirm btn confirm st).
Proof.
  intros Hb Hc H. destruct st as [w tm [c n p]]. simpl in *.
  unfold confirming, CopyEmail.showConfirm, CopyEmail.on_page. simpl.
  assert (Hclear : Timers.clearTimeout tm (Timers.Table c n p) = Timers.Table c n []).
  { destruct tm as [i|]; simpl.
    - f_equal. induction H as [|x l Hx _ IH]; [done|]. simpl.
      injection Hx as Hx. by rewrite bool_decide_eq_true_2.
    - by destruct H. }
  rewrite Hclear. simpl. eexists _, _, _. split; [reflexivity|].
  split; [by apply (confirm_on_shown btn confirm w)|].
  split; by do 2 apply is_Some_heap_update.
Qed.

Lemma elapse_confirming btn confirm t st t' :
  confirming btn confirm t st -> (t <= t')%N ->
  exists id n w,
    CopyEmail.elapse btn confirm t' st
    = CopyEmail.State w (Some id)
        (Timers.Table t' n
           (if (t' <? t + 2000)%N then [Timers.Timer id (t + 2000)%N tt] else [])) /\
    (if (t' <? t + 2000)%N then confirm_shown w btn confirm
     else confirm_hidden w btn confirm) /\
    is_Some (heap w !! btn) /\ is_Some (heap w !! confirm).
Proof.
  intros (id & n & w & -> & Hs & Hb & Hc) Ht.
  unfold CopyEmail.elapse, Timers.advance, Timers.is_due. simpl.
  rewrite N.max_r by done.
  destruct (N.ltb_spec t' (t + 2000)) as [Hlt|Hge].
  - rewrite (proj2 (N.leb_gt _ _)) by done. simpl.
    by eexists _, _, _.
  - rewrite (proj2 (N.leb_le _ _)) by done. simpl.
    eexists _, _, _. split; [reflexivity|].
    split; [by apply (confirm_off_hidden btn confirm w)|].
    split; by do 2 apply is_Some_heap_update.
Qed.

Lemma activations_confirming btn confirm t st (rest : list N) :
  confirming btn confirm t st -> ascending t rest ->
  confirming btn confirm (List.last rest t) (activations btn confirm rest st).
Proof.
  revert t st. induction rest as [|t' rest IH]; intros t st Hc Ha; [done|].
  destruct Ha as [Ht Ha].
  destruct (elapse_confirming btn confirm t st t' Hc Ht)
    as (id & n & w & He & _ & Hb & Hcf).
  rewrite last_cons_default.
  change (activations btn confirm (t' :: rest) st)
    with (activations btn confirm rest
            (CopyEmail.showConfirm btn confirm (CopyEmail.elapse btn confirm t' st))).
  apply IH; [|done]. rewrite He.
  apply (showConfirm_confirms btn confirm
           (CopyEmail.State w (Some id) (Timers.Table t' n _))); [done..|].
  simpl. destruct (t' <? t + 2000)%N; by repeat constructor.
Qed.

(** X17. Copy email (second source file): the confirmation.  Whenever
    [showConfirm] has run, at whatever times, the button carries [is-copied]
    and the confirmation is not hidden at every time less than two seconds
    after the last run, with one reset timer pending; from two seconds after
    the last run the class is gone, the confirmation is hidden, and no timer
    is pending. *)
Theorem X17_copy_confirmation_shows_for_two_seconds
    btn confirm (st0 : CopyEmail.state) (t1 : N) (rest : list N) (T : N) :
  is_Some (heap (CopyEmail.page st0) !! btn) ->
  is_Some (heap (CopyEmail.page st0) !! confirm) ->
  Timers.pending (CopyEmail.timers st0) = [] ->
  (Timers.clock (CopyEmail.timers st0) <= t1)%N ->
  ascending t1 rest ->
  let tn := List.last rest t1 in
  (tn <= T)%N ->
  let st := CopyEmail.elapse btn confirm T
              (activations btn confirm (t1 :: rest) st0) in
  (if (T <? tn + 2000)%N
   then confirm_shown (CopyEmail.page st) btn confirm
   else confirm_hidden (CopyEmail.page st) btn confirm) /\
  length (Timers.pending (CopyEmail.timers st))
  = if (T <? tn + 2000)%N then 1%nat else 0%nat.
Proof.
  intros Hb Hc Hp Hcl Ha tn HT st.
  assert (H1 : confirming btn confirm t1
                 (CopyEmail.showConfirm btn confirm
                    (CopyEmail.elapse btn confirm t1 st0))).
  { destruct st0 as [w tm [c n p]]. simpl in *. subst p.
    unfold CopyEmail.elapse, Timers.advance. simpl. rewrite N.max_r by done.
    apply (showConfirm_confirms btn confirm
             (CopyEmail.State w tm (Timers.Table t1 n []))); [done..|].
    constructor. }
  pose proof (activations_confirming btn confirm t1 _ rest H1 Ha) as Hn.
  fold tn in Hn.
  change (activations btn confirm rest
            (CopyEmail.showConfirm btn confirm (CopyEmail.elapse btn confirm t1 st0)))
    with (activations btn confirm (t1 :: rest) st0) in Hn.
  destruct (elapse_confirming btn confirm tn _ T Hn HT) as (id & n & w & He & Hs & _).
  unfold st. rewrite He. simpl. split; [done|].
  by destruct (T <? tn + 2000)%N.
Qed.

(** ** The rules of the contact form *)

Lemma trimStart_blank ws s :
  blank ws = true -> JsString.trimStart (ws ++ s) = JsString.trimStart s.
Proof.
  induction ws as [|c ws IH]; [done|]. unfold blank. cbn [forallb app].
  intros [Hc Hws]%andb_true_iff. cbn [JsString.trimStart]. rewrite Hc. by apply IH.
Qed.

Lemma trimStart_all_blank ws : blank ws = true -> JsString.trimStart ws = [].
Proof.
  intros H. rewrite <- (app_nil_r ws). by rewrite trimStart_blank.
Qed.

Lemma trimStart_app s r :
  JsString.trimStart s <> [] ->
  JsString.trimStart (s ++ r) = JsString.trimStart s ++ r.
Proof.
  induction s as [|c s IH]; [done|]. cbn [JsString.trimStart app].
  destruct (JsString.isWhiteSpace c); [apply IH|done].
Qed.

Lemma trimStart_nil_blank s : JsString.trimStart s = [] -> blank s = true.
Proof.
  induction s as [|c s IH]; [done|]. cbn [JsString.trimStart]. unfold blank.
  cbn [forallb]. destruct (JsString.isWhiteSpace c); [apply IH|done].
Qed.

Lemma blank_rev ws : blank (rev ws) = blank ws.
Proof.
  unfold blank. apply eq_true_iff_eq. rewrite !forallb_forall.
  split; intros H x Hx; apply H; by apply in_rev in Hx || apply in_rev.
Qed.

Lemma trimEnd_blank s ws :
  blank ws = true -> JsString.trimEnd (s ++ ws) = JsString.trimEnd s.
Proof.
  intros H. unfold JsString.trimEnd. rewrite rev_app_distr.
  by rewrite trimStart_blank by (by rewrite blank_rev).
Qed.

Lemma trim_padded ws1 v ws2 :
  blank ws1 = true -> blank ws2 = true ->
  JsString.trim (ws1 ++ v ++ ws2) = JsString.trim v.
Proof.
  intros H1 H2. unfold JsString.trim. rewrite trimStart_blank by done.
  destruct (JsString.trimStart v) as [|c r] eqn:E.
  - rewrite trimStart_all_blank; [done|].
    unfold blank. rewrite forallb_app. fold (blank v) (blank ws2).
    by rewrite (trimStart_nil_blank v E), H2.
  - rewrite trimStart_app by (by rewrite E). rewrite E. by apply trimEnd_blank.
Qed.

(** X18. Contact form: the rules ignore surrounding white space.  White
    space before and after a value changes the verdict of none of the three
    rules, and a value of white space only is reported as missing by each
    rule, not as too short or malformed. *)
Theorem X18_rules_ignore_surrounding_white_space ws1 v ws2 :
  blank ws1 = true -> blank ws2 = true ->
  validate_name (ws1 ++ v ++ ws2) = validate_name v /\
  validate_email (ws1 ++ v ++ ws2) = validate_email v /\
  validate_message (ws1 ++ v ++ ws2) = validate_message v /\
  validate_name (ws1 ++ ws2) = Some "Name is required." /\
  validate_email (ws1 ++ ws2) = Some "Email address is required." /\
  validate_message (ws1 ++ ws2) = Some "A message is required.".
Proof.
  intros H1 H2. unfold validate_name, validate_email, validate_message.
  rewrite !trim_padded by done.
  assert (He : JsString.trim (ws1 ++ ws2) = []).
  { pose proof (trim_padded ws1 [] ws2 H1 H2) as H.
    change ([] ++ ws2) with ws2 in H. by rewrite H. }
  rewrite He. done.
Qed.

Lemma X18_rules_ignore_surrounding_white_space_witness :
  let ws1 := JsString.lit "  " in
  let v := JsString.lit "Al" in
  let ws2 := JsString.lit " " in
  validate_name (ws1 ++ v ++ ws2) = validate_name v /\
  validate_email (ws1 ++ v ++ ws2) = validate_email v /\
  validate_message (ws1 ++ v ++ ws2) = validate_message v /\
  validate_name (ws1 ++ ws2) = Some "Name is required." /\
  validate_email (ws1 ++ ws2) = Some "Email address is required." /\
  validate_message (ws1 ++ ws2) = Some "A message is required.".
Proof.
  apply (X18_rules_ignore_surrounding_white_space (JsString.lit "  ")
           (JsString.lit "Al") (JsString.lit " ")); reflexivity.
Defined.

Lemma occurrences_app x s r :
  occurrences x (s ++ r) = (occurrences x s + occurrences x r)%nat.
Proof. unfold occurrences. by rewrite List.filter_app, length_app. Qed.

Lemma occurrences_none s :
  forallb Regex.notSpaceAt s = true -> occurrences 0x40 s = 0%nat.
Proof.
  induction s as [|c s IH]; [done|]. cbn [forallb].
  intros [Hc Hs]%andb_true_iff. unfold occurrences. cbn [List.filter].
  unfold Regex.notSpaceAt in Hc. apply andb_true_iff in Hc as [_ Hc].
  apply negb_true_iff in Hc. rewrite Hc. by apply IH.
Qed.

Lemma no_blank_inside s c :
  forallb Regex.notSpaceAt s = true -> c ∈ s -> JsString.isWhiteSpace c = false.
Proof.
  intros H Hc. rewrite forallb_forall in H.
  specialize (H c (proj1 (list_elem_of_In _ _) Hc)).
  unfold Regex.notSpaceAt in H. apply andb_true_iff in H as [H _].
  by apply negb_true_iff in H.
Qed.

(** X19. Contact form: what each rule accepts.  The name rule accepts
    exactly the values whose trimmed length is at least 2, the message rule
    those of trimmed length at least 10, and the email rule exactly the
    values that, trimmed, have the shape [local@domain.tld] with three
    non-empty parts free of white space and [@]; an accepted email contains
    exactly one [@] and no white space. *)
Theorem X19_what_each_rule_accepts v :
  (validate_name v = None <-> (2 <= length (JsString.trim v))%nat) /\
  (validate_message v = None <-> (10 <= length (JsString.trim v))%nat) /\
  (validate_email v = None <-> address_shaped (JsString.trim v)) /\
  (validate_email v = None ->
   occurrences 0x40 (JsString.trim v) = 1%nat /\
   forall c, c ∈ JsString.trim v -> JsString.isWhiteSpace c = false).
Proof.
  assert (Hemail : validate_email v = None <-> address_shaped (JsString.trim v)).
  { unfold validate_email, address_shaped. rewrite <- email_test_spec.
    destruct (JsString.trim v) as [|c r] eqn:E.
    - split; [done|]. by intros [=].
    - cbn [JsString.isEmpty].
      destruct (Regex.email_test (c :: r)); by split. }
  split; [|split; [|split; [done|]]].
  - unfold validate_name. destruct (JsString.trim v) as [|c r]; simpl.
    + split; [done|lia].
    + destruct r; simpl; split; try done; try lia.
  - unfold validate_message.
    destruct (JsString.trim v) as [|c r] eqn:E; cbn [JsString.isEmpty].
    + split; [done|simpl; lia].
    + destruct (Nat.ltb_spec (length (c :: r)) 10); split; try done; lia.
  - intros (a & b & c & -> & _ & _ & _ & Ha & Hb & Hc)%Hemail. split.
    + rewrite occurrences_app. change (0x40%N :: b ++ 0x2E%N :: c)
        with ([0x40%N] ++ b ++ [0x2E%N] ++ c).
      rewrite !occurrences_app.
      rewrite (occurrences_none a Ha), (occurrences_none b Hb), (occurrences_none c Hc).
      reflexivity.
    + intros x Hx. rewrite elem_of_app, elem_of_cons, elem_of_app, elem_of_cons in Hx.
      destruct Hx as [Hx|[->|[Hx|[->|Hx]]]];
        [by apply (no_blank_inside a)|reflexivity|by apply (no_blank_inside b)
        |reflexivity|by apply (no_blank_inside c)].
Qed.

(** ** What no handler does *)

Lemma kv_ret {A} (a : A) : keeps_values (ret a).
Proof. by intros w n. Qed.

Lemma kv_throw {A} e : keeps_values (throw (A := A) e).
Proof. by intros w n. Qed.

Lemma kv_bind {A B} (m : M A) (k : A -> M B) :
  keeps_values m -> (forall a, keeps_values (k a)) -> keeps_values (bind m k).
Proof.
  intros Hm Hk w n. unfold bind. specialize (Hm w n).
  destruct (m w) as [a w'|e w']; simpl in *; [|done].
  by rewrite (Hk a w' n).
Qed.

Lemma kv_try_catch {A} (m : M A) (h : exn -> M A) :
  keeps_values m -> (forall e, keeps_values (h e)) -> keeps_values (try_catch m h).
Proof.
  intros Hm Hh w n. unfold try_catch. specialize (Hm w n).
  destruct (m w) as [a w'|e w']; simpl in *; [done|].
  by rewrite (Hh e w' n).
Qed.

Lemma kv_forEach {A} (l : list A) (f : A -> M unit) :
  (forall x, keeps_values (f x)) -> keeps_values (forEach l f).
Proof.
  intros Hf. induction l as [|x l IH]; [apply kv_ret|].
  simpl. apply kv_bind; [apply Hf|by intros _].
Qed.

Lemma kv_mapM {A B} (f : A -> M B) (l : list A) :
  (forall x, keeps_values (f x)) -> keeps_values (mapM f l).
Proof.
  intros Hf. induction l as [|x l IH]; [apply kv_ret|].
  simpl. apply kv_bind; [apply Hf|intros y].
  apply kv_bind; [done|intros ys; apply kv_ret].
Qed.

Lemma kv_same_heap {A} (m : M A) :
  (forall w, heap (world_of (m w)) = heap w) -> keeps_values m.
Proof. intros H w n. unfold value_of. by rewrite H. Qed.

Lemma kv_modify n f : (forall e, value (f e) = value e) -> keeps_values (modify n f).
Proof. intros H w m. simpl. by apply value_update_keep. Qed.

Lemma kv_set_textContent n s : keeps_values (set_textContent n s).
Proof. intros w m. simpl. by apply (value_update_keep n (with_textContent s) w m). Qed.

Lemma kv_set_flag n a b : keeps_values (set_flag n a b).
Proof. destruct b; by apply kv_modify. Qed.

Lemma kv_classList_toggle n c b : keeps_values (classList_toggle n c b).
Proof. destruct b; by apply kv_modify. Qed.

Lemma kv_createElement tag : keeps_values (createElement tag).
Proof.
  intros w n. simpl. unfold value_of. simpl.
  destruct (decide (n = fresh (dom (heap w)))) as [->|Hn].
  - rewrite lookup_insert_eq.
    assert (heap w !! fresh (dom (heap w)) = None) as ->; [|done].
    apply not_elem_of_dom, is_fresh.
  - by rewrite lookup_insert_ne.
Qed.

Lemma kv_deref r : keeps_values (deref r).
Proof. destruct r; [apply kv_ret|apply kv_throw]. Qed.

Ltac head_of t :=
  lazymatch t with
  | ?f _ => head_of f
  | _ => t
  end.

(** One step: by the shape of the computation; a function of the script is
    unfolded, a primitive that leaves the heap alone is recognised by
    computation. *)
Ltac keeps_step :=
  lazymatch goal with
  | |- forall _, _ => intro
  | |- keeps_values (bind _ _) => apply kv_bind
  | |- keeps_values (ret _) => apply kv_ret
  | |- keeps_values (throw _) => apply kv_throw
  | |- keeps_values (try_catch _ _) => apply kv_try_catch
  | |- keeps_values (forEach _ _) => apply kv_forEach
  | |- keeps_values (mapM _ _) => apply kv_mapM
  | |- keeps_values (deref _) => apply kv_deref
  | |- keeps_values (modify _ _) => apply kv_modify; done
  | |- keeps_values (set_textContent _ _) => apply kv_set_textContent
  | |- keeps_values (set_flag _ _ _) => apply kv_set_flag
  | |- keeps_values (classList_toggle _ _ _) => apply kv_classList_toggle
  | |- keeps_values (createElement _) => apply kv_createElement
  | |- keeps_values (match ?x with _ => _ end) => destruct x
  | |- keeps_values (fun _ => _) => apply kv_same_heap; reflexivity
  | |- keeps_values ?m => let h := head_of m in unfold h
  end.

Ltac keeps := repeat keeps_step.

Lemma kv_on_submit form submitBtn successEl :
  keeps_values (ContactForm.on_submit form submitBtn successEl).
Proof. keeps. Qed.

Lemma kv_on_send_settled form submitBtn successEl r :
  keeps_values (ContactForm.on_send_settled form submitBtn successEl r).
Proof. keeps. Qed.

Lemma kv_on_blur config : keeps_values (ContactForm.on_blur config).
Proof. keeps. Qed.

Lemma kv_on_input config input : keeps_values (ContactForm.on_input config input).
Proof. keeps. Qed.

Lemma kv_timer_fires : keeps_values ContactForm.timer_fires.
Proof. keeps. Qed.

Lemma kv_submission form submitBtn successEl :
  keeps_values (ContactForm.submission form submitBtn successEl).
Proof.
  unfold ContactForm.submission.
  apply kv_bind; [apply kv_on_submit|]. intros [|]; [apply kv_ret|].
  apply kv_bind; [apply kv_timer_fires|]. intros r. apply kv_on_send_settled.
Qed.

Lemma kv_nav_handle toggle nav ev : keeps_values (nav_handle toggle nav ev).
Proof. destruct ev; keeps. Qed.

Lemma kv_filter_items items filter k :
  keeps_values (SkillFilter.filter_items items filter k).
Proof.
  revert k. induction items as [|x l IH]; intros k; simpl; [keeps|].
  apply kv_bind; [keeps|]. intros c.
  destruct (_ || _); (apply kv_bind; [keeps|intros _; apply IH]).
Qed.

Lemma kv_filter_items_alt items filter k :
  keeps_values (SkillFilterAlt.filter_items items filter k).
Proof.
  revert k. induction items as [|x l IH]; intros k; simpl; [keeps|].
  apply kv_bind; [keeps|]. intros c.
  destruct (_ || _); (apply kv_bind; [keeps|intros _; apply IH]).
Qed.

Lemma kv_filter_click btn filterBtns skillItems emptyState :
  keeps_values (SkillFilter.on_click btn filterBtns skillItems emptyState).
Proof.
  unfold SkillFilter.on_click, SkillFilter.applyFilter.
  apply kv_bind; [keeps|]. intros f. apply kv_bind; [keeps|]. intros _.
  apply kv_bind; [apply kv_filter_items|]. keeps.
Qed.

Lemma kv_filter_click_alt btn filterBtns skillItems emptyState :
  keeps_values (SkillFilterAlt.on_click btn filterBtns skillItems emptyState).
Proof.
  unfold SkillFilterAlt.on_click, SkillFilterAlt.applyFilter.
  apply kv_bind; [keeps|]. intros f. apply kv_bind; [keeps|]. intros _.
  apply kv_bind; [apply kv_filter_items_alt|]. keeps.
Qed.

Lemma kv_filter_keydown filterBtns key :
  keeps_values (SkillFilter.on_keydown filterBtns key).
Proof.
  intros w n.
  destruct (filter_keydown_runs filterBtns key w) as (w' & -> & Hh).
  unfold value_of. simpl. by rewrite Hh.
Qed.

Lemma kv_user_toggle details detailsEls :
  keeps_values (Experience.user_toggle details detailsEls).
Proof. repeat keeps_step. Qed.

Lemma kv_summary_keydown details detailsEls key :
  keeps_values (Experience.on_summary_keydown details detailsEls key).
Proof.
  unfold Experience.on_summary_keydown. destruct (bool_decide _); [|apply kv_ret].
  apply kv_bind; [keeps|]. intros _. apply kv_user_toggle.
Qed.

Lemma kv_record_entries entries m : keeps_values (NavHighlight.record_entries entries m).
Proof.
  revert m. induction entries as [|[t r] l IH]; intros m; simpl; [keeps|].
  apply kv_bind; [keeps|]. intros id. apply IH.
Qed.

Lemma kv_observer_callback navLinks entries c :
  keeps_values (NavHighlight.observer_callback navLinks entries c).
Proof.
  unfold NavHighlight.observer_callback.
  apply kv_bind; [apply kv_record_entries|]. keeps.
Qed.

Lemma kv_on_resize sections : keeps_values (NavHighlight.on_resize sections).
Proof. keeps. Qed.

Lemma kv_smooth_click parse target : keeps_values (SmoothScroll.on_click parse target).
Proof. keeps. Qed.

Lemma kv_target_blur target : keeps_values (SmoothScroll.on_target_blur target).
Proof. keeps. Qed.

Lemma kv_init_script : keeps_values init_script.
Proof. keeps. Qed.

Lemma kv_init_alt : keeps_values init_alt.
Proof. keeps. Qed.

(** X20. No handler changes the value of a form control.  Every listener of
    the two source files that is modelled, and both initialisations, end
    (with or without an exception) in a world where every element has the
    value it had: the script never overwrites or resets what the user has
    typed, not even after a successful submission. *)
Theorem X20_no_handler_changes_a_field_value :
  (forall config, keeps_values (ContactForm.on_blur config)) /\
  (forall config input, keeps_values (ContactForm.on_input config input)) /\
  (forall form submitBtn successEl,
     keeps_values (ContactForm.on_submit form submitBtn successEl)) /\
  (forall form submitBtn successEl r,
     keeps_values (ContactForm.on_send_settled form submitBtn successEl r)) /\
  (forall form submitBtn successEl,
     keeps_values (ContactForm.submission form submitBtn successEl)) /\
  (forall toggle nav ev, keeps_values (nav_handle toggle nav ev)) /\
  (forall btn filterBtns skillItems emptyState,
     keeps_values (SkillFilter.on_click btn filterBtns skillItems emptyState)) /\
  (forall btn filterBtns skillItems emptyState,
     keeps_values (SkillFilterAlt.on_click btn filterBtns skillItems emptyState)) /\
  (forall filterBtns key, keeps_values (SkillFilter.on_keydown filterBtns key)) /\
  (forall details detailsEls,
     keeps_values (Experience.user_toggle details detailsEls)) /\
  (forall details detailsEls key,
     keeps_values (Experience.on_summary_keydown details detailsEls key)) /\
  (forall navLinks entries c,
     keeps_values (NavHighlight.observer_callback navLinks entries c)) /\
  (forall sections, keeps_values (NavHighlight.on_resize sections)) /\
  (forall parse target, keeps_values (SmoothScroll.on_click parse target)) /\
  (forall target, keeps_values (SmoothScroll.on_target_blur target)) /\
  keeps_values init_script /\ keeps_values init_alt.
Proof.
  repeat match goal with |- _ /\ _ => split end.
  - apply kv_on_blur.
  - apply kv_on_input.
  - apply kv_on_submit.
  - apply kv_on_send_settled.
  - apply kv_submission.
  - apply kv_nav_handle.
  - apply kv_filter_click.
  - apply kv_filter_click_alt.
  - apply kv_filter_keydown.
  - apply kv_user_toggle.
  - apply kv_summary_keydown.
  - apply kv_observer_callback.
  - apply kv_on_resize.
  - apply kv_smooth_click.
  - apply kv_target_blur.
  - apply kv_init_script.
  - apply kv_init_alt.
Qed.

Lemma nt_ret {A} (a : A) : never_throws (ret a).
Proof. intros w. by eexists _, _. Qed.

Lemma nt_bind {A B} (m : M A) (k : A -> M B) :
  never_throws m -> (forall a, never_throws (k a)) -> never_throws (bind m k).
Proof.
  intros Hm Hk w. destruct (Hm w) as (a & w' & Hrun).
  rewrite (bind_Ok _ _ _ _ _ Hrun). apply Hk.
Qed.

Lemma nt_try_catch {A} (m : M A) (h : exn -> M A) :
  never_throws m -> never_throws (try_catch m h).
Proof.
  intros Hm w. destruct (Hm w) as (a & w' & Hrun).
  unfold try_catch. rewrite Hrun. by eexists _, _.
Qed.

Lemma nt_forEach {A} (l : list A) (f : A -> M unit) :
  (forall x, never_throws (f x)) -> never_throws (forEach l f).
Proof.
  intros Hf. induction l as [|x l IH]; [apply nt_ret|].
  simpl. apply nt_bind; [apply Hf|by intros _].
Qed.

Lemma nt_mapM {A B} (f : A -> M B) (l : list A) :
  (forall x, never_throws (f x)) -> never_throws (mapM f l).
Proof.
  intros Hf. induction l as [|x l IH]; [apply nt_ret|].
  simpl. apply nt_bind; [apply Hf|intros y].
  apply nt_bind; [done|intros ys; apply nt_ret].
Qed.

Lemma nt_ok {A} (m : M A) (a : world -> A) (f : world -> world) :
  (forall w, m w = Ok (a w) (f w)) -> never_throws m.
Proof. intros H w. rewrite H. by eexists _, _. Qed.

Ltac runs_step :=
  lazymatch goal with
  | |- forall _, _ => intro
  | |- never_throws (bind _ _) => apply nt_bind
  | |- never_throws (ret _) => apply nt_ret
  | |- never_throws (try_catch _ _) => apply nt_try_catch
  | |- never_throws (forEach _ _) => apply nt_forEach
  | |- never_throws (mapM _ _) => apply nt_mapM
  | |- never_throws (match ?x with _ => _ end) => destruct x
  | |- never_throws (fun _ => _) => eapply nt_ok; intro; reflexivity
  | |- never_throws ?m => let h := head_of m in unfold h
  end.

Ltac runs := repeat runs_step.

Lemma nt_on_submit form submitBtn successEl :
  never_throws (ContactForm.on_submit form submitBtn successEl).
Proof. runs. Qed.

Lemma nt_on_send_fulfilled form submitBtn successEl :
  never_throws (ContactForm.on_send_settled form submitBtn successEl
                  ContactForm.Fulfilled).
Proof. runs. Qed.

Lemma nt_submission form submitBtn successEl :
  never_throws (ContactForm.submission form submitBtn successEl).
Proof.
  unfold ContactForm.submission.
  apply nt_bind; [apply nt_on_submit|]. intros [|]; [apply nt_ret|].
  intros w. unfold bind, ContactForm.timer_fires.
  apply nt_on_send_fulfilled.
Qed.

Lemma nt_filter_items items filter k :
  never_throws (SkillFilter.filter_items items filter k).
Proof.
  intros w. rewrite filter_items_run. by eexists _, _.
Qed.

Lemma nt_filter_items_alt items filter k :
  never_throws (SkillFilterAlt.filter_items items filter k).
Proof.
  intros w. rewrite filter_items_alt_run. by eexists _, _.
Qed.

Lemma nt_filter_click btn filterBtns skillItems emptyState :
  never_throws (SkillFilter.on_click btn filterBtns skillItems emptyState).
Proof.
  unfold SkillFilter.on_click, SkillFilter.applyFilter.
  apply nt_bind; [runs|]. intros f. apply nt_bind; [runs|]. intros _.
  apply nt_bind; [apply nt_filter_items|]. runs.
Qed.

Lemma nt_filter_click_alt btn filterBtns skillItems emptyState :
  never_throws (SkillFilterAlt.on_click btn filterBtns skillItems emptyState).
Proof.
  unfold SkillFilterAlt.on_click, SkillFilterAlt.applyFilter.
  apply nt_bind; [runs|]. intros f. apply nt_bind; [runs|]. intros _.
  apply nt_bind; [apply nt_filter_items_alt|]. runs.
Qed.

Lemma nt_user_toggle details detailsEls :
  never_throws (Experience.user_toggle details detailsEls).
Proof. runs. Qed.

Lemma nt_observer_callback navLinks entries c :
  never_throws (NavHighlight.observer_callback navLinks entries c).
Proof.
  intros w. destruct (observer_callback_run navLinks entries c w) as (c' & w' & H & _).
  by exists c', w'.
Qed.

(** X21. The handlers run to their end on every page.  In this model, where
    every element has a string value as form controls do, the listeners of
    the contact form (blur, input, submit, and the rest of the submit handler
    after a send that succeeded), of the mobile nav, of the skill filter, of
    the accordion and of the observer, and the [blur] listener of a scroll
    target never throw, whatever the page holds.  (The two handlers that can
    throw are the click handler of smooth scroll and the rest of the submit
    handler after a failed send.) *)
Theorem X21_handlers_run_to_their_end_on_every_page :
  (forall config, never_throws (ContactForm.on_blur config)) /\
  (forall config input, never_throws (ContactForm.on_input config input)) /\
  (forall form submitBtn successEl,
     never_throws (ContactForm.on_submit form submitBtn successEl)) /\
  (forall form submitBtn successEl,
     never_throws (ContactForm.on_send_settled form submitBtn successEl
                     ContactForm.Fulfilled)) /\
  (forall form submitBtn successEl,
     never_throws (ContactForm.submission form submitBtn successEl)) /\
  (forall toggle nav ev, never_throws (nav_handle toggle nav ev)) /\
  (forall btn filterBtns skillItems emptyState,
     never_throws (SkillFilter.on_click btn filterBtns skillItems emptyState)) /\
  (forall btn filterBtns skillItems emptyState,
     never_throws (SkillFilterAlt.on_click btn filterBtns skillItems emptyState)) /\
  (forall filterBtns key, never_throws (SkillFilter.on_keydown filterBtns key)) /\
  (forall details detailsEls,
     never_throws (Experience.user_toggle details detailsEls)) /\
  (forall details detailsEls key,
     never_throws (Experience.on_summary_keydown details detailsEls key)) /\
  (forall navLinks entries c,
     never_throws (NavHighlight.observer_callback navLinks entries c)) /\
  (forall sections, never_throws (NavHighlight.on_resize sections)) /\
  (forall target, never_throws (SmoothScroll.on_target_blur target)).
Proof.
  repeat match goal with |- _ /\ _ => split end.
  - runs.
  - runs.
  - apply nt_on_submit.
  - apply nt_on_send_fulfilled.
  - apply nt_submission.
  - intros toggle nav ev. destruct ev; runs.
  - apply nt_filter_click.
  - apply nt_filter_click_alt.
  - intros filterBtns key w.
    destruct (filter_keydown_runs filterBtns key w) as (w' & H & _).
    by exists tt, w'.
  - apply nt_user_toggle.
  - intros details detailsEls key.
    unfold Experience.on_summary_keydown. destruct (bool_decide _); [|apply nt_ret].
    apply nt_bind; [runs|]. intros _. apply nt_user_toggle.
  - apply nt_observer_callback.
  - runs.
  - runs.
Qed.

(** ** The failed send *)

Lemma select_same_on_tree sel root w w' :
  tree w' = tree w ->
  (forall n, n ∈ (tree w).*1 -> heap w' !! n = heap w !! n) ->
  select sel root w' = select sel root w.
Proof.
  intros Ht Hh. unfold select. rewrite Ht. apply filter_ext_in. intros n Hn.
  unfold ref_matches. rewrite Hh; [done|].
  apply (scope_sub root). by apply list_elem_of_In.
Qed.

Lemma error_element_built_outside w n m :
  m <> n -> heap (error_element_built n w) !! m = heap w !! m.
Proof.
  intros H. unfold error_element_built, update. simpl.
  rewrite !lookup_alter_ne by done. by rewrite lookup_insert_ne.
Qed.

Lemma select_error_element_built sel root w :
  (forall n, n ∈ (tree w).*1 -> is_Some (heap w !! n)) ->
  select sel root (error_element_built (fresh (dom (heap w))) w) = select sel root w.
Proof.
  intros Hcover. apply select_same_on_tree; [done|]. intros n Hn.
  apply error_element_built_outside. intros ->.
  by apply (fresh_not_in_tree w Hcover).
Qed.

Lemma showSubmitError_cases form message w :
  (forall n, n ∈ (tree w).*1 -> is_Some (heap w !! n)) ->
  select (sel_id "submit-error") (Some form) w = [] ->
  ContactForm.showSubmitError form message w
  = match head (select (sel_class "form-actions") (Some form) w) with
    | None => Throw TypeError (error_element_built (fresh (dom (heap w))) w)
    | Some actions =>
        Ok tt (set_tree (remove_descendants (fresh (dom (heap w))))
                 (update (fresh (dom (heap w))) (with_textContent message)
                    (set_tree (insert_after actions (fresh (dom (heap w))))
                       (error_element_built (fresh (dom (heap w))) w))))
    end.
Proof.
  intros Hcover Hnone. unfold ContactForm.showSubmitError.
  rewrite (bind_Ok _ _ w None w) by (unfold qs; by rewrite Hnone).
  unfold bind at 2. unfold createElement.
  unfold bind at 2. unfold setAttribute at 1, modify.
  unfold bind at 2. unfold setAttribute at 1, modify.
  unfold bind at 2. unfold setAttribute at 1, modify.
  unfold bind at 2. unfold classList_add at 1, modify.
  unfold bind at 1. cbv beta.
  fold (error_element_built (fresh (dom (heap w))) w).
  unfold bind at 1. rewrite qs_answer.
  rewrite (select_error_element_built _ _ w Hcover).
  by destruct (head (select (sel_class "form-actions") (Some form) w)).
Qed.

(** X22. Contact form: a failed send needs a place for its message.  On a
    page whose form holds no [#submit-error] element, the rest of the submit
    handler after a failed send throws a [TypeError] exactly when the form
    has no [.form-actions] element either: it then stops before
    [setSubmitLoading(false)], every element of the page is as it was (the
    submit control stays disabled) and the element it built is nowhere in
    the document.  With a [.form-actions] element it runs to its end. *)
Theorem X22_failed_send_needs_a_place_for_its_message form submitBtn successEl w :
  (forall n, n ∈ (tree w).*1 -> is_Some (heap w !! n)) ->
  select (sel_id "submit-error") (Some form) w = [] ->
  (select (sel_class "form-actions") (Some form) w = [] ->
   exists w',
     ContactForm.on_send_settled form submitBtn successEl ContactForm.Rejected w
     = Throw TypeError w' /\
     tree w' = tree w /\
     (forall n, is_Some (heap w !! n) -> heap w' !! n = heap w !! n) /\
     (forall sel root, select sel root w' = select sel root w)) /\
  (select (sel_class "form-actions") (Some form) w <> [] ->
   exists w',
     ContactForm.on_send_settled form submitBtn successEl ContactForm.Rejected w
     = Ok tt w').
Proof.
  intros Hcover Hnone.
  pose proof (showSubmitError_cases form ContactForm.submit_error_message w
                Hcover Hnone) as Hshow.
  unfold ContactForm.on_send_settled, try_catch, throw. split.
  - intros Hno. rewrite Hno in Hshow. simpl in Hshow.
    rewrite (bind_Throw _ _ _ _ _ Hshow). eexists. split; [reflexivity|].
    split; [done|]. split.
    + intros n Hn. apply error_element_built_outside. intros ->.
      destruct Hn as [e He].
      assert (heap w !! fresh (dom (heap w)) = None) as Hf
        by apply not_elem_of_dom, is_fresh.
      congruence.
    + intros sel root. by apply select_error_element_built.
  - intros Hsome.
    destruct (select (sel_class "form-actions") (Some form) w) as [|a l] eqn:E;
      [done|].
    simpl in Hshow. rewrite (bind_Ok _ _ _ _ _ Hshow).
    rewrite setSubmitLoading_run_any. by eexists.
Qed.

(** ** The properties above on the sample pages *)

Lemma X3_click_presses_only_the_clicked_button_witness :
  let w := Sample.skills_page in
  let filterBtns := [31; 32; 33]%nat in
  (exists w',
     SkillFilter.on_click 32%nat filterBtns Sample.skill_items
       (Some Sample.skills_empty) w = Ok tt w' /\
     (forall b, b ∈ filterBtns ->
        if bool_decide (b = 32%nat) then btn_pressed w' b else btn_released w' b) /\
     (forall item, item ∈ Sample.skill_items ->
        item_hidden w' item
        = negb (matches_filter w (attr w 32%nat "data-filter") item))) /\
  (exists w',
     SkillFilterAlt.on_click 32%nat filterBtns Sample.skill_items
       (Some Sample.skills_empty) w = Ok tt w' /\
     (forall b, b ∈ filterBtns ->
        if bool_decide (b = 32%nat) then btn_pressed w' b else btn_released w' b) /\
     (forall item, item ∈ Sample.skill_items ->
        if matches_filter w (attr w 32%nat "data-filter") item
        then item_shown_alt w' item else item_hidden_alt w' item)).
Proof.
  apply (X3_click_presses_only_the_clicked_button 32%nat [31; 32; 33]%nat
           Sample.skill_items (Some Sample.skills_empty) Sample.skills_page).
  - intros b Hb. repeat (apply elem_of_cons in Hb as [->|Hb]; [by eexists|]).
    by apply elem_of_nil in Hb.
  - intros item Hin. unfold Sample.skill_items in Hin.
    repeat (apply elem_of_cons in Hin as [->|Hin]; [by eexists|]).
    by apply elem_of_nil in Hin.
Defined.

Lemma X6_links_of_the_active_section_are_marked_witness :
  let w := Sample.nav_page in
  let navLinks := [23; 24]%nat in
  let c := NavHighlight.Closure None [("about", 0%Q); ("skills", 0%Q)] in
  exists c' w',
    NavHighlight.observer_callback navLinks [(26%nat, (1 # 2)%Q)] c w = Ok c' w' /\
    (forall a, NavHighlight.activeId c' = Some a -> highlights navLinks w' a) /\
    (NavHighlight.activeId c' = NavHighlight.activeId c -> w' = w) /\
    (forall n, n ∉ navLinks -> heap w' !! n = heap w !! n) /\
    (forall n a, a <> "aria-current" -> attr w' n a = attr w n a) /\
    (forall n, is_Some (heap w' !! n) <-> is_Some (heap w !! n)) /\
    tree w' = tree w.
Proof.
  apply (X6_links_of_the_active_section_are_marked [23; 24]%nat
           [(26%nat, (1 # 2)%Q)]
           (NavHighlight.Closure None [("about", 0%Q); ("skills", 0%Q)])
           Sample.nav_page).
  - intros b Hb. repeat (apply elem_of_cons in Hb as [->|Hb]; [by eexists|]).
    by apply elem_of_nil in Hb.
  - intros a Ha. simpl in Ha. discriminate Ha.
Defined.

Lemma X7_ratio_map_keeps_its_order_witness :
  let w := Sample.nav_page in
  let c := NavHighlight.Closure None [("about", 0%Q); ("skills", 0%Q)] in
  let entries := [(26%nat, (1 # 2)%Q); (25%nat, (1 # 4)%Q)] in
  exists c' w',
    NavHighlight.observer_callback [23; 24]%nat entries c w = Ok c' w' /\
    (NavHighlight.ratioMap c').*1 = (NavHighlight.ratioMap c).*1 /\
    forall k,
      map_get k (NavHighlight.ratioMap c')
      = match reported w entries k with
        | Some r => Some r
        | None => map_get k (NavHighlight.ratioMap c)
        end.
Proof.
  apply (X7_ratio_map_keeps_its_order [23; 24]%nat
           [(26%nat, (1 # 2)%Q); (25%nat, (1 # 4)%Q)]
           (NavHighlight.Closure None [("about", 0%Q); ("skills", 0%Q)])
           Sample.nav_page).
  intros e He.
  repeat (apply elem_of_cons in He as [->|He];
          [apply (bool_decide_unpack _); by vm_compute|]).
  by apply elem_of_nil in He.
Defined.

Lemma X8_nav_highlight_starts_in_document_order_witness :
  let w := Sample.nav_page in
  let sections := select page_sections None w in
  exists w',
    NavHighlight.initNavHighlight w
    = Ok (Some (NavHighlight.Closure None ((fun s => (id_of w s, 0%Q)) <$> sections)))
         w' /\
    observed w' = observed w ++ sections /\
    listeners w' = listeners w ++ [Listener Window "resize" (NavResize sections)] /\
    heap w' = heap w /\ tree w' = tree w /\ activeElement w' = activeElement w.
Proof.
  apply (X8_nav_highlight_starts_in_document_order Sample.nav_page).
  - by vm_compute.
  - by vm_compute.
  - apply (bool_decide_unpack _). by vm_compute.
Defined.

Ltac sample_entries H :=
  unfold Sample.entries in H;
  repeat (apply elem_of_cons in H as [->|H]);
  try (by apply elem_of_nil in H).

Lemma sample_own_summaries w :
  summary_of w 41%nat = Some 42%nat ->
  summary_of w 44%nat = Some 45%nat ->
  summary_of w 47%nat = Some 48%nat ->
  own_summaries Sample.entries w.
Proof.
  intros H1 H2 H3 a b s Ha Hb. sample_entries Ha; sample_entries Hb;
    rewrite ?H1, ?H2, ?H3; congruence.
Qed.

Lemma X10_accordion_init_mirrors_the_open_state_witness :
  let w := Sample.experience_page in
  let detailsEls := select (sel_class "experience-details") None w in
  exists w',
    Experience.initExperience w = Ok tt w' /\
    aria_synced detailsEls w' /\
    (forall n, flag w' n "open" = flag w n "open") /\
    accordion_frame w w'.
Proof.
  apply (X10_accordion_init_mirrors_the_open_state Sample.experience_page).
  assert (select (sel_class "experience-details") None Sample.experience_page
          = Sample.entries) as -> by (by vm_compute).
  apply sample_own_summaries; by vm_compute.
Defined.

Lemma X9_aria_expanded_mirrors_the_open_state_witness :
  let w := initialised_experience_page in
  exists w',
    forEach [44; 47; 47]%nat (fun d => Experience.user_toggle d Sample.entries) w
      = Ok tt w' /\
    aria_synced Sample.entries w' /\
    accordion_frame w w'.
Proof.
  apply (X9_aria_expanded_mirrors_the_open_state Sample.entries [44; 47; 47]%nat
           initialised_experience_page).
  - intros d Hd. sample_entries Hd; vm_compute; by eexists.
  - apply sample_own_summaries; by vm_compute.
  - intros d s Hd Hs. sample_entries Hd; vm_compute in Hs;
      injection Hs as <-; by vm_compute.
  - intros d Hd.
    repeat (apply elem_of_cons in Hd as [->|Hd];
            [apply (bool_decide_unpack _); by vm_compute|]).
    by apply elem_of_nil in Hd.
Defined.

Lemma X11_in_page_link_scrolls_and_moves_focus_witness :
  let w := Sample.nav_page in
  exists w',
    SmoothScroll.on_click sample_parse 23%nat w = Ok tt w' /\
    defaultPrevented w' = true /\
    scrollTarget w' = Some 25%nat /\
    tree w' = tree w /\
    if ref_matches SmoothScroll.naturally_focusable (heap w) 25%nat
    then heap w' = heap w /\ activeElement w' = activeElement w /\
         listeners w' = listeners w
    else attr w' 25%nat "tabindex" = Some "-1" /\
         activeElement w' = Some 25%nat /\
         listeners w' = listeners w ++ [blur_once 25%nat] /\
         (forall n a, n <> 25%nat \/ a <> "tabindex" -> attr w' n a = attr w n a) /\
         ref_matches SmoothScroll.naturally_focusable (heap w') 25%nat = true.
Proof.
  apply (X11_in_page_link_scrolls_and_moves_focus sample_parse 23%nat
           Sample.nav_page 23%nat "#about" (sel_id "about") 25%nat).
  - by vm_compute.
  - by vm_compute.
  - discriminate.
  - reflexivity.
  - by vm_compute.
Defined.

Lemma X12_blur_takes_back_the_tabindex_witness :
  let w := Sample.nav_page in
  exists w1,
    SmoothScroll.on_click sample_parse 23%nat w = Ok tt w1 /\
    (exists w2,
       SmoothScroll.on_target_blur 25%nat w1 = Ok tt w2 /\
       heap w2 = heap w /\ tree w2 = tree w /\ listeners w2 = listeners w) /\
    (exists w2,
       SmoothScroll.on_click sample_parse 23%nat w1 = Ok tt w2 /\
       heap w2 = heap w1 /\ listeners w2 = listeners w1 /\
       activeElement w2 = Some 25%nat).
Proof.
  apply (X12_blur_takes_back_the_tabindex sample_parse 23%nat
           Sample.nav_page 23%nat "#about" (sel_id "about") 25%nat).
  - by vm_compute.
  - by vm_compute.
  - discriminate.
  - reflexivity.
  - by vm_compute.
  - reflexivity.
  - by vm_compute.
  - constructor.
Defined.

Lemma X13_click_changes_nothing_unless_it_scrolls_witness :
  let w := update 23%nat (with_attrs (insert "href" "#1")) Sample.nav_page in
  SmoothScroll.on_click sample_parse 23%nat w = Throw SyntaxError w.
Proof.
  apply (proj1 (proj2 (X13_click_changes_nothing_unless_it_scrolls sample_parse 23%nat
           (update 23%nat (with_attrs (insert "href" "#1")) Sample.nav_page)))
           23%nat "#1").
  - by vm_compute.
  - by vm_compute.
  - discriminate.
  - reflexivity.
Defined.

Lemma X14_debounce_runs_once_after_a_burst_witness :
  let fn := fun (a : nat) (s : list nat) => a :: s in
  let st0 := Debounce.State None (Timers.Table 0 0 []) [] in
  let rest := [(50%N, 2%nat); (120%N, 3%nat)] in
  let last_call := List.last rest (10%N, 1%nat) in
  let st := Debounce.elapse fn 300 (Debounce.run fn 100 ((10%N, 1%nat) :: rest) st0) in
  Debounce.page st
  = (if (300 <? last_call.1 + 100)%N then Debounce.page st0
     else fn last_call.2 (Debounce.page st0)) /\
  length (Timers.pending (Debounce.timers st))
  = if (300 <? last_call.1 + 100)%N then 1%nat else 0%nat.
Proof.
  apply (X14_debounce_runs_once_after_a_burst
           (fun (a : nat) (s : list nat) => a :: s) 100
           (Debounce.State None (Timers.Table 0 0 []) [])
           10 1%nat [(50%N, 2%nat); (120%N, 3%nat)] 300).
  - reflexivity.
  - simpl. lia.
  - simpl. lia.
  - simpl. lia.
Defined.

Lemma X15_debounce_keeps_one_timer_witness :
  let fn := fun (a : nat) (s : list nat) => a :: s in
  let st0 := Debounce.State None (Timers.Table 0 0 []) [] in
  let calls := [(10%N, 1%nat); (500%N, 2%nat); (520%N, 3%nat)] in
  (length (Timers.pending (Debounce.timers (Debounce.run fn 100 calls st0)))
   <= 1)%nat /\
  (length (Timers.pending
             (Debounce.timers (Debounce.elapse fn 530 (Debounce.run fn 100 calls st0))))
   <= 1)%nat.
Proof.
  apply (X15_debounce_keeps_one_timer
           (fun (a : nat) (s : list nat) => a :: s) 100
           (Debounce.State None (Timers.Table 0 0 []) [])
           [(10%N, 1%nat); (500%N, 2%nat); (520%N, 3%nat)] 530).
  reflexivity.
Defined.

Lemma X16_resize_burst_observes_the_sections_once_witness :
  let sections := [25; 26]%nat in
  let st0 := Debounce.State None (Timers.Table 0 0 [])
               (set_observed (fun _ => sections) Sample.nav_page) in
  let rest := [(40%N, tt); (90%N, tt)] in
  let tn := (List.last rest (0%N, tt)).1 in
  let st := Debounce.elapse (resize_callback sections) 400
              (Debounce.run (resize_callback sections) 200 ((0%N, tt) :: rest) st0) in
  Debounce.page st
  = if (400 <? tn + 200)%N then Debounce.page st0
    else set_observed (fun _ => sections) (Debounce.page st0).
Proof.
  apply (X16_resize_burst_observes_the_sections_once [25; 26]%nat
           (Debounce.State None (Timers.Table 0 0 [])
              (set_observed (fun _ => [25; 26]%nat) Sample.nav_page))
           0 [(40%N, tt); (90%N, tt)] 400).
  - reflexivity.
  - simpl. lia.
  - simpl. lia.
  - simpl. lia.
Defined.

Lemma X17_copy_confirmation_shows_for_two_seconds_witness :
  let st0 := CopyEmail.State copy_page None (Timers.Table 0 0 []) in
  let rest := [1500%N; 5000%N] in
  let tn := List.last rest 100%N in
  let st := CopyEmail.elapse 50%nat 51%nat 6000
              (activations 50%nat 51%nat (100%N :: rest) st0) in
  (if (6000 <? tn + 2000)%N
   then confirm_shown (CopyEmail.page st) 50%nat 51%nat
   else confirm_hidden (CopyEmail.page st) 50%nat 51%nat) /\
  length (Timers.pending (CopyEmail.timers st))
  = if (6000 <? tn + 2000)%N then 1%nat else 0%nat.
Proof.
  apply (X17_copy_confirmation_shows_for_two_seconds 50%nat 51%nat
           (CopyEmail.State copy_page None (Timers.Table 0 0 []))
           100 [1500%N; 5000%N] 6000).
  - by eexists.
  - by eexists.
  - reflexivity.
  - simpl. lia.
  - simpl. lia.
  - simpl. lia.
Defined.

Lemma X22_failed_send_needs_a_place_for_its_message_witness :
  let w := Sample.form_without_actions in
  (select (sel_class "form-actions") (Some Sample.form_ref) w = [] ->
   exists w',
     ContactForm.on_send_settled Sample.form_ref Sample.submit_ref Sample.success_ref
       ContactForm.Rejected w = Throw TypeError w' /\
     tree w' = tree w /\
     (forall n, is_Some (heap w !! n) -> heap w' !! n = heap w !! n) /\
     (forall sel root, select sel root w' = select sel root w)) /\
  (select (sel_class "form-actions") (Some Sample.form_ref) w <> [] ->
   exists w',
     ContactForm.on_send_settled Sample.form_ref Sample.submit_ref Sample.success_ref
       ContactForm.Rejected w = Ok tt w').
Proof.
  apply (X22_failed_send_needs_a_place_for_its_message Sample.form_ref
           Sample.submit_ref Sample.success_ref Sample.form_without_actions).
  - intros n Hn.
    repeat (apply elem_of_cons in Hn as [->|Hn]; [by eexists|]).
    by apply elem_of_nil in Hn.
  - reflexivity.
Defined.
